(** * g_tessellate_area: the Delaunay triangulator and the grid tessellator

    A shallow embedding of [src/delaunay_tri.c] and [src/gta_grid.c].

    Conventions of the embedding.
    - A [dtreal] or [real] value is the rational ([Q]) it stands for; the
      values are finite, and the zero is [+0.0].  An operation of the machine
      is the exact operation followed by the rounding of its format
      ([Float.round]: to nearest, ties to even); where the text of a
      definition says that a computation is taken exactly, it is not
      rounded.
    - A [struct vert *] is the index of the vertex in the array [v]; the null
      pointer is [None].  Dereferencing a null pointer is the fault
      [NullDeref].
    - The circular doubly linked list hanging off [vert.adj] is the list of
      the [v] fields of its nodes, read from the node [adj] points to along
      [next]; [prev] walks the same list backwards and both wrap around.  A
      null [adj] is the empty list.  Nodes are owned by one ring and never
      shared, so allocation and release of nodes are not modelled.
    - Loops whose termination depends on the geometry take a fuel argument;
      running out of it is the fault [OutOfFuel].
    - The headers [delaunay_tri.h] and [gta_grid.h] are not among the files;
      the two structs they declare are taken from the use the code makes of
      their fields.  [dtreal] is taken to be [double]. *)

From Stdlib Require Import ZArith QArith Qround Qpower List Lia Lqa Bool Sorted
  Permutation.
From stdpp Require Import base list.

Open Scope Q_scope.

(** ** Outcomes of a run *)

Inductive fault : Type :=
| NullDeref      (* a null [struct vert *] was dereferenced *)
| WildPointer    (* a [coord] pointer that is not the address of a point *)
| OutOfBounds    (* an access outside the allocated block *)
| Overflow       (* a value outside its type: an [int] out of range, a
                    [real] that is not finite *)
| OutOfFuel.

Inductive outcome (A : Type) : Type :=
| Done (a : A)
| Fault (f : fault).
Arguments Done {A} a.
Arguments Fault {A} f.

Definition bind {A B} (m : outcome A) (k : A -> outcome B) : outcome B :=
  match m with
  | Done a => k a
  | Fault f => Fault f
  end.

Notation "'let*' x ':=' m 'in' k" := (bind m (fun x => k))
  (at level 10, x pattern, m at level 100, k at level 200).

(** Comparisons of [dtreal]/[real] values, as booleans. *)
Definition Qltb (a b : Q) : bool := negb (Qle_bool b a).

(** * Rounding of the binary floating-point formats *)

Module Float.

(** [2^e], for an exponent of either sign. *)
Definition pow2 (e : Z) : Q := 2 ^ e.

(** The exponent of a positive number: the [l] with [2^l <= q < 2^(l+1)]. *)
Definition ilog2 (q : Q) : Z :=
  let l := (Z.log2 (Qnum q) - Z.log2 (Zpos (Qden q)))%Z in
  if Qle_bool (pow2 l) q then l else (l - 1)%Z.

(** The integer nearest to [q]; of two that are as near, the even one. *)
Definition rne (q : Q) : Z :=
  let f := Qfloor q in
  match Qcompare (q - inject_Z f) (1 # 2) with
  | Lt => f
  | Gt => (f + 1)%Z
  | Eq => if Z.even f then f else (f + 1)%Z
  end.

(** Rounding of a positive number to a significand of [prec] bits with a
    least exponent [emin] (the exponent of the last bit of a subnormal
    number). *)
Definition round_pos (prec emin : Z) (a : Q) : Q :=
  let e := Z.max (ilog2 a - (prec - 1)) emin in
  inject_Z (rne (a / pow2 e)) * pow2 e.

(** Rounding to nearest, ties to even, of the binary format with [prec]
    bits of precision: [round 53 (-1074)] for [double], [round 24 (-149)]
    for [float].  The exponent has no upper bound here: a result above the
    largest finite number of the format stands for an overflow. *)
Definition round (prec emin : Z) (q : Q) : Q :=
  match Qnum q with
  | Z0 => 0
  | Zpos n => round_pos prec emin (Zpos n # Qden q)
  | Zneg n => - round_pos prec emin (Zpos n # Qden q)
  end.

End Float.

(** * The Delaunay triangulator ([src/delaunay_tri.c]) *)

Module Delaunay.

(** [#define DTEPSILON 1e-12]: the constant is the [double] nearest to
    [10^-12], which is [4951760157141521 * 2^-92] (a little below
    [10^-12]). *)
Definition DTEPSILON : Q := 4951760157141521 # (2 ^ 92).
Definition MINPOINTS : Z := 2.

(** The difference of two [dtreal] values as the machine computes it: the
    exact difference, rounded to [double].  A difference of two finite
    [double]s beyond the largest one is an infinity in the machine; the
    comparisons and the sign test the code applies to a difference give for
    it what they give for the value rounded without a bound. *)
Definition dtsub (a b : Q) : Q := Float.round 53 (-1074) (a - b).

(** ** Geometric predicates *)

(** Modelled from the spec: [orient2d] and [incircle] are Shewchuk's robust
    predicates, whose source is not among the files.  [orient2d] is positive
    exactly when its three points are counterclockwise, [incircle] exactly
    when the fourth point lies strictly inside the circle through the first
    three, taken counterclockwise.  They return a value with the sign of the
    determinant; the embedding takes the determinant itself, evaluated
    exactly. *)

Definition point : Type := (Q * Q)%type.

Definition orient2d (pa pb pc : point) : Q :=
  (fst pa - fst pc) * (snd pb - snd pc) - (snd pa - snd pc) * (fst pb - fst pc).

Definition incircle (pa pb pc pd : point) : Q :=
  let adx := fst pa - fst pd in let ady := snd pa - snd pd in
  let bdx := fst pb - fst pd in let bdy := snd pb - snd pd in
  let cdx := fst pc - fst pd in let cdy := snd pc - snd pd in
  (adx * adx + ady * ady) * (bdx * cdy - cdx * bdy)
  + (bdx * bdx + bdy * bdy) * (cdx * ady - adx * cdy)
  + (cdx * cdx + cdy * cdy) * (adx * bdy - bdx * ady).

(** ** Vertices

    [coord] is the offset of the vertex's x coordinate in the flat point
    array ([tri->points + 2*i] is offset [2*i]); [adj] is the ring. *)

Record vert : Type := mkVert { coord : nat; adj : list nat }.

Definition vptr : Type := option nat.

Section WithPoints.

Variable points : list Q.

Definition rd (k : nat) : Q := default 0 (points !! k).

Definition XX (c : vert) : Q := rd (coord c).
Definition YY (c : vert) : Q := rd (S (coord c)).
Definition pt (c : vert) : point := (XX c, YY c).

Definition INDEX (c : vert) : Z := Z.of_nat (coord c) / 2.

Definition vget (v : list vert) (i : nat) : vert :=
  default (mkVert 0 []) (v !! i).

Definition set_adj (v : list vert) (i : nat) (r : list nat) : list vert :=
  <[i := mkVert (coord (vget v i)) r]> v.

(** [ccw], [rightOf], [leftOf], [inCircle] on vertices that are known not to
    be null. *)
Definition ccw_at (v : list vert) (a b c : nat) : bool :=
  Qltb 0 (orient2d (pt (vget v a)) (pt (vget v b)) (pt (vget v c))).

Definition rightOf_at (v : list vert) (x ea eb : nat) : bool := ccw_at v x eb ea.
Definition leftOf_at (v : list vert) (x ea eb : nat) : bool := ccw_at v x ea eb.

Definition inCircle_at (v : list vert) (a b c d : nat) : bool :=
  Qltb 0 (incircle (pt (vget v a)) (pt (vget v b)) (pt (vget v c)) (pt (vget v d))).

(** The same on pointers: every argument is dereferenced. *)
Definition deref (p : vptr) : outcome nat :=
  match p with
  | Some i => Done i
  | None => Fault NullDeref
  end.

Definition ccw (v : list vert) (a b c : vptr) : outcome bool :=
  let* a' := deref a in let* b' := deref b in let* c' := deref c in
  Done (ccw_at v a' b' c').

Definition rightOf (v : list vert) (x ea eb : vptr) : outcome bool := ccw v x eb ea.
Definition leftOf (v : list vert) (x ea eb : vptr) : outcome bool := ccw v x ea eb.

Definition inCircle (v : list vert) (a b c d : vptr) : outcome bool :=
  let* a' := deref a in let* b' := deref b in let* c' := deref c in
  let* d' := deref d in
  Done (inCircle_at v a' b' c' d').

(** ** The adjacency store *)

(** Node [m] of a ring, its [next] and its [prev]. *)
Definition ring_at (r : list nat) (m : nat) : nat := default 0%nat (r !! m).
Definition ring_next (r : list nat) (m : nat) : nat := (S m mod length r)%nat.
Definition ring_prev (r : list nat) (m : nat) : nat :=
  ((m + length r - 1) mod length r)%nat.

(** [deleteAdj]: release the ring. *)
Definition deleteAdj (v : list vert) (i : nat) : list vert := set_adj v i [].

(** [insertNodeAfter(n, in)], with [n] the node at position [m]. *)
Definition insertNodeAfter (r : list nat) (m : nat) (inn : nat) : list nat :=
  take (S m) r ++ inn :: drop (S m) r.

(** The loop [while(cur != parent->adj && rightOf(in, parent, cur->v)) cur = cur->prev]
    started at position [m]; position 0 is [parent->adj]. *)
Fixpoint scan_prev (test : nat -> bool) (r : list nat) (m : nat) : nat :=
  match m with
  | O => O
  | S m' => if test (ring_at r m) then scan_prev test r m' else m
  end.

(** The loop [while(cur != parent->adj && leftOf(in, parent, cur->v)) cur = cur->next]
    started at position [m], [rest] being the nodes from there to the end of the
    list; falling off the end is coming back to [parent->adj]. *)
Fixpoint scan_next (test : nat -> bool) (rest : list nat) (m : nat) : nat :=
  match rest with
  | [] => O
  | x :: rest' => if test x then scan_next test rest' (S m) else m
  end.

Definition insertNode (v : list vert) (parent inn : nat) : list vert :=
  let r := adj (vget v parent) in
  match r with
  | first :: _ =>
      if rightOf_at v inn parent first then
        let cur := scan_prev (fun c => rightOf_at v inn parent c) r (length r - 1) in
        if (cur =? 0)%nat
        then (* parent->adj = vn; insertNodeAfter(cur->prev, vn) *)
          set_adj v parent (inn :: r)
        else set_adj v parent (insertNodeAfter r cur inn)
      else
        let cur := scan_next (fun c => leftOf_at v inn parent c) (tail r) 1 in
        if (ring_at r cur =? inn)%nat then v (* don't insert duplicate vert *)
        else set_adj v parent (insertNodeAfter r (ring_prev r cur) inn)
  | [] => set_adj v parent [inn]
  end.

(** The [do ... while] of [deleteNode]: unlink the first node, from
    [parent->adj] along [next], that holds [child].  When that node is
    [parent->adj] itself the ring starts at its successor afterwards. *)
Fixpoint unlink (child : nat) (r : list nat) : list nat :=
  match r with
  | [] => []
  | x :: r' => if (x =? child)%nat then r' else x :: unlink child r'
  end.

Definition deleteNode (v : list vert) (parent child : nat) : list vert :=
  match adj (vget v parent) with
  | [] => v
  | r => set_adj v parent (unlink child r)
  end.

Definition connectVerts (v : list vert) (a b : vptr) : list vert :=
  match a, b with
  | Some a', Some b' =>
      if (a' =? b')%nat then v else insertNode (insertNode v a' b') b' a'
  | _, _ => v
  end.

Definition cutVerts (v : list vert) (a b : vptr) : list vert :=
  match a, b with
  | Some a', Some b' =>
      if (a' =? b')%nat then v else deleteNode (deleteNode v a' b') b' a'
  | _, _ => v
  end.

Definition first (v : list vert) (vi : vptr) : vptr :=
  match vi with
  | Some i => head (adj (vget v i))
  | None => None
  end.

(** [pred] visits the nodes from [vi->adj] along [prev]: positions
    0, k-1, k-2, ..., 1.  The message it prints for a null argument is not
    recorded. *)
Definition pred (v : list vert) (vi vj : vptr) : vptr :=
  match vi, vj with
  | Some i, Some j =>
      let r := adj (vget v i) in
      match r with
      | [] => None
      | _ =>
          match find (fun m => (ring_at r m =? j)%nat)
                     (0%nat :: rev (seq 1 (length r - 1))) with
          | Some m => Some (ring_at r (ring_prev r m))
          | None => None
          end
      end
  | _, _ => None
  end.

(** [succ] visits them along [next]: positions 0, 1, ..., k-1. *)
Definition succ (v : list vert) (vi vj : vptr) : vptr :=
  match vi, vj with
  | Some i, Some j =>
      let r := adj (vget v i) in
      match r with
      | [] => None
      | _ =>
          match find (fun m => (ring_at r m =? j)%nat) (seq 0 (length r)) with
          | Some m => Some (ring_at r (ring_next r m))
          | None => None
          end
      end
  | _, _ => None
  end.

(** ** Common tangents of two hulls *)

(** The [while(true)] loop of [lct]. *)
Fixpoint lct_loop (fuel : nat) (v : list vert) (x y rfast lfast : vptr)
  : outcome (vptr * vptr) :=
  match fuel with
  | O => Fault OutOfFuel
  | S fuel' =>
      let* c1 := match rfast with
                 | Some _ => rightOf v rfast x y
                 | None => Done false
                 end in
      if c1 : bool then lct_loop fuel' v x rfast (succ v rfast y) lfast
      else
        let* c2 := match lfast with
                   | Some _ => rightOf v lfast x y
                   | None => Done false
                   end in
        if c2 : bool then lct_loop fuel' v lfast y rfast (pred v lfast x)
        else Done (x, y)
  end.

Definition lct (fuel : nat) (v : list vert) (lrightmost rleftmost : vptr)
  : outcome (vptr * vptr) :=
  let x := lrightmost in
  let y := rleftmost in
  let rfast := first v y in
  let fx := first v x in
  let lfast := match fx with
               | Some _ => pred v x fx
               | None => None
               end in
  lct_loop fuel v x y rfast lfast.

(** The [while(true)] loop of [uct]. *)
Fixpoint uct_loop (fuel : nat) (v : list vert) (x y rfast lfast : vptr)
  : outcome (vptr * vptr) :=
  match fuel with
  | O => Fault OutOfFuel
  | S fuel' =>
      let* c1 := match rfast with
                 | Some _ => leftOf v rfast x y
                 | None => Done false
                 end in
      if c1 : bool then uct_loop fuel' v x rfast (pred v rfast y) lfast
      else
        let* c2 := match lfast with
                   | Some _ => leftOf v lfast x y
                   | None => Done false
                   end in
        if c2 : bool then uct_loop fuel' v lfast y rfast (succ v lfast x)
        else Done (x, y)
  end.

Definition uct (fuel : nat) (v : list vert) (lrightmost rleftmost : vptr)
  : outcome (vptr * vptr) :=
  let x := lrightmost in
  let y := rleftmost in
  let lfast := first v x in
  let fy := first v y in
  let rfast := match fy with
               | Some _ => pred v y (first v y)
               | None => None
               end in
  uct_loop fuel v x y rfast lfast.

(** ** The divide-and-conquer core *)

Definition vptr_eqb (a b : vptr) : bool :=
  match a, b with
  | Some i, Some j => (i =? j)%nat
  | None, None => true
  | _, _ => false
  end.

(** The core is the only caller of [connectVerts] and [cutVerts].  Its state
    is the array [v] together with a record, kept for the proofs only, of
    the calls made so far: the operation, its arguments and the array as the
    call left it. *)
Inductive op : Type := Connect | Cut.

Record event : Type := mkEvent {
  ev_op : op;
  ev_a : vptr;
  ev_b : vptr;
  ev_after : list vert
}.

Definition core_state : Type := (list vert * list event)%type.

Definition do_connect (s : core_state) (a b : vptr) : core_state :=
  let v' := connectVerts (fst s) a b in
  (v', snd s ++ [mkEvent Connect a b v']).

Definition do_cut (s : core_state) (a b : vptr) : core_state :=
  let v' := cutVerts (fst s) a b in
  (v', snd s ++ [mkEvent Cut a b v']).

(** [while(inCircle(r1, li, ri, r2)) { cutVerts(ri, r1); r1 = r2; r2 = pred(ri, r1); }] *)
Fixpoint right_cand_loop (fuel : nat) (s : core_state) (li ri r1 r2 : vptr)
  : outcome (core_state * vptr) :=
  match fuel with
  | O => Fault OutOfFuel
  | S fuel' =>
      let* c := inCircle (fst s) r1 li ri r2 in
      if c : bool then
        let s' := do_cut s ri r1 in
        right_cand_loop fuel' s' li ri r2 (pred (fst s') ri r2)
      else Done (s, r1)
  end.

(** [while(inCircle(li, ri, l1, l2)) { cutVerts(li, l1); l1 = l2; l2 = succ(li, l1); }] *)
Fixpoint left_cand_loop (fuel : nat) (s : core_state) (li ri l1 l2 : vptr)
  : outcome (core_state * vptr) :=
  match fuel with
  | O => Fault OutOfFuel
  | S fuel' =>
      let* c := inCircle (fst s) li ri l1 l2 in
      if c : bool then
        let s' := do_cut s li l1 in
        left_cand_loop fuel' s' li ri l2 (succ (fst s') li l2)
      else Done (s, l1)
  end.

(** The merge loop [while(li != uctl || ri != uctr)]. *)
Fixpoint merge_loop (fuel : nat) (s : core_state) (li ri uctl uctr : vptr)
  : outcome core_state :=
  match fuel with
  | O => Fault OutOfFuel
  | S fuel' =>
      if negb (vptr_eqb li uctl) || negb (vptr_eqb ri uctr) then
        let s := do_connect s li ri in
        let r1 := pred (fst s) ri li in
        let* ca := leftOf (fst s) r1 li ri in
        let* (s, r1, a) :=
          if ca : bool then
            let r2 := pred (fst s) ri r1 in
            let* (s', r1') := right_cand_loop fuel' s li ri r1 r2 in
            Done (s', r1', false)
          else Done (s, r1, true) in
        let l1 := succ (fst s) li ri in
        let* cb := rightOf (fst s) l1 ri li in
        let* (s, l1, b) :=
          if cb : bool then
            let l2 := succ (fst s) li l1 in
            let* (s', l1') := left_cand_loop fuel' s li ri l1 l2 in
            Done (s', l1', false)
          else Done (s, l1, true) in
        if a : bool then merge_loop fuel' s l1 ri uctl uctr
        else if b : bool then merge_loop fuel' s li r1 uctl uctr
        else
          let* c := inCircle (fst s) li ri r1 l1 in
          if negb c then merge_loop fuel' s li r1 uctl uctr
          else merge_loop fuel' s l1 ri uctl uctr
      else Done s
  end.

(** [ord_dtriangulate(v, ia, ib, &leftmost, &rightmost)]; the result carries
    the state and the two out-parameters.  With fewer than two points the
    function does nothing and the out-parameters keep whatever they held,
    given here as null. *)
Fixpoint ord_dtriangulate (fuel : nat) (s : core_state) (ia ib : Z)
  : outcome (core_state * (vptr * vptr)) :=
  match fuel with
  | O => Fault OutOfFuel
  | S fuel' =>
      let at_ (i : Z) : vptr := Some (Z.to_nat i) in
      if (ib - ia =? 1)%Z then
        let s := do_connect s (at_ ia) (at_ ib) in
        Done (s, (at_ ia, at_ ib))
      else if (ib - ia =? 2)%Z then
        let s := do_connect s (at_ ia) (at_ (ia + 1)%Z) in
        let s := do_connect s (at_ (ia + 1)%Z) (at_ ib) in
        let* c1 := ccw (fst s) (at_ ia) (at_ (ia + 1)%Z) (at_ ib) in
        let* c2 := ccw (fst s) (at_ ia) (at_ ib) (at_ (ia + 1)%Z) in
        let s := if c1 || c2 then do_connect s (at_ ia) (at_ ib) else s in
        Done (s, (at_ ia, at_ ib))
      else if (3 <=? ib - ia)%Z then
        let mid := ((ia + ib) ÷ 2)%Z in
        let* (s, (lo, li)) := ord_dtriangulate fuel' s ia mid in
        let* (s, (ri, ro)) := ord_dtriangulate fuel' s (mid + 1)%Z ib in
        let* (lctl, lctr) := lct fuel' (fst s) li ri in
        let* (uctl, uctr) := uct fuel' (fst s) li ri in
        let* s := merge_loop fuel' s lctl lctr uctl uctr in
        let s := do_connect s uctl uctr in
        Done (s, (lo, ro))
      else Done (s, (None, None))
  end.

(** ** The triangle extractor *)

(** The [do ... while] over the ring of [v[i]], at position [m], with [todo]
    nodes still to visit.  [tris] is the flat index array written so far and
    [cap] the number of [int]s allocated for it. *)
Fixpoint tri_ring (todo : nat) (v : list vert) (i : nat) (r : list nat)
  (m : nat) (cap : Z) (tris : list Z) : outcome (list Z) :=
  match todo with
  | O => Done tris
  | S todo' =>
      let n := ring_at r m in
      let n' := ring_at r (ring_next r m) in
      match adj (vget v n), adj (vget v n') with
      | _ :: _, _ :: _ =>
          if (ring_next r m =? 0)%nat && negb (rightOf_at v n i n')
          then Done tris (* on convex hull *)
          else if (Z.of_nat (length tris) + 3 <=? cap)%Z then
            tri_ring todo' v i r (S m) cap
              (tris ++ [INDEX (vget v i); INDEX (vget v n); INDEX (vget v n')])
          else Fault OutOfBounds
      | _, _ => tri_ring todo' v i r (S m) cap tris
      end
  end.

(** The [for] loop of [convertTrisFreeAdj] over [v[i]], [i = from .. from+todo-1]. *)
Fixpoint tri_verts (todo : nat) (v : list vert) (i : nat) (cap : Z)
  (tris : list Z) : outcome (list vert * list Z) :=
  match todo with
  | O => Done (v, tris)
  | S todo' =>
      let r := adj (vget v i) in
      let* tris := match r with
                   | _ :: _ :: _ => tri_ring (length r) v i r 0 cap tris
                   | _ => Done tris
                   end in
      tri_verts todo' (deleteAdj v i) (S i) cap tris
  end.

Definition convertTrisFreeAdj (v : list vert) (nverts : Z)
  : outcome (list vert * list Z) :=
  let cap := (3 * (2 * (nverts - 1) - 2))%Z in
  tri_verts (Z.to_nat nverts) v 0 cap [].

(** ** Sorting the vertices *)

(** [compareVerts]: [signbit(diff)] is set when [diff] is negative.  It is
    also set when [diff] is [-0.0], which a difference [a - b] is only for
    [a = -0.0] and [b = +0.0]; the embedding has one zero, [+0.0], so a
    point array that holds a [-0.0] is outside it (a difference of equal
    values is [+0.0]). *)
Definition compareVerts (a b : vert) : Z :=
  let diff := dtsub (XX a) (XX b) in
  let diff := if Qltb diff DTEPSILON && Qltb (- DTEPSILON) diff
              then dtsub (YY a) (YY b) else diff in
  (1 - 2 * (if Qltb diff 0 then 1 else 0))%Z.

(** [qsort] is the C library's.  Its algorithm is unspecified; the embedding
    sorts by insertion with the comparator it is given.  Where the comparator
    orders the elements totally every sorting algorithm gives this result;
    where it does not, the result of the library may be another order of
    the same elements.  The pass and the entry point below are therefore
    given for any array [v0] that [qsort] may leave ([dedup_from],
    [dtriangulate_from]), and with [v0] the result of this sort ([dedup],
    [dtriangulate]). *)
Fixpoint sort_insert (cmp : vert -> vert -> Z) (x : vert) (l : list vert)
  : list vert :=
  match l with
  | [] => [x]
  | y :: l' => if (cmp x y <? 0)%Z then x :: l else y :: sort_insert cmp x l'
  end.

Definition qsort (cmp : vert -> vert -> Z) (l : list vert) : list vert :=
  foldr (sort_insert cmp) [] l.

End WithPoints.

(** ** The vertex array in memory

    The duplicate-removal pass of [dtriangulate] moves a number of bytes, so
    for that pass the array [v] is taken as the bytes it occupies.  The
    layout is that of an LP64 little-endian machine: a pointer is 8 bytes, a
    [struct vert] is its [coord] pointer followed by its [adj] pointer (16
    bytes), a [dtreal] is 8 bytes.

    A byte is [Some b] with [0 <= b < 256], or [None] when its value is
    indeterminate: the bytes that follow the block are not the program's,
    and a read that runs past the end of the block gets indeterminate bytes
    for them.  A pointer with an indeterminate byte is indeterminate
    ([None]). *)

Module Layout.

Definition sizeof_vert : nat := 16.
Definition sizeof_dtreal : Z := 8.

Fixpoint le_bytes (n : nat) (x : Z) : list Z :=
  match n with
  | O => []
  | S n' => (x mod 256)%Z :: le_bytes n' (x / 256)%Z
  end.

Fixpoint le_value (bs : list Z) : Z :=
  match bs with
  | [] => 0%Z
  | b :: bs' => (b + 256 * le_value bs')%Z
  end.

(** The bytes of a pointer. *)
Definition encode_ptr (p : option Z) : list (option Z) :=
  match p with
  | Some x => map Some (le_bytes 8 x)
  | None => repeat None 8
  end.

(** The bytes [bs] when none of them is indeterminate. *)
Fixpoint known (bs : list (option Z)) : option (list Z) :=
  match bs with
  | [] => Some []
  | Some b :: bs' =>
      match known bs' with
      | Some l => Some (b :: l)
      | None => None
      end
  | None :: _ => None
  end.

(** The bytes of a [struct vert] whose [adj] is null. *)
Definition encode_vert (coord_ptr : option Z) : list (option Z) :=
  encode_ptr coord_ptr ++ map Some (le_bytes 8 0).

(** The bytes of an array of such structs, given by their [coord] pointers. *)
Definition verts_bytes (v : list (option Z)) : list (option Z) :=
  flat_map encode_vert v.

(** [v[i].coord], read from the bytes of [v]. *)
Definition coord_ptr_at (mem : list (option Z)) (i : nat) : option Z :=
  match known (take 8 (drop (sizeof_vert * i) mem)) with
  | Some bs => Some (le_value bs)
  | None => None
  end.

(** [memmove(dst, src, n)] with [dst] and [src] inside the block [mem],
    offsets in bytes.  The [n] bytes are read before any is written; those
    read past the end of the block are indeterminate.  A write past the end
    of the block is a fault. *)
Definition memmove (mem : list (option Z)) (dst src n : nat)
  : outcome (list (option Z)) :=
  if (dst + n <=? length mem)%nat
  then Done (take dst mem ++ take n (drop src mem ++ repeat None n)
             ++ drop (dst + n) mem)
  else Fault OutOfBounds.

(** [memmove(v + i, v + i + 1, n)] on the array [v].  Source and destination
    are one struct apart, so [adj] bytes land on [adj] bytes, which are all
    zero during the pass; only the [coord] pointers change. *)
Definition memmove_verts (v : list (option Z)) (i n : nat)
  : outcome (list (option Z)) :=
  let* mem := memmove (verts_bytes v) (sizeof_vert * i) (sizeof_vert * (i + 1)) n in
  Done (map (coord_ptr_at mem) (seq 0 (length v))).

End Layout.

(** ** The entry point *)

(** Modelled from the spec: [struct dTriangulation] is declared in
    [delaunay_tri.h], which is not among the files; its fields are those the
    code uses and the external interface of the specification lists.
    [points_ptr] is the value of the pointer [points] and [points] the
    [dtreal]s stored there; [triangles] is the content of the block the
    pointer [triangles] designates. *)
Record dTriangulation : Type := mkTri {
  points_ptr : Z;
  points : list Q;
  npoints : Z;
  nverts : Z;
  triangles : list Z;
  ntriangles : Z
}.

(** What [dtriangulate] prints on [stderr]. *)
Inductive diagnostic : Type :=
| OnlyPoints (n : Z)          (* "Only %d points? That's not enough!" *)
| OnlyNonDuplicate (n : Z).   (* "Only %d non-duplicate points? ..." *)

Section Dedup.

Variable tri : dTriangulation.

(** The address [tri->points + k]. *)
Definition addr_of (k : nat) : Z :=
  (points_ptr tri + Layout.sizeof_dtreal * Z.of_nat k)%Z.

(** The offset in [tri->points] a [coord] pointer designates, when it
    designates the x coordinate of a point inside the array. *)
Definition offset_of (p : option Z) : outcome nat :=
  match p with
  | Some p =>
      let d := (p - points_ptr tri)%Z in
      if (0 <=? d)%Z && (d mod Layout.sizeof_dtreal =? 0)%Z
         && (d / Layout.sizeof_dtreal + 1 <? Z.of_nat (length (points tri)))%Z
      then Done (Z.to_nat (d / Layout.sizeof_dtreal))
      else Fault WildPointer
  | None => Fault WildPointer
  end.

(** The test of the pass on [v[i]] and [v[i-1]], at offsets [ci] and [cj]. *)
Definition duplicate (ci cj : nat) : bool :=
  let diffx := dtsub (rd (points tri) ci) (rd (points tri) cj) in
  let diffy := dtsub (rd (points tri) (S ci)) (rd (points tri) (S cj)) in
  Qltb diffx DTEPSILON && Qltb (- DTEPSILON) diffx
  && Qltb diffy DTEPSILON && Qltb (- DTEPSILON) diffy.

(** The loop [for(int i = 1; i < tri->nverts; )] of [dtriangulate]; [v] holds
    the [coord] pointer of each entry of the array. *)
Fixpoint dedup_loop (fuel : nat) (v : list (option Z)) (i : nat) (nv : Z)
  : outcome (list (option Z) * Z) :=
  match fuel with
  | O => Fault OutOfFuel
  | S fuel' =>
      if (Z.of_nat i <? nv)%Z then
        let* ci := offset_of (default None (v !! i)) in
        let* cj := offset_of (default None (v !! (i - 1)%nat)) in
        if duplicate ci cj then
          let* v' := Layout.memmove_verts v i (Z.to_nat (nv - Z.of_nat i + 1)) in
          dedup_loop fuel' v' i (nv - 1)%Z
        else dedup_loop fuel' v (S i) nv
      else Done (v, nv)
  end.

(** The array [v] as [dtriangulate] builds it, and as the embedding's
    [qsort] leaves it. *)
Definition unsorted_verts : list vert :=
  map (fun i => mkVert (2 * i) []) (seq 0 (Z.to_nat (npoints tri))).

Definition sorted_verts : list vert :=
  qsort (compareVerts (points tri)) unsorted_verts.

(** The pass as a whole, on the array [v0] that [qsort] left: the [coord]
    pointers in [v] and [tri->nverts] after it.  The loop body runs
    [npoints - 1] times. *)
Definition dedup_from (v0 : list vert) : outcome (list (option Z) * Z) :=
  dedup_loop (Z.to_nat (npoints tri))
             (map (fun c => Some (addr_of (coord c))) v0) 1 (npoints tri).

Definition dedup : outcome (list (option Z) * Z) := dedup_from sorted_verts.

(** The first [n] entries of [v] as vertices without neighbours. *)
Fixpoint read_verts (v : list (option Z)) (n : nat) : outcome (list vert) :=
  match n, v with
  | S n', p :: v' =>
      let* c := offset_of p in
      let* rest := read_verts v' n' in
      Done (mkVert c [] :: rest)
  | _, _ => Done []
  end.

End Dedup.

(** What [dtriangulate] does once [v] holds [nv >= MINPOINTS] vertices. *)
Definition triangulate_verts (fuel : nat) (tri : dTriangulation)
  (v : list vert) (nv : Z) : outcome (dTriangulation * list diagnostic) :=
  let* (s, _) := ord_dtriangulate (points tri) fuel (v, []) 0 (nv - 1) in
  let* (_, tris) := convertTrisFreeAdj (points tri) (fst s) nv in
  Done (mkTri (points_ptr tri) (points tri) (npoints tri) nv
              tris (Z.of_nat (length tris) / 3), []).

(** [dtriangulate], with [v0] for the array as [qsort] leaves it. *)
Definition dtriangulate_from (fuel : nat) (tri : dTriangulation)
  (v0 : list vert) : outcome (dTriangulation * list diagnostic) :=
  if (npoints tri <? MINPOINTS)%Z then Done (tri, [OnlyPoints (npoints tri)])
  else
    let* (v, nv) := dedup_from tri v0 in
    let tri := mkTri (points_ptr tri) (points tri) (npoints tri) nv
                     (triangles tri) (ntriangles tri) in
    if (nv <? MINPOINTS)%Z then Done (tri, [OnlyNonDuplicate nv])
    else
      let* v := read_verts tri v (Z.to_nat nv) in
      triangulate_verts fuel tri v nv.

Definition dtriangulate (fuel : nat) (tri : dTriangulation)
  : outcome (dTriangulation * list diagnostic) :=
  dtriangulate_from fuel tri (sorted_verts tri).

(** ** Properties and inputs used in the statements below *)

(** [b] occurs in the ring of [v[a]]. *)
Definition adjacent (v : list vert) (a b : nat) : bool :=
  existsb (Nat.eqb b) (adj (vget v a)).

(** The undirected edge [(a, b)] is present: each end lists the other. *)
Definition edge (v : list vert) (a b : nat) : bool :=
  adjacent v a b && adjacent v b a.

(** A call on distinct non-null vertices left the pair symmetric. *)
Definition symmetric_after (e : event) : Prop :=
  match ev_a e, ev_b e with
  | Some a, Some b =>
      a <> b -> adjacent (ev_after e) a b = adjacent (ev_after e) b a
  | _, _ => True
  end.

(** The index triples of a flat triangle array. *)
Fixpoint triples (l : list Z) : list (Z * Z * Z) :=
  match l with
  | a :: b :: c :: r => (a, b, c) :: triples r
  | _ => []
  end.

(** The point with index [i] of [tri->points]. *)
Definition point_at (tri : dTriangulation) (i : Z) : point :=
  (rd (points tri) (Z.to_nat (2 * i)), rd (points tri) (Z.to_nat (2 * i + 1))).

(** No point of the input lies strictly inside the circumcircle of a
    triangle of the output. *)
Definition empty_circle (tri : dTriangulation) : Prop :=
  forall a b c p, In (a, b, c) (triples (triangles tri)) ->
    (0 <= p < npoints tri)%Z ->
    incircle (point_at tri a) (point_at tri b) (point_at tri c) (point_at tri p) <= 0.

(** Every triangle of the output is counterclockwise. *)
Definition all_ccw (tri : dTriangulation) : Prop :=
  forall a b c, In (a, b, c) (triples (triangles tri)) ->
    0 < orient2d (point_at tri a) (point_at tri b) (point_at tri c).

(** The two properties as checks on an output. *)
Definition empty_circleb (tri : dTriangulation) : bool :=
  forallb (fun t : Z * Z * Z =>
             let '(a, b, c) := t in
             forallb (fun p => Qle_bool (incircle (point_at tri a) (point_at tri b)
                                                  (point_at tri c)
                                                  (point_at tri (Z.of_nat p))) 0)
                     (seq 0 (Z.to_nat (npoints tri))))
          (triples (triangles tri)).

Definition all_ccwb (tri : dTriangulation) : bool :=
  forallb (fun t : Z * Z * Z =>
             let '(a, b, c) := t in
             Qltb 0 (orient2d (point_at tri a) (point_at tri b) (point_at tri c)))
          (triples (triangles tri)).

(** [dtriangulate] returns without a diagnostic and its output passes both
    checks. *)
Definition well_triangulated (fuel : nat) (tri : dTriangulation) : bool :=
  match dtriangulate fuel tri with
  | Done (out, []) => empty_circleb out && all_ccwb out
  | _ => false
  end.

(** The sublists of a list. *)
Fixpoint sublists {A} (l : list A) : list (list A) :=
  match l with
  | [] => [[]]
  | x :: r => sublists r ++ map (cons x) (sublists r)
  end.

(** The points with integer coordinates in [0, w) x [0, h), as a list of
    points, and a list of points as a flat coordinate array. *)
Definition lattice (w h : nat) : list (Z * Z) :=
  flat_map (fun x => map (fun y => (Z.of_nat x, Z.of_nat y)) (seq 0 h)) (seq 0 w).

Definition flatten (ps : list (Z * Z)) : list Q :=
  flat_map (fun p => [inject_Z (fst p); inject_Z (snd p)]) ps.

(** The input is free of duplicates as the pass sees them, so that the pass
    moves nothing: at least [MINPOINTS] points, all inside the point array, no
    two neighbours of the sorted array within [DTEPSILON] of each other. *)
Fixpoint no_adjacent_dup (tri : dTriangulation) (cs : list nat) : bool :=
  match cs with
  | c0 :: (c1 :: _) as rest => negb (duplicate tri c1 c0) && no_adjacent_dup tri rest
  | _ => true
  end.

Definition clean_from (tri : dTriangulation) (v : list vert) : bool :=
  (MINPOINTS <=? npoints tri)%Z
  && (length v =? Z.to_nat (npoints tri))%nat
  && forallb (fun c => match adj c with [] => true | _ => false end
                       && (S (coord c) <? length (points tri))%nat) v
  && no_adjacent_dup tri (map coord v).

Definition clean (tri : dTriangulation) : bool :=
  clean_from tri (sorted_verts tri).

(** The duplicate removal as the specification words it: a sweep over the
    sorted array that keeps an entry unless it is a duplicate of the entry
    kept last, its representative.  The result lists the offsets of the
    entries kept, in order. *)
Fixpoint spec_compact (tri : dTriangulation) (rep : nat) (cs : list nat)
  : list nat :=
  match cs with
  | [] => []
  | c :: cs' =>
      if duplicate tri c rep then spec_compact tri rep cs'
      else c :: spec_compact tri c cs'
  end.

Definition spec_unique_verts (tri : dTriangulation) : list nat :=
  match map coord (sorted_verts tri) with
  | [] => []
  | c :: cs => c :: spec_compact tri c cs
  end.

(** [tri] with [nverts] set. *)
Definition with_nverts (tri : dTriangulation) (nv : Z) : dTriangulation :=
  mkTri (points_ptr tri) (points tri) (npoints tri) nv
        (triangles tri) (ntriangles tri).

(** A [dTriangulation] holding the points [pts] at the address [ptr]; the
    output fields hold [nv], [ts] and [nt] on entry. *)
Definition input (ptr : Z) (pts : list Q) (nv : Z) (ts : list Z) (nt : Z)
  : dTriangulation :=
  mkTri ptr pts (Z.of_nat (length pts) / 2) nv ts nt.

(** The array [v] that [dtriangulate] hands to the core for the points
    [pts], when the pass moves nothing. *)
Definition sorted_input (pts : list Q) : list vert :=
  sorted_verts (input 0 pts 0 [] 0).

(** [cmp] puts every element of [l] before all the later ones, and says so
    whichever way it is asked. *)
Fixpoint strictly_ordered (cmp : vert -> vert -> Z) (l : list vert) : bool :=
  match l with
  | [] => true
  | a :: rest =>
      forallb (fun b => (cmp a b =? -1)%Z && (cmp b a =? 1)%Z) rest
      && strictly_ordered cmp rest
  end.

(** The points (0,0), (1,0), (2,0). *)
Definition collinear_points : list Q := [0; 0; 1; 0; 2; 0].

(** The points (0,0), (0,1), (1,0). *)
Definition corner_points : list Q := [0; 0; 0; 1; 1; 0].

(** The points (0,0), (1,0), (0,1), (1e-15,1e-15) of scenario S4; [1e-15]
    is the [double] [2535301200456459 * 2^-101]. *)
Definition s4_points : list Q :=
  [0; 0; 1; 0; 0; 1; 2535301200456459 # (2 ^ 101); 2535301200456459 # (2 ^ 101)].

(** Five points, three of them on the line x = 0 and one [2^-40] to its
    right: (-1,2^44), (2^-40,0), (0,1), (0,2), (0,2^44). *)
Definition sliver_points : list Q :=
  [-1; inject_Z (2 ^ 44); 1 # (2 ^ 40); 0; 0; 1; 0; 2; 0; inject_Z (2 ^ 44)].

(** (-1,2^44), (2^-40,0), (0,1), (0,2), (1+2^-40,-2^44). *)
Definition fan_points : list Q :=
  [-1; inject_Z (2 ^ 44); 1 # (2 ^ 40); 0; 0; 1; 0; 2;
   1 + (1 # (2 ^ 40)); - inject_Z (2 ^ 44)].

(** ** Properties used in the statements on the store, the core and the
    extractor *)

(** An index the extractor writes names a point stored in the array of [n]
    [dtreal]s. *)
Definition index_ok (n : nat) (i : Z) : Prop :=
  (0 <= i /\ 2 * i + 1 < Z.of_nat n)%Z.

(** A pointer that is null or designates one of [v[lo..hi]]. *)
Definition inside (lo hi : nat) (p : vptr) : Prop :=
  match p with
  | Some i => (lo <= i <= hi)%nat
  | None => True
  end.

(** The store [v] differs from [v0] in the rings of [v[lo..hi]] only, and
    those rings list vertices of [v[lo..hi]] only. *)
Definition local (lo hi : nat) (v0 v : list vert) : Prop :=
  length v = length v0
  /\ (forall c, ~ (lo <= c <= hi)%nat -> vget v c = vget v0 c)
  /\ (forall c d, (lo <= c <= hi)%nat -> adjacent v c d = true -> (lo <= d <= hi)%nat).

(** The array of three vertices with the [coord] offsets [c0], [c1], [c2] and
    the rings [r0], [r1], [r2]. *)
Definition three (c0 c1 c2 : nat) (r0 r1 r2 : list nat) : list vert :=
  [mkVert c0 r0; mkVert c1 r1; mkVert c2 r2].

(** The store the three-point base case leaves of [three c0 c1 c2 [] [] []]:
    the rings in counterclockwise order, and no edge between the vertices 0
    and 2 when the three points are collinear. *)
Definition three_linked (pts : list Q) (c0 c1 c2 : nat) : list vert :=
  three c0 c1 c2
    (if Qltb 0 (orient2d (pt pts (mkVert c0 [])) (pt pts (mkVert c1 []))
                         (pt pts (mkVert c2 [])))
        || Qltb (orient2d (pt pts (mkVert c0 [])) (pt pts (mkVert c1 []))
                          (pt pts (mkVert c2 []))) 0
     then (if Qltb (orient2d (pt pts (mkVert c0 [])) (pt pts (mkVert c1 []))
                             (pt pts (mkVert c2 []))) 0
           then [2; 1] else [1; 2])
     else [1])%nat
    (if Qltb 0 (orient2d (pt pts (mkVert c0 [])) (pt pts (mkVert c1 []))
                         (pt pts (mkVert c2 [])))
     then [2; 0] else [0; 2])%nat
    (if Qltb 0 (orient2d (pt pts (mkVert c0 [])) (pt pts (mkVert c1 []))
                         (pt pts (mkVert c2 [])))
        || Qltb (orient2d (pt pts (mkVert c0 [])) (pt pts (mkVert c1 []))
                          (pt pts (mkVert c2 []))) 0
     then (if Qltb 0 (orient2d (pt pts (mkVert c0 [])) (pt pts (mkVert c1 []))
                               (pt pts (mkVert c2 [])))
           then [0; 1] else [1; 0])
     else [1])%nat.

(** The array [v] for the points (0,0), (0,1), (1,0) as the base case links
    it: a triangle. *)
Definition corner_store : list vert := three_linked corner_points 0 2 4.

(** The input has at least [MINPOINTS] points, all of them inside the point
    array, and no two of them are duplicates of each other as the pass tests
    it. *)
Definition distinct (tri : dTriangulation) : bool :=
  let n := Z.to_nat (npoints tri) in
  (MINPOINTS <=? npoints tri)%Z
  && (2 * n <=? length (points tri))%nat
  && forallb (fun i =>
                forallb (fun j => (i =? j)%nat
                                  || negb (duplicate tri (2 * i) (2 * j)))
                        (seq 0 n))
             (seq 0 n).

(** Two copies of the point (0,0). *)
Definition twin_points : list Q := [0; 0; 0; 0].

(** The points (0,0) and (1,0). *)
Definition pair_points : list Q := [0; 0; 1; 0].

(** Three points of the 3 x 3 lattice. *)
Definition corner_lattice : list (Z * Z) := [(0, 0); (0, 1); (1, 0)]%Z.

End Delaunay.

(** * The grid tessellator ([src/gta_grid.c]) *)

Module Grid.

(** [real] is [float]; an [rvec] is its three components. *)
Definition rvec : Type := (Q * Q * Q)%type.

Definition vx (a : rvec) : Q := fst (fst a).
Definition vy (a : rvec) : Q := snd (fst a).
Definition vz (a : rvec) : Q := snd a.

(** [<float.h>]: the largest finite [float] and the smallest positive
    normalised [float]. *)
Definition FLT_MAX : Q := inject_Z ((2 ^ 24 - 1) * 2 ^ 104).
Definition FLT_MIN : Q := 1 # (2 ^ 126).

(** [<limits.h>], for an [int] of 32 bits. *)
Definition INT_MAX : Z := 2147483647.
Definition INT_MIN : Z := -2147483648.

(** The result of an operation on [int]s: a value outside the range of [int]
    is undefined, the fault [Overflow]. *)
Definition int (z : Z) : outcome Z :=
  if (INT_MIN <=? z)%Z && (z <=? INT_MAX)%Z then Done z else Fault Overflow.

(** The result of an operation on [real]s whose exact result is [q]: [q]
    rounded to [float].  Beyond [FLT_MAX] the machine has an infinity; the
    embedding has none, and that is the fault [Overflow]. *)
Definition real (q : Q) : outcome Q :=
  let r := Float.round 24 (-149) q in
  if Qle_bool (- FLT_MAX) r && Qle_bool r FLT_MAX then Done r
  else Fault Overflow.

(** [a / b] on [real]s.  A division by zero gives an infinity or no number:
    the fault [Overflow]. *)
Definition real_div (a b : Q) : outcome Q :=
  if Qeq_bool b 0 then Fault Overflow else real (a / b).

(** The integer part of [r]: the fractional part is discarded. *)
Definition trunc (r : Q) : Z := (Qnum r ÷ Zpos (Qden r))%Z.

(** The conversion [(int)r].  It is undefined when the integer part of [r]
    is not an [int]. *)
Definition int_of_real (r : Q) : outcome Z := int (trunc r).

(** Modelled from the spec: [struct tessellated_grid] is declared in
    [gta_grid.h], which is not among the files; its fields are those the
    code uses and the data model of the specification lists. *)
Record tessellated_grid : Type := mkGrid {
  weights : list Q;
  heightmap : list Z;
  areas : list Q;
  dimx : Z; dimy : Z; dimz : Z;
  cell_width : Q;
  minx : Q; miny : Q; minz : Q;
  num_empty : Z;
  surface_area : Q;
  area_per_particle : Q
}.

(** [snew(ptr, n)]: a block of [n] zeroed elements. *)
Definition snew {A} (zero : A) (n : Z) : list A := repeat zero (Z.to_nat n).

(** [snew] with a count computed at run time.  [snew] is a macro of the
    GROMACS header [smalloc.h], which is not among the files; for a negative
    count the embedding returns no block. *)
Definition snew_count {A} (zero : A) (n : Z) : outcome (list A) :=
  if (0 <=? n)%Z then Done (snew zero n) else Fault Overflow.

(** ** [construct_grid] *)

(** The six running extrema, in the order
    [minx, miny, minz, maxx, maxy, maxz]. *)
Definition extrema : Type := (Q * Q * Q * Q * Q * Q)%type.

(** The body of the inner loop, for the position [p = x[fr][a]]. *)
Definition scan_atom (e : extrema) (p : rvec) : extrema :=
  let '(mnx, mny, mnz, mxx, mxy, mxz) := e in
  let mnx := if Qltb (vx p) mnx then vx p else mnx in
  let mxx := if Qltb mxx (vx p) then vx p else mxx in
  let mny := if Qltb (vy p) mny then vy p else mny in
  let mxy := if Qltb mxy (vy p) then vy p else mxy in
  let mnz := if Qltb (vz p) mnz then vz p else mnz in
  let mxz := if Qltb mxz (vz p) then vz p else mxz in
  (mnx, mny, mnz, mxx, mxy, mxz).

(** The two loops over [fr < nframes] and [a < natoms]; [x] holds at least
    [nframes] frames of at least [natoms] positions. *)
Definition scan_traj (x : list (list rvec)) (nframes natoms : nat) : extrema :=
  fold_left (fun e frame => fold_left scan_atom (take natoms frame) e)
            (take nframes x)
            (FLT_MAX, FLT_MAX, FLT_MAX, FLT_MIN, FLT_MIN, FLT_MIN).

(** [(int)((max - min)/cell_width) + 2] *)
Definition dim_of (mx mn cell_width : Q) : outcome Z :=
  let* d := real (mx - mn) in
  let* q := real_div d cell_width in
  let* n := int_of_real q in
  int (n + 2).

Definition construct_grid (x : list (list rvec)) (nframes natoms : nat)
  (cell_width : Q) (grid : tessellated_grid) : outcome tessellated_grid :=
  let '(mnx, mny, mnz, mxx, mxy, mxz) := scan_traj x nframes natoms in
  let* dimx := dim_of mxx mnx cell_width in
  let* dimy := dim_of mxy mny cell_width in
  let* dimz := dim_of mxz mnz cell_width in
  let* nxy := int (dimx * dimy) in
  let* nw := int (nxy * dimz) in
  let* ws := snew_count 0 nw in
  let* hm := snew_count 0%Z nxy in
  let* dx1 := int (dimx - 1) in
  let* dy1 := int (dimy - 1) in
  let* na := int (dx1 * dy1) in
  let* ar := snew_count 0 na in
  Done (mkGrid ws hm ar dimx dimy dimz cell_width mnx mny mnz
               (num_empty grid) (surface_area grid) (area_per_particle grid)).

(** ** [tessellate_grid] *)

(** [rvec_sub] and [cprod] of the GROMACS vector header.  The arithmetic of
    [tessellate_grid] is taken exactly: the area of a cell is the function
    [cell_area_of] of its four heights, and the total is the exact sum. *)
Definition rvec_sub (a b : rvec) : rvec := (vx a - vx b, vy a - vy b, vz a - vz b).

Definition cprod (a b : rvec) : rvec :=
  (vy a * vz b - vz a * vy b,
   vz a * vx b - vx a * vz b,
   vx a * vy b - vy a * vx b).

(** A load from and a store into a block; an index outside it is a fault. *)
Definition load {A} (l : list A) (i : Z) : outcome A :=
  if (0 <=? i)%Z then
    match l !! Z.to_nat i with
    | Some a => Done a
    | None => Fault OutOfBounds
    end
  else Fault OutOfBounds.

Definition store {A} (l : list A) (i : Z) (a : A) : outcome (list A) :=
  if (0 <=? i)%Z && (i <? Z.of_nat (length l))%Z
  then Done (<[Z.to_nat i := a]> l)
  else Fault OutOfBounds.

Section WithNorm.

(** [norm] of the GROMACS vector header, the length of a vector as a [real]. *)
Variable norm : rvec -> Q.

(** The area of a cell from its four corner heights. *)
Definition cell_area_of (w : Q) (h0 h1 h2 h3 : Z) : Q :=
  let c0 : rvec := (0, 0, inject_Z h0 * w) in
  let c1 : rvec := (0, w, inject_Z h1 * w) in
  let c2 : rvec := (w, 0, inject_Z h2 * w) in
  let c3 : rvec := (w, w, inject_Z h3 * w) in
  let ab := rvec_sub c1 c0 in
  let ac := rvec_sub c2 c0 in
  let ad := rvec_sub c3 c0 in
  norm (cprod ab ad) / 2 + norm (cprod ad ac) / 2.

(** The state the loops of [tessellate_grid] update: [areas] and [tot_area]. *)
Definition tstate : Type := (list Q * Q)%type.

(** The body of the inner loop for the cell [(x, y)]. *)
Definition tessellate_cell (g : tessellated_grid) (x y : Z) (st : tstate)
  : outcome tstate :=
  let '(ar, tot) := st in
  let hm := heightmap g in
  let dy := dimy g in
  let zero := let* ar' := store ar (x * dy + y)%Z 0 in Done (ar', tot) in
  let* h0 := load hm (x * dy + y)%Z in
  if (h0 <? 0)%Z then zero else
  let* h1 := load hm (x * dy + y + 1)%Z in
  if (h1 <? 0)%Z then zero else
  let* h2 := load hm ((x + 1) * dy + y)%Z in
  if (h2 <? 0)%Z then zero else
  let* h3 := load hm ((x + 1) * dy + y + 1)%Z in
  if (h3 <? 0)%Z then zero else
  let cell_area := cell_area_of (cell_width g) h0 h1 h2 h3 in
  let tot := tot + cell_area in
  let* ar' := store ar (x * (dy - 1) + y)%Z cell_area in
  Done (ar', tot).

(** [for(int y = ...; y < dimy - 1; ++y)], with [n] iterations to go. *)
Fixpoint tessellate_row (g : tessellated_grid) (x : Z) (n : nat) (y : Z)
  (st : tstate) : outcome tstate :=
  match n with
  | O => Done st
  | S n' =>
      let* st' := tessellate_cell g x y st in
      tessellate_row g x n' (y + 1)%Z st'
  end.

(** [for(int x = ...; x < dimx - 1; ++x)], with [n] iterations to go. *)
Fixpoint tessellate_rows (g : tessellated_grid) (n : nat) (x : Z)
  (st : tstate) : outcome tstate :=
  match n with
  | O => Done st
  | S n' =>
      let* st' := tessellate_row g x (Z.to_nat (dimy g - 1)) 0 st in
      tessellate_rows g n' (x + 1)%Z st'
  end.

Definition tessellate_grid (g : tessellated_grid) : outcome tessellated_grid :=
  let* (ar, tot) := tessellate_rows g (Z.to_nat (dimx g - 1)) 0 (areas g, 0) in
  Done (mkGrid (weights g) (heightmap g) ar (dimx g) (dimy g) (dimz g)
               (cell_width g) (minx g) (miny g) (minz g)
               (num_empty g) tot (area_per_particle g)).

End WithNorm.

(** ** Properties and inputs used in the statements below *)

(** The sum of the entries of a [real] array. *)
Definition Qsum (l : list Q) : Q := fold_right Qplus 0 l.

(** The heightmap value of the column [(x, y)]. *)
Definition height (g : tessellated_grid) (x y : Z) : Z :=
  default 0%Z (heightmap g !! Z.to_nat (x * dimy g + y)).

(** One of the four corners of the cell [(x, y)] is an empty column. *)
Definition empty_corner (g : tessellated_grid) (x y : Z) : bool :=
  (height g x y <? 0)%Z || (height g x (y + 1) <? 0)%Z
  || (height g (x + 1) y <? 0)%Z || (height g (x + 1) (y + 1) <? 0)%Z.

(** The areas array is the zeroed block [construct_grid] allocates. *)
Definition fresh_areas (g : tessellated_grid) : Prop :=
  areas g = snew 0 ((dimx g - 1) * (dimy g - 1)).

(** The positions [construct_grid] scans, in the order it scans them. *)
Definition positions (x : list (list rvec)) (nframes natoms : nat) : list rvec :=
  concat (map (take natoms) (take nframes x)).

(** [m] is the least, respectively the greatest, of the values [vals]. *)
Definition lowest (vals : list Q) (m : Q) : Prop :=
  (exists v, In v vals /\ v == m) /\ forall v, In v vals -> m <= v.

Definition highest (vals : list Q) (m : Q) : Prop :=
  (exists v, In v vals /\ v == m) /\ forall v, In v vals -> v <= m.

(** The running minimum and maximum one axis of [scan_atom] keeps. *)
Definition run_min (vals : list Q) (init : Q) : Q :=
  fold_left (fun m v => if Qltb v m then v else m) vals init.

Definition run_max (vals : list Q) (init : Q) : Q :=
  fold_left (fun m v => if Qltb m v then v else m) vals init.

(** The values [vals] of one axis reach from [FLT_MIN] or more down to
    [FLT_MAX] or less: the start values of the scan do not win. *)
Definition in_float_range (vals : list Q) : Prop :=
  (exists v, In v vals /\ v <= FLT_MAX) /\ (exists v, In v vals /\ FLT_MIN <= v).

(** The dimension the specification gives for an axis whose positions range
    over [[mn, mx]]: [floor((mx - mn) / cell_width) + 2]. *)
Definition dim_formula (mn mx w : Q) : Z := (Qfloor ((mx - mn) / w) + 2)%Z.

(** One frame with the two atoms (-3,-3,-3) and (-1,-1,-1). *)
Definition negative_traj : list (list rvec) :=
  [[(-3, -3, -3); (-1, -1, -1)]].

(** A grid whose fields are all zero, to be filled by [construct_grid]. *)
Definition blank_grid : tessellated_grid :=
  mkGrid [] [] [] 0 0 0 0 0 0 0 0 0 0.

(** A grid of 3 x 2 columns and unit cell width as [construct_grid]
    allocates it, with the heightmap
    [[0 0] [0 0] [-1 0]]: the column (2,0) is empty. *)
Definition void_grid : tessellated_grid :=
  mkGrid (snew 0 (3 * 2 * 2)) [0; 0; 0; 0; -1; 0]%Z (snew 0 ((3 - 1) * (2 - 1)))
         3 2 2 1 0 0 0 1 0 0.

(** A grid of 4 x 3 columns whose column (1,0) is empty and whose areas
    array holds the value 7 in every entry on entry. *)
Definition stale_grid : tessellated_grid :=
  mkGrid (snew 0 (4 * 3 * 2)) [0; 0; 0; -1; 0; 0; 0; 0; 0; 0; 0; 0]%Z
         (repeat 7 6) 4 3 2 1 0 0 0 1 0 0.

(** ** [load_grid] *)

(** [<float.h>]: the difference between 1 and the least [float] above 1. *)
Definition FLT_EPSILON : Q := 1 # (2 ^ 23).

(** The two file-scope variables [gta_diag] and [gta_diag2]; [load_grid]
    sets them and the weight functions read them. *)
Record statics : Type := mkStatics { gta_diag : Q; gta_diag2 : Q }.

(** [(int)((x - min)/cell_width)]: the index, along one axis, of the cell
    that holds the coordinate [x]. *)
Definition cell_of (x mn cell_width : Q) : outcome Z :=
  let* d := real (x - mn) in
  let* q := real_div d cell_width in
  int_of_real q.

(** [min + i * cell_width]; the [int] [i] is converted to [real] for the
    product. *)
Definition grid_coord (mn : Q) (i : Z) (cell_width : Q) : outcome Q :=
  let* fi := real (inject_Z i) in
  let* t := real (fi * cell_width) in
  real (mn + t).

(** The index [(xi+ox)*dimyz + (yi+oy)*dimz + zi+oz] of a grid point, in
    [int] arithmetic.  In the source [ox], [oy], [oz] are 0 or 1, and for 0
    the sum is not written: on an [int] the check of [+ 0] is void. *)
Definition weight_index (dimyz dz xi yi zi ox oy oz : Z) : outcome Z :=
  let* x' := int (xi + ox) in
  let* y' := int (yi + oy) in
  let* a := int (x' * dimyz) in
  let* b := int (y' * dz) in
  let* c := int (a + b) in
  let* d := int (c + zi) in
  int (d + oz).

(** [weights[i] += fweight(x[fr][a], grid_point)].  The weight function
    returns a [real]; [None] stands for a value that is not finite. *)
Definition add_weight (fweight : rvec -> rvec -> option Q) (ws : list Q)
  (i : Z) (p grid_point : rvec) : outcome (list Q) :=
  let* old := load ws i in
  match fweight p grid_point with
  | Some wv => let* sum := real (old + wv) in store ws i sum
  | None => Fault Overflow
  end.

(** The body of the inner loop of [load_grid] for the position
    [p = x[fr][a]]; [grid_point] is updated in place as the source does. *)
Definition load_atom (fweight : rvec -> rvec -> option Q) (g : tessellated_grid)
  (dimyz : Z) (ws : list Q) (p : rvec) : outcome (list Q) :=
  let dz := dimz g in
  let w := cell_width g in
  let* xi := cell_of (vx p) (minx g) w in
  let* yi := cell_of (vy p) (miny g) w in
  let* zi := cell_of (vz p) (minz g) w in
  let* gx := grid_coord (minx g) xi w in
  let* gy := grid_coord (miny g) yi w in
  let* gz := grid_coord (minz g) zi w in
  let* i := weight_index dimyz dz xi yi zi 0 0 0 in
  let* ws := add_weight fweight ws i p (gx, gy, gz) in
  let* gz := real (gz + w) in
  let* i := weight_index dimyz dz xi yi zi 0 0 1 in
  let* ws := add_weight fweight ws i p (gx, gy, gz) in
  let* gy := real (gy + w) in
  let* gz := real (gz - w) in
  let* i := weight_index dimyz dz xi yi zi 0 1 0 in
  let* ws := add_weight fweight ws i p (gx, gy, gz) in
  let* gz := real (gz + w) in
  let* i := weight_index dimyz dz xi yi zi 0 1 1 in
  let* ws := add_weight fweight ws i p (gx, gy, gz) in
  let* gx := real (gx + w) in
  let* gy := real (gy - w) in
  let* gz := real (gz - w) in
  let* i := weight_index dimyz dz xi yi zi 1 0 0 in
  let* ws := add_weight fweight ws i p (gx, gy, gz) in
  let* gz := real (gz + w) in
  let* i := weight_index dimyz dz xi yi zi 1 0 1 in
  let* ws := add_weight fweight ws i p (gx, gy, gz) in
  let* gy := real (gy + w) in
  let* gz := real (gz - w) in
  let* i := weight_index dimyz dz xi yi zi 1 1 0 in
  let* ws := add_weight fweight ws i p (gx, gy, gz) in
  let* gz := real (gz + w) in
  let* i := weight_index dimyz dz xi yi zi 1 1 1 in
  add_weight fweight ws i p (gx, gy, gz).

(** The loop over the atoms [ps] of one frame, and the loop over the frames. *)
Fixpoint load_atoms (fweight : rvec -> rvec -> option Q) (g : tessellated_grid)
  (dimyz : Z) (ws : list Q) (ps : list rvec) : outcome (list Q) :=
  match ps with
  | [] => Done ws
  | p :: ps' =>
      let* ws' := load_atom fweight g dimyz ws p in
      load_atoms fweight g dimyz ws' ps'
  end.

Fixpoint load_frames (fweight : rvec -> rvec -> option Q) (g : tessellated_grid)
  (dimyz : Z) (natoms : nat) (ws : list Q) (frames : list (list rvec))
  : outcome (list Q) :=
  match frames with
  | [] => Done ws
  | frame :: frames' =>
      let* ws' := load_atoms fweight g dimyz ws (take natoms frame) in
      load_frames fweight g dimyz natoms ws' frames'
  end.

(** [g] with its weights replaced. *)
Definition with_weights (g : tessellated_grid) (ws : list Q) : tessellated_grid :=
  mkGrid ws (heightmap g) (areas g) (dimx g) (dimy g) (dimz g)
         (cell_width g) (minx g) (miny g) (minz g)
         (num_empty g) (surface_area g) (area_per_particle g).

Section WithSqrt.

(** [sqrt] of the C library, on [double]s. *)
Variable sqrt : Q -> Q.

(** [load_grid]; [fweight] is the function the pointer designates, which reads
    the two file-scope variables.  The result carries the grid and the
    variables as the call leaves them.  [3 * cell_width * cell_width] is two
    products of [real]s; the [double] that [sqrt] returns is converted to
    [real]. *)
Definition load_grid (fweight : statics -> rvec -> rvec -> option Q)
  (x : list (list rvec)) (nframes natoms : nat) (g : tessellated_grid)
  : outcome (tessellated_grid * statics) :=
  let* dimyz := int (dimy g * dimz g) in
  let* t := real (3 * cell_width g) in
  let* diag2 := real (t * cell_width g) in
  let* diag := real (sqrt diag2) in
  let st := mkStatics diag diag2 in
  let* ws := load_frames (fweight st) g dimyz natoms (weights g) (take nframes x) in
  Done (with_weights g ws, st).

End WithSqrt.

(** ** [gen_heightmap] *)

(** The loop over [z] for one column: [base] is [x*dimyz + y*dimz], [n] the
    iterations to go. *)
Fixpoint column_max (ws : list Q) (base : Z) (n : nat) (z : Z)
  (maxz : Z) (max_weight : Q) : outcome Z :=
  match n with
  | O => Done maxz
  | S n' =>
      let* w := load ws (base + z)%Z in
      if Qltb max_weight w then column_max ws base n' (z + 1)%Z z w
      else column_max ws base n' (z + 1)%Z maxz max_weight
  end.

(** The state the loops of [gen_heightmap] update: [heightmap] and
    [num_empty]. *)
Definition hstate : Type := (list Z * Z)%type.

(** The body of the loop over [y] for the column [(x, y)]. *)
Definition heightmap_column (g : tessellated_grid) (x y : Z) (st : hstate)
  : outcome hstate :=
  let '(hm, ne) := st in
  let dimyz := (dimy g * dimz g)%Z in
  let* maxz := column_max (weights g) (x * dimyz + y * dimz g)%Z
                 (Z.to_nat (dimz g)) 0 (-1) (2 * FLT_EPSILON) in
  let* hm' := store hm (x * dimy g + y)%Z maxz in
  Done (hm', (ne + (if (maxz <? 0)%Z then 1 else 0))%Z).

Fixpoint heightmap_row (g : tessellated_grid) (x : Z) (n : nat) (y : Z)
  (st : hstate) : outcome hstate :=
  match n with
  | O => Done st
  | S n' =>
      let* st' := heightmap_column g x y st in
      heightmap_row g x n' (y + 1)%Z st'
  end.

Fixpoint heightmap_rows (g : tessellated_grid) (n : nat) (x : Z)
  (st : hstate) : outcome hstate :=
  match n with
  | O => Done st
  | S n' =>
      let* st' := heightmap_row g x (Z.to_nat (dimy g)) 0 st in
      heightmap_rows g n' (x + 1)%Z st'
  end.

Definition gen_heightmap (g : tessellated_grid) : outcome tessellated_grid :=
  let* (hm, ne) := heightmap_rows g (Z.to_nat (dimx g)) 0 (heightmap g, 0%Z) in
  Done (mkGrid (weights g) hm (areas g) (dimx g) (dimy g) (dimz g)
               (cell_width g) (minx g) (miny g) (minz g)
               ne (surface_area g) (area_per_particle g)).

(** ** [f_gta_grid_area] *)

Section Pipeline.

Variable sqrt : Q -> Q.
Variable norm : rvec -> Q.

(** The four stages in a row, and the quotient [surface_area / natoms], for
    which the [int] [natoms] is converted to [real]. *)
Definition f_gta_grid_area (x : list (list rvec)) (nframes natoms : nat)
  (width : Q) (fweight : statics -> rvec -> rvec -> option Q)
  (grid : tessellated_grid) : outcome (tessellated_grid * statics) :=
  let* g := construct_grid x nframes natoms width grid in
  let* (g, st) := load_grid sqrt fweight x nframes natoms g in
  let* g := gen_heightmap g in
  let* g := tessellate_grid norm g in
  let* n := real (inject_Z (Z.of_nat natoms)) in
  let* app := real_div (surface_area g) n in
  Done (mkGrid (weights g) (heightmap g) (areas g) (dimx g) (dimy g) (dimz g)
               (cell_width g) (minx g) (miny g) (minz g) (num_empty g)
               (surface_area g) app, st).

End Pipeline.

(** The weight of the grid point [(x, y, z)]. *)
Definition weight_at (g : tessellated_grid) (x y z : Z) : Q :=
  default 0 (weights g !! Z.to_nat (x * (dimy g * dimz g) + y * dimz g + z)).

(** The three arrays have the sizes [construct_grid] gives them. *)
Definition well_sized (g : tessellated_grid) : Prop :=
  (0 <= dimx g)%Z /\ (0 <= dimy g)%Z /\ (0 <= dimz g)%Z
  /\ Z.of_nat (length (weights g)) = (dimx g * dimy g * dimz g)%Z
  /\ Z.of_nat (length (heightmap g)) = (dimx g * dimy g)%Z.

(** What [gen_heightmap] stores for the column [(x, y)]: [-1] when no weight
    of the column exceeds [2 * FLT_EPSILON], else the lowest [z] that holds
    the greatest weight of the column. *)
Definition column_height (g : tessellated_grid) (x y h : Z) : Prop :=
  (h = (-1)%Z
   /\ forall z, (0 <= z < dimz g)%Z -> weight_at g x y z <= 2 * FLT_EPSILON)
  \/ ((0 <= h < dimz g)%Z
      /\ 2 * FLT_EPSILON < weight_at g x y h
      /\ (forall z, (0 <= z < dimz g)%Z -> weight_at g x y z <= weight_at g x y h)
      /\ (forall z, (0 <= z < h)%Z -> weight_at g x y z < weight_at g x y h)).

(** The area [tessellate_grid] computes for the cell [(x, y)]. *)
Definition cell_area_at (norm : rvec -> Q) (g : tessellated_grid) (x y : Z) : Q :=
  cell_area_of norm (cell_width g) (height g x y) (height g x (y + 1))
               (height g (x + 1) y) (height g (x + 1) (y + 1)).

(** No column of the grid is empty, and the heightmap and the areas array
    have the sizes [construct_grid] gives them. *)
Definition no_empty_column (g : tessellated_grid) : Prop :=
  (1 <= dimx g)%Z /\ (1 <= dimy g)%Z
  /\ Z.of_nat (length (heightmap g)) = (dimx g * dimy g)%Z
  /\ Z.of_nat (length (areas g)) = ((dimx g - 1) * (dimy g - 1))%Z
  /\ forall x y, (0 <= x < dimx g)%Z -> (0 <= y < dimy g)%Z -> (0 <= height g x y)%Z.

(** A heightmap entry that marks an empty column. *)
Definition negative (h : Z) : bool := (h <? 0)%Z.

(** The state of [gen_heightmap] after the columns with index below [k] have
    been visited. *)
Definition hvisited (g : tessellated_grid) (k : Z) (st : hstate) : Prop :=
  let '(hm, ne) := st in
  length hm = length (heightmap g)
  /\ (forall x y, (0 <= x)%Z -> (0 <= y < dimy g)%Z -> (x * dimy g + y < k)%Z ->
        column_height g x y (default 0%Z (hm !! Z.to_nat (x * dimy g + y))))
  /\ ne = Z.of_nat (length (List.filter negative (take (Z.to_nat k) hm))).

(** The state of [tessellate_grid] after the cells with index below [k] have
    been visited, on a grid without empty columns. *)
Definition filled (norm : rvec -> Q) (g : tessellated_grid) (k : Z) (st : tstate)
  : Prop :=
  let '(ar, tot) := st in
  length ar = length (areas g)
  /\ (forall x y, (0 <= x)%Z -> (0 <= y < dimy g - 1)%Z ->
        (x * (dimy g - 1) + y < k)%Z ->
        ar !! Z.to_nat (x * (dimy g - 1) + y) = Some (cell_area_at norm g x y))
  /\ tot == Qsum (take (Z.to_nat k) ar).

(** A run that does not end in an access outside a block, and whose
    result, when it returns, satisfies [P]. *)
Definition safe {A} (P : A -> Prop) (m : outcome A) : Prop :=
  match m with
  | Done a => P a
  | Fault f => f <> OutOfBounds
  end.

(** [norm2] of the GROMACS vector header, the squared length of a vector;
    the examples below take it where a function for [norm] is needed. *)
Definition norm2 (a : rvec) : Q := vx a * vx a + vy a * vy a + vz a * vz a.

(** One frame with one atom, at the origin. *)
Definition single_traj : list (list rvec) := [[(0, 0, 0)]].

(** A grid of 2 x 2 x 2 grid points and one cell for it, with cell width 1:
    the weight of a grid point is 3 less the square of its distance from
    the atom, and the heightmap is the one [gen_heightmap] derives. *)
Definition single_grid : tessellated_grid :=
  mkGrid [3; 2; 2; 1; 2; 1; 1; 0] [0; 0; 0; 0]%Z [0] 2 2 2 1 0 0 0 0 0 0.

(** The grid [stale_grid] with the zeroed areas array of [construct_grid]. *)
Definition holed_grid : tessellated_grid :=
  mkGrid (snew 0 (4 * 3 * 2)) [0; 0; 0; -1; 0; 0; 0; 0; 0; 0; 0; 0]%Z
         (snew 0 ((4 - 1) * (3 - 1))) 4 3 2 1 0 0 0 1 0 0.

(** One frame with the two atoms (1,1,1) and (3,3,3). *)
Definition positive_traj : list (list rvec) :=
  [[(1, 1, 1); (3, 3, 3)]].

End Grid.

(** * Facts about the rounding *)

Module FloatFacts.

Import Float.

Lemma pow2_pos (e : Z) : 0 < pow2 e.
Proof. apply Qpower_0_lt. reflexivity. Qed.

Lemma pow2_add (a b : Z) : pow2 (a + b) == pow2 a * pow2 b.
Proof. apply Qpower_plus. discriminate. Qed.

Lemma pow2_succ (a : Z) : pow2 (a + 1) == 2 * pow2 a.
Proof. rewrite pow2_add. unfold pow2 at 2. rewrite Qpower_1_r. ring. Qed.

Lemma pow2_le (a b : Z) : (a <= b)%Z -> pow2 a <= pow2 b.
Proof. intros H. apply Qpower_le_compat_l; [exact H|discriminate]. Qed.

Lemma pow2_lt (a b : Z) : (a < b)%Z -> pow2 a < pow2 b.
Proof. intros H. apply Qpower_lt_compat_l; [exact H|reflexivity]. Qed.

Lemma pow2_lt_inv (a b : Z) : pow2 a < pow2 b -> (a < b)%Z.
Proof. intros H. apply (Qpower_lt_compat_l_inv 2); [exact H|reflexivity]. Qed.

Lemma pow2_Z (a : Z) : (0 <= a)%Z -> pow2 a == inject_Z (2 ^ a).
Proof. intros H. unfold pow2. rewrite Zpower_Qpower by exact H. reflexivity. Qed.

Lemma log2_Q (n : Z) :
  (0 < n)%Z -> pow2 (Z.log2 n) <= inject_Z n /\ inject_Z n < pow2 (Z.log2 n + 1).
Proof.
  intros Hn. destruct (Z.log2_spec n Hn) as [H1 H2].
  pose proof (Z.log2_nonneg n) as H0.
  rewrite !pow2_Z by lia. rewrite <- Zle_Qle, <- Zlt_Qlt.
  replace (Z.log2 n + 1)%Z with (Z.succ (Z.log2 n)) by lia. split; assumption.
Qed.

Lemma ratio_bounds (q D N pa pb pl : Q) :
  q * D == N -> 0 < pb -> 0 < pl -> pl * pb == pa ->
  pa <= N -> N < 2 * pa -> pb <= D -> D < 2 * pb ->
  pl <= 2 * q /\ q < 2 * pl.
Proof.
  intros Eq Pb Pl El Ha1 Ha2 Hb1 Hb2. split.
  - apply Qnot_lt_le. intros C.
    assert (H1 : 0 < (pl - 2 * q) * D) by (apply Qmult_lt_0_compat; lra).
    assert (H2 : 0 <= pl * (2 * pb - D)) by (apply Qmult_le_0_compat; lra).
    lra.
  - apply Qnot_le_lt. intros C.
    assert (H1 : 0 <= (q - 2 * pl) * D) by (apply Qmult_le_0_compat; lra).
    assert (H2 : 0 <= pl * (D - pb)) by (apply Qmult_le_0_compat; lra).
    lra.
Qed.

Lemma ilog2_spec (q : Q) :
  0 < q -> pow2 (ilog2 q) <= q /\ q < pow2 (ilog2 q + 1).
Proof.
  intros Hq. destruct q as [n d]. unfold ilog2. cbn [Qnum Qden].
  assert (Hn : (0 < n)%Z).
  { unfold Qlt in Hq. cbn in Hq. lia. }
  destruct (log2_Q n Hn) as [Ha1 Ha2].
  destruct (log2_Q (Zpos d) eq_refl) as [Hb1 Hb2].
  set (a := Z.log2 n) in *. set (b := Z.log2 (Zpos d)) in *.
  assert (Eq : (n # d) * inject_Z (Zpos d) == inject_Z n).
  { unfold Qeq, Qmult, inject_Z. cbn. lia. }
  assert (El : pow2 (a - b) * pow2 b == pow2 a).
  { rewrite <- pow2_add. replace (a - b + b)%Z with a by lia. reflexivity. }
  rewrite pow2_succ in Ha2, Hb2.
  destruct (ratio_bounds _ _ _ _ _ _ Eq (pow2_pos b) (pow2_pos (a - b)) El
              Ha1 Ha2 Hb1 Hb2) as [B1 B2].
  destruct (Qle_bool (pow2 (a - b)) (n # d)) eqn:E.
  - apply Qle_bool_iff in E. split; [exact E|]. rewrite pow2_succ. exact B2.
  - assert (E' : n # d < pow2 (a - b)).
    { apply Qnot_le_lt. intros H. apply Qle_bool_iff in H. congruence. }
    replace (a - b - 1 + 1)%Z with (a - b)%Z by lia.
    split; [|exact E'].
    pose proof (pow2_succ (a - b - 1)) as S.
    replace (a - b - 1 + 1)%Z with (a - b)%Z in S by lia. lra.
Qed.

Lemma ilog2_unique (q : Q) (l : Z) :
  pow2 l <= q -> q < pow2 (l + 1) -> ilog2 q = l.
Proof.
  intros H1 H2.
  assert (Hq : 0 < q) by (pose proof (pow2_pos l); lra).
  destruct (ilog2_spec q Hq) as [S1 S2].
  assert (A : (l < ilog2 q + 1)%Z) by (apply pow2_lt_inv; lra).
  assert (B : (ilog2 q < l + 1)%Z) by (apply pow2_lt_inv; lra).
  lia.
Qed.

Lemma ilog2_compat (q1 q2 : Q) : q1 == q2 -> 0 < q1 -> ilog2 q1 = ilog2 q2.
Proof.
  intros E H. destruct (ilog2_spec q1 H) as [S1 S2].
  symmetry. apply ilog2_unique; lra.
Qed.

Lemma ilog2_mono (q1 q2 : Q) : 0 < q1 -> q1 <= q2 -> (ilog2 q1 <= ilog2 q2)%Z.
Proof.
  intros H1 H2. destruct (ilog2_spec q1 H1) as [A1 A2].
  destruct (ilog2_spec q2) as [B1 B2]; [lra|].
  assert (A : (ilog2 q1 < ilog2 q2 + 1)%Z) by (apply pow2_lt_inv; lra).
  lia.
Qed.

(** ** Nearest integer *)

Lemma rne_compat (q1 q2 : Q) : q1 == q2 -> rne q1 = rne q2.
Proof.
  intros E. unfold rne. rewrite (Qfloor_comp _ _ E).
  assert (E' : q1 - inject_Z (Qfloor q2) == q2 - inject_Z (Qfloor q2))
    by (rewrite E; reflexivity).
  rewrite (Qcompare_comp _ _ E' _ _ (Qeq_refl (1 # 2))). reflexivity.
Qed.

Lemma rne_floor (q : Q) : rne q = Qfloor q \/ rne q = (Qfloor q + 1)%Z.
Proof.
  unfold rne. destruct (Qcompare _ _); [destruct (Z.even _)|..]; auto.
Qed.

Lemma floor_bounds (q : Q) :
  inject_Z (Qfloor q) <= q /\ q < inject_Z (Qfloor q) + 1.
Proof.
  split; [apply Qfloor_le|].
  pose proof (Qlt_floor q) as H. rewrite inject_Z_plus in H. exact H.
Qed.

Lemma rne_mono (q1 q2 : Q) : q1 <= q2 -> (rne q1 <= rne q2)%Z.
Proof.
  intros H. pose proof (Qfloor_resp_le _ _ H) as Hf.
  destruct (Z.eq_dec (Qfloor q1) (Qfloor q2)) as [E|N].
  - unfold rne. rewrite E.
    destruct (Qcompare (q1 - inject_Z (Qfloor q2)) (1 # 2)) eqn:C1;
      destruct (Qcompare (q2 - inject_Z (Qfloor q2)) (1 # 2)) eqn:C2;
      try (destruct (Z.even (Qfloor q2))); try lia;
      repeat match goal with
             | H : Qcompare _ _ = Eq |- _ => apply Qeq_alt in H
             | H : Qcompare _ _ = Lt |- _ => apply Qlt_alt in H
             | H : Qcompare _ _ = Gt |- _ => apply Qgt_alt in H
             end; lra.
  - destruct (rne_floor q1) as [-> | ->], (rne_floor q2) as [-> | ->]; lia.
Qed.

Lemma rne_Z (z : Z) : rne (inject_Z z) = z.
Proof.
  unfold rne. rewrite Qfloor_Z.
  assert (E : inject_Z z - inject_Z z == 0) by ring.
  rewrite (Qcompare_comp _ _ E _ _ (Qeq_refl (1 # 2))). reflexivity.
Qed.

(** ** Rounding *)

Section Round.

Variables prec emin : Z.
Hypothesis prec_pos : (1 <= prec)%Z.

Lemma round_pos_compat (a1 a2 : Q) :
  a1 == a2 -> 0 < a1 -> round_pos prec emin a1 == round_pos prec emin a2.
Proof.
  intros E H. unfold round_pos. rewrite (ilog2_compat _ _ E H).
  set (e := Z.max _ _).
  assert (E' : a1 / pow2 e == a2 / pow2 e) by (rewrite E; reflexivity).
  rewrite (rne_compat _ _ E'). reflexivity.
Qed.

Lemma round_pos_nonneg (a : Q) : 0 < a -> 0 <= round_pos prec emin a.
Proof.
  intros H. unfold round_pos. set (e := Z.max _ _).
  apply Qmult_le_0_compat; [|apply Qlt_le_weak, pow2_pos].
  assert (Hs : inject_Z 0 <= a / pow2 e).
  { apply Qmult_le_0_compat; [lra|].
    apply Qlt_le_weak, Qinv_lt_0_compat, pow2_pos. }
  apply rne_mono in Hs. rewrite rne_Z in Hs.
  change 0 with (inject_Z 0). rewrite <- Zle_Qle. exact Hs.
Qed.

Lemma round_pos_mono (a1 a2 : Q) :
  0 < a1 -> a1 <= a2 -> round_pos prec emin a1 <= round_pos prec emin a2.
Proof.
  intros H1 H2. assert (H2' : 0 < a2) by lra.
  pose proof (ilog2_mono _ _ H1 H2) as Hl.
  destruct (ilog2_spec a1 H1) as [A1 A2]. destruct (ilog2_spec a2 H2') as [B1 B2].
  unfold round_pos.
  set (e1 := Z.max (ilog2 a1 - (prec - 1)) emin).
  set (e2 := Z.max (ilog2 a2 - (prec - 1)) emin).
  assert (He : (e1 <= e2)%Z) by lia.
  destruct (Z.eq_dec e1 e2) as [E|N].
  - rewrite E. apply Qmult_le_compat_r; [|apply Qlt_le_weak, pow2_pos].
    rewrite <- Zle_Qle. apply rne_mono.
    apply Qmult_le_compat_r; [exact H2|].
    apply Qlt_le_weak, Qinv_lt_0_compat, pow2_pos.
  - assert (E2 : e2 = (ilog2 a2 - (prec - 1))%Z) by lia.
    assert (U : inject_Z (rne (a1 / pow2 e1)) <= pow2 prec).
    { pose proof (pow2_Z prec ltac:(lia)) as EP. rewrite EP.
      rewrite <- Zle_Qle. rewrite <- (rne_Z (2 ^ prec)). apply rne_mono.
      rewrite <- EP.
      apply Qle_shift_div_r; [apply pow2_pos|].
      rewrite <- pow2_add.
      apply Qlt_le_weak. eapply Qlt_le_trans; [exact A2|].
      apply pow2_le. lia. }
    assert (L : pow2 (prec - 1) <= inject_Z (rne (a2 / pow2 e2))).
    { pose proof (pow2_Z (prec - 1) ltac:(lia)) as EP. rewrite EP.
      rewrite <- Zle_Qle. rewrite <- (rne_Z (2 ^ (prec - 1))) at 1. apply rne_mono.
      rewrite <- EP.
      apply Qle_shift_div_l; [apply pow2_pos|].
      rewrite <- pow2_add.
      replace (prec - 1 + e2)%Z with (ilog2 a2) by lia. exact B1. }
    apply Qle_trans with (pow2 prec * pow2 e1).
    { apply Qmult_le_compat_r; [exact U|apply Qlt_le_weak, pow2_pos]. }
    apply Qle_trans with (pow2 (prec - 1) * pow2 e2).
    { rewrite <- !pow2_add. apply pow2_le. lia. }
    apply Qmult_le_compat_r; [exact L|apply Qlt_le_weak, pow2_pos].
Qed.

Lemma Qnum_pos (n d : positive) : 0 < Zpos n # d.
Proof. reflexivity. Qed.

Lemma round_compat (q1 q2 : Q) :
  q1 == q2 -> round prec emin q1 == round prec emin q2.
Proof.
  intros E. destruct q1 as [n1 d1], q2 as [n2 d2]. unfold round. cbn [Qnum Qden].
  destruct n1 as [|n1|n1], n2 as [|n2|n2];
    try (exfalso; unfold Qeq in E; cbn in E; lia); try reflexivity.
  - apply round_pos_compat; [exact E|reflexivity].
  - assert (E' : Zpos n1 # d1 == Zpos n2 # d2).
    { unfold Qeq in *. cbn in *. lia. }
    rewrite (round_pos_compat _ _ E' eq_refl). reflexivity.
Qed.

Lemma round_opp (q : Q) : round prec emin (- q) == - round prec emin q.
Proof.
  destruct q as [[|n|n] d]; unfold round, Qopp; cbn [Qnum Qden Z.opp].
  - reflexivity.
  - reflexivity.
  - symmetry. apply Qopp_involutive.
Qed.

Lemma round_nonneg (q : Q) : 0 <= q -> 0 <= round prec emin q.
Proof.
  intros H. destruct q as [[|n|n] d]; unfold round; cbn [Qnum Qden].
  - apply Qle_refl.
  - apply round_pos_nonneg. reflexivity.
  - exfalso. unfold Qle in H. cbn in H. lia.
Qed.

Lemma round_nonpos (q : Q) : q <= 0 -> round prec emin q <= 0.
Proof.
  intros H. assert (H' : 0 <= - q) by lra.
  apply round_nonneg in H'. rewrite round_opp in H'. lra.
Qed.

Lemma round_mono (q1 q2 : Q) :
  q1 <= q2 -> round prec emin q1 <= round prec emin q2.
Proof.
  intros H. destruct (Qlt_le_dec 0 q1) as [P1|N1].
  - destruct q1 as [[|n1|n1] d1], q2 as [[|n2|n2] d2];
      try (exfalso; unfold Qle, Qlt in *; cbn in *; lia).
    unfold round. cbn [Qnum Qden]. apply round_pos_mono; [reflexivity|exact H].
  - destruct (Qlt_le_dec 0 q2) as [P2|N2].
    + apply Qle_trans with 0; [apply round_nonpos; exact N1|].
      apply round_nonneg. lra.
    + destruct (Qeq_dec q2 0) as [Z2|NZ2].
      * rewrite (round_compat _ _ Z2). apply round_nonpos. exact N1.
      * assert (H' : - q2 <= - q1) by lra.
        assert (P : 0 < - q2).
        { destruct (Qlt_le_dec 0 (- q2)) as [|C]; [assumption|].
          exfalso. apply NZ2. lra. }
        assert (M : round prec emin (- q2) <= round prec emin (- q1)).
        { destruct q1 as [[|n1|n1] d1], q2 as [[|n2|n2] d2];
            try (exfalso; unfold Qle, Qlt in *; cbn in *; lia).
          unfold round. cbn [Qnum Qden Qopp Z.opp].
          apply round_pos_mono; [reflexivity|exact H']. }
        rewrite !round_opp in M. lra.
Qed.

End Round.

End FloatFacts.

(** * Facts about the triangulator *)

Module DelaunayFacts.

Import Delaunay.

Lemma Qltb_ge0 (a : Q) : a <= 0 -> Qltb 0 a = false.
Proof.
  intros H. unfold Qltb. apply negb_false_iff. apply Qle_bool_iff. exact H.
Qed.

Lemma empty_circleb_true (tri : dTriangulation) :
  empty_circleb tri = true <->
  (forall a b c p, In (a, b, c) (triples (triangles tri)) ->
     In p (seq 0 (Z.to_nat (npoints tri))) ->
     incircle (point_at tri a) (point_at tri b) (point_at tri c)
              (point_at tri (Z.of_nat p)) <= 0).
Proof.
  unfold empty_circleb. rewrite forallb_forall. split.
  - intros H a b c p Ht Hp. specialize (H (a, b, c) Ht). cbn in H.
    rewrite forallb_forall in H. apply Qle_bool_iff. now apply H.
  - intros H [[a b] c] Ht. apply forallb_forall. intros p Hp.
    apply Qle_bool_iff. now apply H.
Qed.

(** The check [empty_circleb] decides the property [empty_circle]. *)
Lemma empty_circleb_spec (tri : dTriangulation) :
  empty_circleb tri = true <-> empty_circle tri.
Proof.
  rewrite empty_circleb_true. unfold empty_circle. split.
  - intros H a b c p Ht Hp.
    replace p with (Z.of_nat (Z.to_nat p)) by lia.
    apply H; [exact Ht|]. apply in_seq. lia.
  - intros H a b c p Ht Hp. apply H; [exact Ht|]. apply in_seq in Hp. lia.
Qed.

(** The check [all_ccwb] decides the property [all_ccw]. *)
Lemma all_ccwb_spec (tri : dTriangulation) :
  all_ccwb tri = true <-> all_ccw tri.
Proof.
  unfold all_ccwb, all_ccw. rewrite forallb_forall. split.
  - intros H a b c Ht. specialize (H (a, b, c) Ht). cbn in H.
    unfold Qltb in H. apply negb_true_iff in H.
    apply Qnot_le_lt. intros Hle. apply Qle_bool_iff in Hle. congruence.
  - intros H [[a b] c] Ht. specialize (H a b c Ht).
    unfold Qltb. apply negb_true_iff. apply not_true_is_false.
    intros Hle. apply Qle_bool_iff in Hle. exact (Qlt_not_le _ _ H Hle).
Qed.

Lemma offset_of_addr_of (tri : dTriangulation) (k : nat) :
  (S k < length (points tri))%nat -> offset_of tri (Some (addr_of tri k)) = Done k.
Proof.
  intros Hk. unfold offset_of, addr_of, Layout.sizeof_dtreal.
  replace (points_ptr tri + 8 * Z.of_nat k - points_ptr tri)%Z
    with (Z.of_nat k * 8)%Z by lia.
  rewrite Z.mod_mul by lia. rewrite Z.div_mul by lia.
  replace (0 <=? Z.of_nat k * 8)%Z with true by (symmetry; apply Z.leb_le; lia).
  replace (Z.of_nat k + 1 <? Z.of_nat (length (points tri)))%Z with true
    by (symmetry; apply Z.ltb_lt; lia).
  simpl. now rewrite Nat2Z.id.
Qed.

Lemma dedup_loop_clean (tri : dTriangulation) (fuel : nat) :
  forall (cs : list nat) (i : nat),
    Forall (fun c => S c < length (points tri))%nat cs ->
    (1 <= i)%nat ->
    no_adjacent_dup tri (drop (i - 1) cs) = true ->
    (length cs - i < fuel)%nat ->
    dedup_loop tri fuel (map (fun c => Some (addr_of tri c)) cs) i
               (Z.of_nat (length cs))
    = Done (map (fun c => Some (addr_of tri c)) cs, Z.of_nat (length cs)).
Proof.
  induction fuel as [|fuel IH]; intros cs i Hval Hi Hnd Hfuel; [lia|].
  cbn [dedup_loop].
  destruct (Z.ltb_spec (Z.of_nat i) (Z.of_nat (length cs))) as [Hlt|Hge]; [|reflexivity].
  assert (Hi' : (i < length cs)%nat) by lia.
  destruct (lookup_lt_is_Some_2 cs i Hi') as [ci Hci].
  destruct (lookup_lt_is_Some_2 cs (i - 1)) as [cj Hcj]; [lia|].
  rewrite !list_lookup_fmap, Hci, Hcj.
  change (default None ((fun c => Some (addr_of tri c)) <$> Some ci))
    with (Some (addr_of tri ci)).
  change (default None ((fun c => Some (addr_of tri c)) <$> Some cj))
    with (Some (addr_of tri cj)).
  rewrite !offset_of_addr_of
    by (eapply (proj1 (Forall_lookup _ _) Hval); eassumption).
  cbn [bind].
  rewrite (drop_S _ _ _ Hcj) in Hnd.
  replace (S (i - 1)) with i in Hnd by lia.
  rewrite (drop_S _ _ _ Hci) in Hnd.
  cbn [no_adjacent_dup] in Hnd.
  apply andb_true_iff in Hnd as [Hdup Hnd].
  apply negb_true_iff in Hdup. rewrite Hdup.
  apply IH; try assumption; try lia.
  replace (S i - 1)%nat with i by lia.
  now rewrite (drop_S _ _ _ Hci).
Qed.

Lemma read_verts_clean (tri : dTriangulation) :
  forall (v : list vert),
    forallb (fun c => match adj c with [] => true | _ => false end
                      && (S (coord c) <? length (points tri))%nat) v = true ->
    read_verts tri (map (fun c => Some (addr_of tri (coord c))) v) (length v)
    = Done v.
Proof.
  induction v as [|[c r] v IH]; intros H; [reflexivity|].
  cbn [forallb] in H. apply andb_true_iff in H as [Hc Hv].
  apply andb_true_iff in Hc as [Hr Hc]. cbn [adj coord] in Hr, Hc.
  destruct r; [|discriminate].
  apply Nat.ltb_lt in Hc.
  cbn [map length read_verts coord].
  rewrite offset_of_addr_of by assumption. cbn [bind].
  rewrite (IH Hv). reflexivity.
Qed.

(** On an array the pass leaves alone, it returns the array and
    [npoints]. *)
Lemma dedup_from_clean (tri : dTriangulation) (v0 : list vert) :
  clean_from tri v0 = true ->
  dedup_from tri v0
  = Done (map (fun c => Some (addr_of tri (coord c))) v0, npoints tri).
Proof.
  unfold clean_from. intros H.
  apply andb_true_iff in H as [H Hnd]. apply andb_true_iff in H as [H Hall].
  apply andb_true_iff in H as [Hmin Hlen].
  apply Z.leb_le in Hmin. apply Nat.eqb_eq in Hlen.
  assert (Hn : npoints tri = Z.of_nat (length (map coord v0))).
  { rewrite length_map, Hlen. unfold MINPOINTS in Hmin. lia. }
  unfold dedup_from.
  replace (map (fun c => Some (addr_of tri (coord c))) v0)
    with (map (fun c => Some (addr_of tri c)) (map coord v0))
    by (rewrite map_map; reflexivity).
  rewrite Hn at 2 3.
  apply dedup_loop_clean.
  - apply Forall_forall. intros c Hc.
    apply list_elem_of_In in Hc. apply in_map_iff in Hc as [x [<- Hx]].
    rewrite forallb_forall in Hall. specialize (Hall x Hx).
    apply andb_true_iff in Hall as [_ Hall]. now apply Nat.ltb_lt in Hall.
  - lia.
  - exact Hnd.
  - rewrite length_map, Hlen. unfold MINPOINTS in Hmin. lia.
Qed.

(** On an array the pass leaves alone, [dtriangulate] hands the array to
    the core as it is, whatever the address of the points. *)
Lemma dtriangulate_from_clean (fuel : nat) (tri : dTriangulation)
  (v0 : list vert) :
  clean_from tri v0 = true ->
  dtriangulate_from fuel tri v0
  = triangulate_verts fuel (with_nverts tri (npoints tri)) v0 (npoints tri).
Proof.
  intros H. unfold dtriangulate_from. rewrite (dedup_from_clean _ _ H).
  unfold clean_from in H.
  apply andb_true_iff in H as [H Hnd]. apply andb_true_iff in H as [H Hall].
  apply andb_true_iff in H as [Hmin Hlen].
  apply Z.leb_le in Hmin. apply Nat.eqb_eq in Hlen.
  destruct (Z.ltb_spec (npoints tri) MINPOINTS) as [Hlt|_]; [lia|].
  cbn [bind].
  destruct (Z.ltb_spec (npoints tri) MINPOINTS) as [Hlt|_]; [lia|].
  rewrite <- Hlen.
  change (points tri) with (points (with_nverts tri (npoints tri))) in Hall.
  pose proof (read_verts_clean (with_nverts tri (npoints tri)) _ Hall) as HR.
  change (read_verts (with_nverts tri (npoints tri))
            (map (fun x => Some (addr_of tri (coord x))) v0)
            (length v0) = Done v0) in HR.
  unfold with_nverts in HR |- *. rewrite HR. reflexivity.
Qed.

Lemma dtriangulate_clean (fuel : nat) (tri : dTriangulation) :
  clean tri = true ->
  dtriangulate fuel tri
  = triangulate_verts fuel (with_nverts tri (npoints tri)) (sorted_verts tri)
                      (npoints tri).
Proof.
  apply dtriangulate_from_clean.
Qed.

(** ** Sorting

    Where the comparator orders an array strictly, that array is the only
    arrangement of its elements a sorting routine can return. *)

Lemma strictly_ordered_unique (cmp : vert -> vert -> Z) :
  forall l l' : list vert,
    strictly_ordered cmp l = true ->
    Permutation l l' ->
    StronglySorted (fun x y => (cmp x y < 0)%Z) l' ->
    l' = l.
Proof.
  induction l as [|a rest IH]; intros l' Hord Hperm Hsort.
  - apply Permutation_nil in Hperm. exact Hperm.
  - cbn [strictly_ordered] in Hord.
    apply andb_true_iff in Hord as [Ha Hrest].
    rewrite forallb_forall in Ha.
    destruct l' as [|x l'];
      [apply Permutation_sym, Permutation_nil in Hperm; discriminate|].
    apply StronglySorted_inv in Hsort as [Hsort Hx].
    assert (Hxa : x = a).
    { assert (Hin : In x (a :: rest))
        by (eapply Permutation_in; [apply Permutation_sym; exact Hperm|now left]).
      destruct Hin as [Heq|Hin]; [now symmetry|].
      assert (Hin' : In a (x :: l'))
        by (eapply Permutation_in; [exact Hperm|now left]).
      destruct Hin' as [Heq|Hin']; [exact Heq|].
      rewrite Forall_forall in Hx. specialize (Hx a).
      specialize (Ha x Hin). apply andb_true_iff in Ha as [_ Ha].
      apply Z.eqb_eq in Ha.
      assert (cmp x a < 0)%Z by (apply Hx; apply list_elem_of_In; exact Hin').
      lia. }
    subst x. f_equal. apply IH; [exact Hrest| |exact Hsort].
    eapply Permutation_cons_inv. exact Hperm.
Qed.

(** The two five-point inputs used below are ordered strictly by
    [compareVerts] as [dtriangulate] sorts them, with (2^-40, 0) ahead of the
    points on the line x = 0. *)
Lemma sliver_fan_strictly_ordered :
  strictly_ordered (compareVerts sliver_points) (sorted_input sliver_points) = true
  /\ map coord (sorted_input sliver_points) = [0; 2; 4; 6; 8]%nat
  /\ strictly_ordered (compareVerts fan_points) (sorted_input fan_points) = true
  /\ map coord (sorted_input fan_points) = [0; 2; 4; 6; 8]%nat.
Proof. repeat split; vm_compute; reflexivity. Qed.

(** So are the four points of scenario S4: (0,0), (1e-15,1e-15), (0,1),
    (1,0). *)
Lemma s4_strictly_ordered :
  strictly_ordered (compareVerts s4_points) (sorted_input s4_points) = true
  /\ map coord (sorted_input s4_points) = [0; 6; 4; 2]%nat.
Proof. split; vm_compute; reflexivity. Qed.

(** ** The adjacency store: what holds of [connectVerts] and [cutVerts] on
    every store *)

Section Store.

Variable pts : list Q.

Lemma vget_set_adj_eq (v : list vert) (i : nat) (r : list nat) :
  (i < length v)%nat -> adj (vget (set_adj v i r) i) = r.
Proof.
  intros Hi. unfold vget at 1, set_adj.
  rewrite list_lookup_insert_eq by exact Hi. reflexivity.
Qed.

Lemma vget_set_adj_ne (v : list vert) (i j : nat) (r : list nat) :
  i <> j -> vget (set_adj v i r) j = vget v j.
Proof.
  intros Hij. unfold vget, set_adj.
  rewrite list_lookup_insert_ne by exact Hij. reflexivity.
Qed.

Lemma length_set_adj (v : list vert) (i : nat) (r : list nat) :
  length (set_adj v i r) = length v.
Proof. unfold set_adj. apply length_insert. Qed.

Lemma scan_next_bound (test : nat -> bool) :
  forall (rest : list nat) (m : nat),
    scan_next test rest m = 0%nat
    \/ (m <= scan_next test rest m < m + length rest)%nat.
Proof.
  induction rest as [|x rest IH]; intros m; cbn [scan_next length]; [now left|].
  destruct (test x).
  - destruct (IH (S m)) as [H|H]; [now left|right; lia].
  - right. lia.
Qed.

Lemma existsb_insertNodeAfter (r : list nat) (m x : nat) :
  existsb (Nat.eqb x) (insertNodeAfter r m x) = true.
Proof.
  unfold insertNodeAfter. rewrite existsb_app. cbn [existsb].
  rewrite Nat.eqb_refl. rewrite orb_true_r. reflexivity.
Qed.

Lemma insertNode_length (v : list vert) (p x : nat) :
  length (insertNode pts v p x) = length v.
Proof.
  unfold insertNode.
  destruct (adj (vget v p)) as [|f r]; [apply length_set_adj|].
  destruct (rightOf_at pts v x p f).
  - destruct (_ =? 0)%nat; apply length_set_adj.
  - destruct (_ =? x)%nat; [reflexivity|apply length_set_adj].
Qed.

Lemma insertNode_other (v : list vert) (p x q : nat) :
  q <> p -> vget (insertNode pts v p x) q = vget v q.
Proof.
  intros Hq. unfold insertNode.
  destruct (adj (vget v p)) as [|f r];
    [apply vget_set_adj_ne; congruence|].
  destruct (rightOf_at pts v x p f).
  - destruct (_ =? 0)%nat; apply vget_set_adj_ne; congruence.
  - destruct (_ =? x)%nat; [reflexivity|apply vget_set_adj_ne; congruence].
Qed.

(** After [insertNode(parent, in)] the ring of [parent] holds [in]. *)
Lemma insertNode_adjacent (v : list vert) (p x : nat) :
  (p < length v)%nat -> adjacent (insertNode pts v p x) p x = true.
Proof.
  intros Hp. unfold adjacent, insertNode.
  destruct (adj (vget v p)) as [|f r] eqn:Hr.
  - rewrite vget_set_adj_eq by exact Hp. cbn [existsb].
    now rewrite Nat.eqb_refl.
  - destruct (rightOf_at pts v x p f).
    + destruct (_ =? 0)%nat; rewrite vget_set_adj_eq by exact Hp.
      * cbn [existsb]. now rewrite Nat.eqb_refl.
      * apply existsb_insertNodeAfter.
    + destruct (Nat.eqb_spec
                  (ring_at (f :: r)
                     (scan_next (fun c => leftOf_at pts v x p c) (tail (f :: r)) 1))
                  x) as [Heq|Hne].
      * rewrite Hr. apply existsb_exists. exists x. split; [|apply Nat.eqb_refl].
        cbn [tail] in Heq.
        destruct (scan_next_bound (fun c => leftOf_at pts v x p c) r 1) as [H0|Hb].
        -- rewrite H0 in Heq. cbn in Heq. subst f. now left.
        -- unfold ring_at in Heq.
           destruct (lookup_lt_is_Some_2 (f :: r)
                       (scan_next (fun c => leftOf_at pts v x p c) r 1)) as [y Hy];
             [cbn [length]; lia|].
           rewrite Hy in Heq. cbn in Heq. subst y.
           apply list_elem_of_In. eapply list_elem_of_lookup_2. exact Hy.
      * rewrite vget_set_adj_eq by exact Hp. apply existsb_insertNodeAfter.
Qed.

(** [connectVerts(a, b)] on distinct vertices of the array leaves each in
    the ring of the other, whatever the store held. *)
Lemma connectVerts_symmetric (v : list vert) (a b : nat) :
  a <> b -> (a < length v)%nat -> (b < length v)%nat ->
  let v' := connectVerts pts v (Some a) (Some b) in
  adjacent v' a b = true /\ adjacent v' b a = true.
Proof.
  intros Hab Ha Hb. cbn [connectVerts].
  destruct (Nat.eqb_spec a b) as [|_]; [contradiction|].
  split.
  - unfold adjacent. rewrite insertNode_other by exact Hab.
    apply insertNode_adjacent. exact Ha.
  - apply insertNode_adjacent. rewrite insertNode_length. exact Hb.
Qed.

Lemma unlink_absent (c : nat) :
  forall r : list nat, NoDup r -> ~ In c (unlink c r).
Proof.
  induction r as [|y r IH]; intros Hnd; cbn [unlink]; [tauto|].
  apply NoDup_cons in Hnd as [Hy Hnd].
  destruct (Nat.eqb_spec y c) as [->|Hne].
  - intros Hin. apply Hy. apply list_elem_of_In. exact Hin.
  - cbn [In]. intros [H|H]; [contradiction|]. now apply IH.
Qed.

Lemma deleteNode_other (v : list vert) (p c q : nat) :
  q <> p -> vget (deleteNode v p c) q = vget v q.
Proof.
  intros Hq. unfold deleteNode.
  destruct (adj (vget v p)); [reflexivity|].
  apply vget_set_adj_ne. congruence.
Qed.

Lemma deleteNode_length (v : list vert) (p c : nat) :
  length (deleteNode v p c) = length v.
Proof.
  unfold deleteNode. destruct (adj (vget v p)); [reflexivity|].
  apply length_set_adj.
Qed.

Lemma deleteNode_absent (v : list vert) (p c : nat) :
  (p < length v)%nat -> NoDup (adj (vget v p)) ->
  adjacent (deleteNode v p c) p c = false.
Proof.
  intros Hp Hnd. unfold adjacent, deleteNode.
  destruct (adj (vget v p)) as [|f r] eqn:Hr.
  - rewrite Hr. reflexivity.
  - rewrite vget_set_adj_eq by exact Hp.
    apply not_true_is_false. intros H.
    apply existsb_exists in H as [y [Hy Heq]].
    apply Nat.eqb_eq in Heq. subst y.
    exact (unlink_absent c (f :: r) Hnd Hy).
Qed.

(** [cutVerts(a, b)] on distinct vertices leaves neither in the ring of the
    other, provided neither ring held a vertex twice. *)
Lemma cutVerts_symmetric (v : list vert) (a b : nat) :
  a <> b -> (a < length v)%nat -> (b < length v)%nat ->
  NoDup (adj (vget v a)) -> NoDup (adj (vget v b)) ->
  let v' := cutVerts v (Some a) (Some b) in
  adjacent v' a b = false /\ adjacent v' b a = false.
Proof.
  intros Hab Ha Hb Hna Hnb. cbn [cutVerts].
  destruct (Nat.eqb_spec a b) as [|_]; [contradiction|].
  split.
  - unfold adjacent. rewrite deleteNode_other by exact Hab.
    apply deleteNode_absent; assumption.
  - apply deleteNode_absent.
    + rewrite deleteNode_length. exact Hb.
    + rewrite deleteNode_other by congruence. exact Hnb.
Qed.

End Store.

(** A neighbour that is the only node of the ring is found: the insertion
    changes nothing. *)
Lemma insertNode_singleton (pts : list Q) (v : list vert) (p x : nat) :
  adj (vget v p) = [x] -> insertNode pts v p x = v.
Proof.
  intros Hr. unfold insertNode. rewrite Hr.
  assert (H0 : rightOf_at pts v x p x = false).
  { unfold rightOf_at, ccw_at. apply Qltb_ge0. unfold orient2d.
    match goal with |- ?e <= 0 => assert (E : e == 0) by ring; rewrite E end.
    apply Qle_refl. }
  rewrite H0. cbn. rewrite Nat.eqb_refl. reflexivity.
Qed.

(** ** Inputs with integer coordinates *)

(** X19.  On every choice of two or more points of the 3 x 3 integer lattice
    the triangulator returns without a diagnostic, every triangle it emits
    is counterclockwise and none has an input point strictly inside its
    circumcircle. *)
Lemma lattice_well_triangulated :
  forall ps : list (Z * Z),
    In ps (sublists (lattice 3 3)) -> (2 <= length ps)%nat ->
    exists out,
      dtriangulate 20 (input 4096 (flatten ps) 0 [] 0) = Done (out, [])
      /\ empty_circle out /\ all_ccw out.
Proof.
  assert (H : forallb (fun ps => (length ps <? 2)%nat
                                 || well_triangulated 20 (input 4096 (flatten ps) 0 [] 0))
                      (sublists (lattice 3 3)) = true)
    by (vm_compute; reflexivity).
  rewrite forallb_forall in H.
  intros ps Hin Hlen. specialize (H ps Hin).
  destruct (Nat.ltb_spec (length ps) 2) as [|_]; [lia|].
  cbn [orb] in H. unfold well_triangulated in H.
  destruct (dtriangulate 20 (input 4096 (flatten ps) 0 [] 0))
    as [[out [|d ds]]|]; try discriminate.
  apply andb_true_iff in H as [H1 H2].
  exists out. split; [reflexivity|].
  split; [now apply empty_circleb_spec|now apply all_ccwb_spec].
Qed.

(** C10.  Triangulating the collinear points (0,0), (1,0), (2,0) gives
    [ntriangles = 0] and an empty triangle array; the three-point base case
    leaves the edges (0,1) and (1,2) in the adjacency graph and neither end
    of (0,2) lists the other. *)
Theorem collinear_triple (ptr nv nt : Z) (ts : list Z) (fuel : nat) :
  (exists out,
      dtriangulate (S fuel) (input ptr collinear_points nv ts nt) = Done (out, [])
      /\ ntriangles out = 0%Z /\ triangles out = [])
  /\ (exists s lr,
        ord_dtriangulate collinear_points (S fuel)
          (sorted_input collinear_points, []) 0 2 = Done (s, lr)
        /\ edge (fst s) 0 1 = true /\ edge (fst s) 1 2 = true
        /\ adjacent (fst s) 0 2 = false /\ adjacent (fst s) 2 0 = false).
Proof.
  split.
  - rewrite dtriangulate_clean by (vm_compute; reflexivity).
    eexists. split; [vm_compute; reflexivity|]. split; reflexivity.
  - eexists. eexists. split; [vm_compute; reflexivity|].
    repeat split; vm_compute; reflexivity.
Qed.

(** C1, on the input (-1,2^44), (2^-40,0), (0,1), (0,2), (0,2^44), five
    points of which no two are duplicates: the run ends with all five as
    vertices and the single triangle (0,2,1), and the vertex 3 lies strictly
    inside the circumcircle of that triangle. *)
Theorem sliver_not_delaunay (ptr nv nt : Z) (ts : list Z) (fuel : nat) :
  clean (input ptr sliver_points nv ts nt) = true
  /\ exists out,
    dtriangulate (3 + fuel) (input ptr sliver_points nv ts nt) = Done (out, [])
    /\ nverts out = 5%Z
    /\ triangles out = [0; 2; 1]%Z
    /\ 0 < incircle (point_at out 0) (point_at out 2) (point_at out 1) (point_at out 3)
    /\ ~ empty_circle out.
Proof.
  split; [vm_compute; reflexivity|].
  rewrite dtriangulate_clean by (vm_compute; reflexivity).
  eexists. split; [vm_compute; reflexivity|].
  split; [reflexivity|].
  split; [reflexivity|].
  assert (Hin : 0 < incircle (point_at (input ptr sliver_points nv ts nt) 0)
                             (point_at (input ptr sliver_points nv ts nt) 2)
                             (point_at (input ptr sliver_points nv ts nt) 1)
                             (point_at (input ptr sliver_points nv ts nt) 3))
    by (vm_compute; reflexivity).
  split; [exact Hin|].
  intros Hempty.
  specialize (Hempty 0%Z 2%Z 1%Z 3%Z (or_introl eq_refl)).
  apply (Qlt_not_le _ _ Hin). apply Hempty. vm_compute. split; [discriminate|reflexivity].
Qed.

(** C7, on the ring the base case builds around (0,0) for the points (0,0),
    (0,1), (1,0).  The ring lists vertex 2, then vertex 1.  Inserting vertex
    2 again adds a second node for it; and from the ring that lists vertex 1
    alone, inserting vertex 2 twice and inserting it once give different
    rings. *)
Theorem insertNode_duplicates_first (fuel : nat) :
  exists s lr,
    ord_dtriangulate corner_points (S fuel) (sorted_input corner_points, []) 0 2
    = Done (s, lr)
    /\ adj (vget (fst s) 0) = [2; 1]%nat
    /\ adj (vget (insertNode corner_points (fst s) 0 2) 0) = [2; 2; 1]%nat
    /\ let v1 := connectVerts corner_points (sorted_input corner_points)
                               (Some 0%nat) (Some 1%nat) in
       adj (vget v1 0) = [1]%nat
       /\ insertNode corner_points (insertNode corner_points v1 0 2) 0 2
          <> insertNode corner_points v1 0 2.
Proof.
  eexists. eexists. split; [vm_compute; reflexivity|].
  split; [vm_compute; reflexivity|].
  split; [vm_compute; reflexivity|].
  split; [vm_compute; reflexivity|].
  vm_compute. discriminate.
Qed.

(** C8, on the input (-1,2^44), (2^-40,0), (0,1), (0,2), (1+2^-40,-2^44), five
    points of which no two are duplicates: the run ends with the triangles
    (0,2,4), (1,2,4) and (2,4,4); the last one names vertex 4 twice and its
    [orient2d] is zero. *)
Theorem fan_not_ccw (ptr nv nt : Z) (ts : list Z) (fuel : nat) :
  clean (input ptr fan_points nv ts nt) = true
  /\ exists out,
    dtriangulate (20 + fuel) (input ptr fan_points nv ts nt) = Done (out, [])
    /\ triangles out = [0; 2; 4; 1; 2; 4; 2; 4; 4]%Z
    /\ orient2d (point_at out 2) (point_at out 4) (point_at out 4) == 0
    /\ ~ all_ccw out.
Proof.
  split; [vm_compute; reflexivity|].
  rewrite dtriangulate_clean by (vm_compute; reflexivity).
  eexists. split; [vm_compute; reflexivity|].
  split; [reflexivity|].
  split; [vm_compute; reflexivity|].
  intros Hccw.
  specialize (Hccw 2%Z 4%Z 4%Z (or_intror (or_intror (or_introl eq_refl)))).
  vm_compute in Hccw. discriminate.
Qed.

(** C9, on the same input, sorted as [dtriangulate] hands it to the core: the
    core calls [cutVerts] on the vertices 0 and 2; after the call the ring
    of vertex 0 still lists vertex 2 and the ring of vertex 2 does not list
    vertex 0. *)
Theorem fan_cut_asymmetric (fuel : nat) :
  exists s lr,
    ord_dtriangulate fan_points (20 + fuel) (sorted_input fan_points, []) 0 4
    = Done (s, lr)
    /\ exists e,
         In e (snd s) /\ ev_op e = Cut
         /\ ev_a e = Some 0%nat /\ ev_b e = Some 2%nat
         /\ adjacent (ev_after e) 0 2 = true
         /\ adjacent (ev_after e) 2 0 = false
         /\ ~ symmetric_after e.
Proof.
  eexists. eexists. split; [vm_compute; reflexivity|].
  eexists. split; [cbn [snd In]; do 14 right; left; reflexivity|].
  repeat split.
  intros Hsym. cbv [symmetric_after ev_a ev_b] in Hsym.
  specialize (Hsym ltac:(discriminate)). vm_compute in Hsym. discriminate.
Qed.

(** C2, on the points (0,0), (1,0), (0,1), (1e-15,1e-15) of scenario S4,
    stored at address 4096.  Sorted, the array holds the offsets 0, 6, 4, 2;
    the sweep of the specification keeps 0, 4, 2, that is (0,0), (0,1),
    (1,0).  The pass of the code ends with [nverts = 2] and the first two
    entries designate the offsets 0 and 4: the point (1,0) is lost, and
    [nverts] went down by two for one duplicate. *)
Theorem s4_dedup_drops_point (fuel : nat) :
  let tri := input 4096 s4_points 0 [] 0 in
  map coord (sorted_verts tri) = [0; 6; 4; 2]%nat
  /\ spec_unique_verts tri = [0; 4; 2]%nat
  /\ (exists v,
        dedup tri = Done (v, 2%Z)
        /\ read_verts tri v 2 = Done [mkVert 0 []; mkVert 4 []])
  /\ (exists out,
        dtriangulate (S fuel) tri = Done (out, [])
        /\ nverts out = 2%Z /\ ntriangles out = 0%Z).
Proof.
  split; [vm_compute; reflexivity|].
  split; [vm_compute; reflexivity|].
  split.
  - eexists. split; vm_compute; reflexivity.
  - eexists. split; [vm_compute; reflexivity|]. split; reflexivity.
Qed.

(** C3 as stated fails: called with one point on a structure that holds a
    triangle from an earlier use, [dtriangulate] reports the diagnostic and
    returns with [ntriangles = 1] and the three indices still there. *)
Lemma too_few_points_keeps_stale_output :
  exists out d,
    dtriangulate 0 (input 4096 [0; 0] 0 [0; 1; 2]%Z 1) = Done (out, [d])
    /\ ntriangles out <> 0%Z /\ triangles out <> [].
Proof.
  eexists. eexists. split; [reflexivity|]. split; discriminate.
Qed.

(** C3, amended.  Called with fewer than [MINPOINTS] points, or when the
    pass leaves fewer than [MINPOINTS] vertices, [dtriangulate] reports one
    diagnostic and returns without running the core or the extractor:
    [ntriangles] and the triangle array are as they were on entry (so zero
    and empty exactly when the caller had them so), and in the second case
    [nverts] is the count the pass left.  This holds for every order [v0] in
    which [qsort] may leave the array, the order of the embedding's sort
    among them. *)
Theorem too_few_points_output_untouched (fuel : nat) (tri : dTriangulation)
  (v0 : list vert) :
  ((npoints tri < MINPOINTS)%Z
   \/ exists v nv, dedup_from tri v0 = Done (v, nv) /\ (nv < MINPOINTS)%Z) ->
  exists out d,
    dtriangulate_from fuel tri v0 = Done (out, [d])
    /\ ntriangles out = ntriangles tri
    /\ triangles out = triangles tri
    /\ ((npoints tri < MINPOINTS)%Z ->
        out = tri /\ d = OnlyPoints (npoints tri))
    /\ ((MINPOINTS <= npoints tri)%Z ->
        d = OnlyNonDuplicate (nverts out)
        /\ exists v, dedup_from tri v0 = Done (v, nverts out)).
Proof.
  intros H. unfold dtriangulate_from.
  destruct (Z.ltb_spec (npoints tri) MINPOINTS) as [Hlt|Hge].
  - exists tri, (OnlyPoints (npoints tri)).
    split; [reflexivity|]. split; [reflexivity|]. split; [reflexivity|].
    split; [intros _; split; reflexivity|intros Hge; lia].
  - destruct H as [H|(v & nv & Hd & Hnv)]; [lia|].
    rewrite Hd. cbn [bind].
    destruct (Z.ltb_spec nv MINPOINTS) as [_|Hge']; [|lia].
    eexists. eexists. split; [reflexivity|].
    cbn [ntriangles triangles nverts].
    split; [reflexivity|]. split; [reflexivity|].
    split; [intros Hlt; lia|intros _].
    split; [reflexivity|]. exists v. reflexivity.
Qed.

(** The hypothesis of the theorem is met by three copies of the point
    (0,0), and by two: the pass leaves one vertex.  (With two, the last
    [memmove] reads the two bytes that follow the array; the entry it
    writes is [v[1]], which is not read again.) *)
Lemma too_few_points_output_untouched_witness :
  let tri := input 4096 [0; 0; 0; 0; 0; 0] 0 [0; 1; 2]%Z 1 in
  let two := input 4096 twin_points 0 [0; 1; 2]%Z 1 in
  ((exists v nv, dedup tri = Done (v, nv) /\ (nv < MINPOINTS)%Z)
   /\ exists out d,
        dtriangulate 0 tri = Done (out, [d])
        /\ ntriangles out = 1%Z
        /\ triangles out = [0; 1; 2]%Z)
  /\ ((exists v nv, dedup two = Done (v, nv) /\ (nv < MINPOINTS)%Z)
      /\ exists out d,
           dtriangulate 0 two = Done (out, [d])
           /\ ntriangles out = 1%Z
           /\ triangles out = [0; 1; 2]%Z).
Proof.
  intros tri two.
  assert (H : exists v nv, dedup tri = Done (v, nv) /\ (nv < MINPOINTS)%Z).
  { eexists. exists 1%Z. split; [vm_compute; reflexivity|reflexivity]. }
  assert (H2 : exists v nv, dedup two = Done (v, nv) /\ (nv < MINPOINTS)%Z).
  { eexists. exists 1%Z. split; [vm_compute; reflexivity|reflexivity]. }
  split; (split; [assumption|]).
  - destruct (too_few_points_output_untouched 0 tri (sorted_verts tri) (or_intror H))
      as (out & d & Hrun & Hnt & Hts & _).
    exists out, d. split; [exact Hrun|]. split; assumption.
  - destruct (too_few_points_output_untouched 0 two (sorted_verts two) (or_intror H2))
      as (out & d & Hrun & Hnt & Hts & _).
    exists out, d. split; [exact Hrun|]. split; assumption.
Defined.

End DelaunayFacts.

(** * Facts about the grid tessellator *)

Module GridFacts.

Import Grid.

(** ** [tessellate_grid] on a freshly allocated grid

    When the areas array is the zeroed block of [construct_grid] and the run
    makes no access out of range, the array and the total are as intended:
    the zero for an empty cell lands on an entry that is still zero. *)

Lemma load_Done {A} (l : list A) (i : Z) (a : A) :
  load l i = Done a -> (0 <= i)%Z /\ l !! Z.to_nat i = Some a.
Proof.
  unfold load. destruct (Z.leb_spec 0 i); [|discriminate].
  destruct (l !! Z.to_nat i); [|discriminate].
  intros [= ->]. split; [assumption|reflexivity].
Qed.

Lemma store_Done {A} (l l' : list A) (i : Z) (a : A) :
  store l i a = Done l' ->
  (0 <= i < Z.of_nat (length l))%Z /\ l' = <[Z.to_nat i := a]> l.
Proof.
  unfold store.
  destruct (Z.leb_spec 0 i); [|discriminate].
  destruct (Z.ltb_spec i (Z.of_nat (length l))); [|discriminate].
  intros [= <-]. split; [lia|reflexivity].
Qed.

Lemma Qsum_insert_zero (l : list Q) (k : nat) (a : Q) :
  l !! k = Some 0 -> Qsum (<[k := a]> l) == Qsum l + a.
Proof.
  revert k. induction l as [|q l IH]; intros [|k] H; try discriminate.
  - cbn in H. injection H as ->.
    change (a + Qsum l == 0 + Qsum l + a). lra.
  - change (q + Qsum (<[k := a]> l) == q + Qsum l + a).
    pose proof (IH k H) as E. lra.
Qed.

Lemma Qsum_zeros (n : nat) : Qsum (repeat 0 n) == 0.
Proof.
  induction n as [|n IH]; [reflexivity|].
  change (0 + Qsum (repeat 0 n) == 0). lra.
Qed.

Lemma cell_index_inj (w x y x' y' : Z) :
  (0 <= y < w)%Z -> (0 <= y' < w)%Z ->
  (x' * w + y' = x * w + y)%Z -> x' = x /\ y' = y.
Proof.
  intros Hy Hy' Heq.
  assert (Hx : x' = x).
  { destruct (Z.lt_trichotomy x' x) as [H|[H|H]]; [|exact H|].
    - assert ((x' + 1) * w <= x * w)%Z
        by (apply Z.mul_le_mono_nonneg_r; lia). lia.
    - assert ((x + 1) * w <= x' * w)%Z
        by (apply Z.mul_le_mono_nonneg_r; lia). lia. }
  subst x'. split; [reflexivity|lia].
Qed.

Section Fresh.

Variable norm : rvec -> Q.
Hypothesis norm_nonneg : forall a, 0 <= norm a.
Variable g : tessellated_grid.

Lemma cell_area_nonneg (w : Q) (h0 h1 h2 h3 : Z) :
  0 <= cell_area_of norm w h0 h1 h2 h3.
Proof.
  unfold cell_area_of.
  match goal with
  | |- 0 <= norm ?a / 2 + norm ?b / 2 =>
      pose proof (norm_nonneg a); pose proof (norm_nonneg b);
      generalize dependent (norm a); generalize dependent (norm b)
  end.
  intros nb Hb na Ha. unfold Qdiv. change (/ 2) with (1 # 2). lra.
Qed.

(** The state after the cells with index below [k] have been visited. *)
Definition visited (k : Z) (st : tstate) : Prop :=
  let '(ar, tot) := st in
  Forall (fun q => 0 <= q) ar
  /\ (forall (j : nat) (q : Q),
        (k <= Z.of_nat j)%Z -> ar !! j = Some q -> q = 0)
  /\ (forall x y : Z,
        (0 <= x)%Z -> (0 <= y < dimy g - 1)%Z ->
        (x * (dimy g - 1) + y < k)%Z ->
        empty_corner g x y = true ->
        ar !! Z.to_nat (x * (dimy g - 1) + y) = Some 0)
  /\ tot == Qsum ar.

Lemma visited_cell (x y : Z) (st st' : tstate) :
  (0 <= x)%Z -> (0 <= y < dimy g - 1)%Z ->
  visited (x * (dimy g - 1) + y) st ->
  tessellate_cell norm g x y st = Done st' ->
  visited (x * (dimy g - 1) + y + 1) st'.
Proof.
  intros Hx Hy Hv Hrun. destruct st as [ar tot].
  destruct Hv as (Hpos & Hzero & Hempty & Hsum).
  set (k := (x * (dimy g - 1) + y)%Z) in *.
  assert (Hzero_store :
            forall ar', store ar (x * dimy g + y)%Z 0 = Done ar' ->
                        empty_corner g x y = true ->
                        visited (k + 1) (ar', tot)).
  { intros ar' Hst Hemp. apply store_Done in Hst as [Hi ->].
    assert (Hi0 : ar !! Z.to_nat (x * dimy g + y) = Some 0).
    { destruct (lookup_lt_is_Some_2 ar (Z.to_nat (x * dimy g + y))) as [q Hq];
        [lia|].
      rewrite Hq. f_equal.
      apply (Hzero (Z.to_nat (x * dimy g + y)) q); [unfold k; nia|exact Hq]. }
    rewrite (list_insert_id _ _ _ Hi0).
    split; [exact Hpos|]. split; [|split; [|exact Hsum]].
    - intros j q Hj. apply Hzero. lia.
    - intros x' y' Hx' Hy' Hlt He.
      destruct (Z.eq_dec (x' * (dimy g - 1) + y')%Z k) as [Heq|Hne].
      + rewrite Heq.
        destruct (lookup_lt_is_Some_2 ar (Z.to_nat k)) as [q Hq];
          [unfold k in *; nia|].
        rewrite Hq. f_equal. apply (Hzero (Z.to_nat k) q); [lia|exact Hq].
      + apply Hempty; try assumption. lia. }
  unfold tessellate_cell in Hrun.
  destruct (load (heightmap g) (x * dimy g + y)) as [h0|] eqn:L0;
    [|discriminate]. cbn [bind] in Hrun.
  apply load_Done in L0 as [_ L0].
  assert (E0 : height g x y = h0) by (unfold height; rewrite L0; reflexivity).
  destruct (Z.ltb_spec h0 0) as [N0|P0].
  { destruct (store ar (x * dimy g + y) 0) as [ar'|] eqn:Hst; [|discriminate].
    injection Hrun as <-. apply Hzero_store; [reflexivity|].
    unfold empty_corner. rewrite E0.
    destruct (Z.ltb_spec h0 0); [reflexivity|lia]. }
  destruct (load (heightmap g) (x * dimy g + y + 1)) as [h1|] eqn:L1;
    [|discriminate]. cbn [bind] in Hrun.
  apply load_Done in L1 as [_ L1].
  assert (E1 : height g x (y + 1) = h1).
  { unfold height. replace (x * dimy g + (y + 1))%Z with (x * dimy g + y + 1)%Z by lia.
    rewrite L1. reflexivity. }
  destruct (Z.ltb_spec h1 0) as [N1|P1].
  { destruct (store ar (x * dimy g + y) 0) as [ar'|] eqn:Hst; [|discriminate].
    injection Hrun as <-. apply Hzero_store; [reflexivity|].
    unfold empty_corner. rewrite E1.
    destruct (Z.ltb_spec h1 0); [|lia]. rewrite orb_true_r. reflexivity. }
  destruct (load (heightmap g) ((x + 1) * dimy g + y)) as [h2|] eqn:L2;
    [|discriminate]. cbn [bind] in Hrun.
  apply load_Done in L2 as [_ L2].
  assert (E2 : height g (x + 1) y = h2) by (unfold height; rewrite L2; reflexivity).
  destruct (Z.ltb_spec h2 0) as [N2|P2].
  { destruct (store ar (x * dimy g + y) 0) as [ar'|] eqn:Hst; [|discriminate].
    injection Hrun as <-. apply Hzero_store; [reflexivity|].
    unfold empty_corner. rewrite E2.
    destruct (Z.ltb_spec h2 0); [|lia]. rewrite orb_true_r. reflexivity. }
  destruct (load (heightmap g) ((x + 1) * dimy g + y + 1)) as [h3|] eqn:L3;
    [|discriminate]. cbn [bind] in Hrun.
  apply load_Done in L3 as [_ L3].
  assert (E3 : height g (x + 1) (y + 1) = h3).
  { unfold height.
    replace ((x + 1) * dimy g + (y + 1))%Z with ((x + 1) * dimy g + y + 1)%Z by lia.
    rewrite L3. reflexivity. }
  destruct (Z.ltb_spec h3 0) as [N3|P3].
  { destruct (store ar (x * dimy g + y) 0) as [ar'|] eqn:Hst; [|discriminate].
    injection Hrun as <-. apply Hzero_store; [reflexivity|].
    unfold empty_corner. rewrite E3.
    destruct (Z.ltb_spec h3 0); [|lia]. rewrite orb_true_r. reflexivity. }
  fold k in Hrun.
  destruct (store ar k (cell_area_of norm (cell_width g) h0 h1 h2 h3))
    as [ar'|] eqn:Hst; [|discriminate].
  injection Hrun as <-.
  apply store_Done in Hst as [Hi ->].
  assert (Hk0 : ar !! Z.to_nat k = Some 0).
  { destruct (lookup_lt_is_Some_2 ar (Z.to_nat k)) as [q Hq]; [lia|].
    rewrite Hq. f_equal. apply (Hzero (Z.to_nat k) q); [lia|exact Hq]. }
  split; [|split; [|split]].
  - apply Forall_insert; [exact Hpos|apply cell_area_nonneg].
  - intros j q Hj Hq. rewrite list_lookup_insert_ne in Hq by lia.
    apply (Hzero j q); [lia|exact Hq].
  - intros x' y' Hx' Hy' Hlt He.
    destruct (Z.eq_dec (x' * (dimy g - 1) + y')%Z k) as [Heq|Hne].
    + destruct (cell_index_inj (dimy g - 1) x y x' y' Hy Hy' Heq) as [-> ->].
      unfold empty_corner in He. rewrite E0, E1, E2, E3 in He.
      destruct (Z.ltb_spec h0 0); [lia|]. destruct (Z.ltb_spec h1 0); [lia|].
      destruct (Z.ltb_spec h2 0); [lia|]. destruct (Z.ltb_spec h3 0); [lia|].
      discriminate.
    + assert (0 <= x' * (dimy g - 1))%Z by (apply Z.mul_nonneg_nonneg; lia).
      rewrite list_lookup_insert_ne by lia.
      apply Hempty; try assumption. lia.
  - rewrite (Qsum_insert_zero _ _ _ Hk0). rewrite Hsum. reflexivity.
Qed.

Lemma visited_row (x : Z) :
  forall (n : nat) (y : Z) (st st' : tstate),
    (0 <= x)%Z -> (0 <= y)%Z -> (y + Z.of_nat n <= dimy g - 1)%Z ->
    visited (x * (dimy g - 1) + y) st ->
    tessellate_row norm g x n y st = Done st' ->
    visited (x * (dimy g - 1) + y + Z.of_nat n) st'.
Proof.
  induction n as [|n IH]; intros y st st' Hx Hy Hn Hv Hrun.
  - cbn in Hrun. injection Hrun as <-.
    replace (x * (dimy g - 1) + y + Z.of_nat 0)%Z
      with (x * (dimy g - 1) + y)%Z by lia.
    exact Hv.
  - cbn [tessellate_row] in Hrun.
    destruct (tessellate_cell norm g x y st) as [st1|] eqn:Hc; [|discriminate].
    cbn [bind] in Hrun.
    apply (visited_cell x y st st1) in Hc; [|lia|lia|exact Hv].
    replace (x * (dimy g - 1) + y + Z.of_nat (S n))%Z
      with (x * (dimy g - 1) + (y + 1) + Z.of_nat n)%Z by lia.
    apply (IH (y + 1)%Z st1 st'); try lia; [|exact Hrun].
    replace (x * (dimy g - 1) + (y + 1))%Z
      with (x * (dimy g - 1) + y + 1)%Z by lia.
    exact Hc.
Qed.

Lemma visited_rows :
  forall (n : nat) (x : Z) (st st' : tstate),
    (0 <= x)%Z -> (1 <= dimy g)%Z ->
    visited (x * (dimy g - 1)) st ->
    tessellate_rows norm g n x st = Done st' ->
    visited ((x + Z.of_nat n) * (dimy g - 1)) st'.
Proof.
  induction n as [|n IH]; intros x st st' Hx Hd Hv Hrun.
  - cbn in Hrun. injection Hrun as <-.
    replace (x + Z.of_nat 0)%Z with x by lia. exact Hv.
  - cbn [tessellate_rows] in Hrun.
    destruct (tessellate_row norm g x (Z.to_nat (dimy g - 1)) 0 st)
      as [st1|] eqn:Hr; [|discriminate].
    cbn [bind] in Hrun.
    apply (visited_row x _ 0%Z st st1) in Hr; try lia.
    + replace ((x + Z.of_nat (S n)) * (dimy g - 1))%Z
        with ((x + 1 + Z.of_nat n) * (dimy g - 1))%Z by lia.
      apply (IH (x + 1)%Z st1 st'); try lia; [|exact Hrun].
      replace ((x + 1) * (dimy g - 1))%Z
        with (x * (dimy g - 1) + 0 + Z.of_nat (Z.to_nat (dimy g - 1)))%Z by lia.
      exact Hr.
    + replace (x * (dimy g - 1) + 0)%Z with (x * (dimy g - 1))%Z by lia.
      exact Hv.
Qed.


End Fresh.

(** ** [construct_grid] *)

Lemma Qltb_lt (a b : Q) : Qltb a b = true <-> a < b.
Proof.
  unfold Qltb. rewrite negb_true_iff. split.
  - intros H. apply Qnot_le_lt. intros Hle.
    apply Qle_bool_iff in Hle. congruence.
  - intros H. apply not_true_is_false. intros Hle.
    apply Qle_bool_iff in Hle. exact (Qlt_not_le _ _ H Hle).
Qed.

Lemma Qltb_ge (a b : Q) : Qltb a b = false <-> b <= a.
Proof.
  unfold Qltb. rewrite negb_false_iff. apply Qle_bool_iff.
Qed.

Lemma scan_traj_positions (x : list (list rvec)) (nframes natoms : nat) :
  scan_traj x nframes natoms
  = fold_left scan_atom (positions x nframes natoms)
      (FLT_MAX, FLT_MAX, FLT_MAX, FLT_MIN, FLT_MIN, FLT_MIN).
Proof.
  unfold scan_traj, positions.
  generalize (FLT_MAX, FLT_MAX, FLT_MAX, FLT_MIN, FLT_MIN, FLT_MIN).
  induction (take nframes x) as [|fr frs IH]; intros e; [reflexivity|].
  cbn [map concat fold_left]. rewrite fold_left_app. apply IH.
Qed.

Lemma scan_atoms_axes (ps : list rvec) :
  forall a b c d e f : Q,
    fold_left scan_atom ps (a, b, c, d, e, f)
    = (run_min (map vx ps) a, run_min (map vy ps) b, run_min (map vz ps) c,
       run_max (map vx ps) d, run_max (map vy ps) e, run_max (map vz ps) f).
Proof.
  induction ps as [|p ps IH]; intros a b c d e f; [reflexivity|].
  cbn [fold_left map]. unfold run_min, run_max. cbn [fold_left].
  unfold scan_atom at 2. rewrite IH. reflexivity.
Qed.

Lemma run_min_spec (vals : list Q) :
  forall init : Q,
    run_min vals init <= init
    /\ (forall v, In v vals -> run_min vals init <= v)
    /\ (run_min vals init = init \/ In (run_min vals init) vals).
Proof.
  induction vals as [|v vals IH]; intros init.
  - cbn. split; [apply Qle_refl|]. split; [tauto|now left].
  - unfold run_min. cbn [fold_left]. fold (run_min vals (if Qltb v init then v else init)).
    destruct (IH (if Qltb v init then v else init)) as (Hle & Hall & Hin).
    destruct (Qltb v init) eqn:Hlt.
    + apply Qltb_lt in Hlt. split; [|split].
      * eapply Qle_trans; [exact Hle|apply Qlt_le_weak; exact Hlt].
      * intros u [<-|Hu]; [exact Hle|now apply Hall].
      * right. destruct Hin as [->|Hin]; [now left|now right].
    + apply Qltb_ge in Hlt. split; [exact Hle|split].
      * intros u [<-|Hu]; [eapply Qle_trans; eassumption|now apply Hall].
      * destruct Hin as [->|Hin]; [now left|right; now right].
Qed.

Lemma run_max_spec (vals : list Q) :
  forall init : Q,
    init <= run_max vals init
    /\ (forall v, In v vals -> v <= run_max vals init)
    /\ (run_max vals init = init \/ In (run_max vals init) vals).
Proof.
  induction vals as [|v vals IH]; intros init.
  - cbn. split; [apply Qle_refl|]. split; [tauto|now left].
  - unfold run_max. cbn [fold_left]. fold (run_max vals (if Qltb init v then v else init)).
    destruct (IH (if Qltb init v then v else init)) as (Hle & Hall & Hin).
    destruct (Qltb init v) eqn:Hlt.
    + apply Qltb_lt in Hlt. split; [|split].
      * eapply Qle_trans; [apply Qlt_le_weak; exact Hlt|exact Hle].
      * intros u [<-|Hu]; [exact Hle|now apply Hall].
      * right. destruct Hin as [->|Hin]; [now left|now right].
    + apply Qltb_ge in Hlt. split; [exact Hle|split].
      * intros u [<-|Hu]; [eapply Qle_trans; eassumption|now apply Hall].
      * destruct Hin as [->|Hin]; [now left|right; now right].
Qed.

(** The running minimum is the least value as soon as one value is at most
    the start value, and the running maximum the greatest as soon as one
    value is at least the start value. *)
Lemma run_min_lowest (vals : list Q) (init : Q) :
  (exists v, In v vals /\ v <= init) -> lowest vals (run_min vals init).
Proof.
  intros (v & Hv & Hvi).
  destruct (run_min_spec vals init) as (Hle & Hall & Hin).
  split; [|exact Hall].
  destruct Hin as [Heq|Hin]; [|exists (run_min vals init); split; [exact Hin|reflexivity]].
  exists v. split; [exact Hv|]. apply Qle_antisym.
  - rewrite Heq. exact Hvi.
  - now apply Hall.
Qed.

Lemma run_max_highest (vals : list Q) (init : Q) :
  (exists v, In v vals /\ init <= v) -> highest vals (run_max vals init).
Proof.
  intros (v & Hv & Hvi).
  destruct (run_max_spec vals init) as (Hle & Hall & Hin).
  split; [|exact Hall].
  destruct Hin as [Heq|Hin]; [|exists (run_max vals init); split; [exact Hin|reflexivity]].
  exists v. split; [exact Hv|]. apply Qle_antisym.
  - now apply Hall.
  - rewrite Heq. exact Hvi.
Qed.

Lemma run_min_least (vals : list Q) (init : Q) :
  lowest (init :: vals) (run_min vals init).
Proof.
  destruct (run_min_spec vals init) as (Hle & Hall & Hin). split.
  - exists (run_min vals init). split; [|reflexivity].
    destruct Hin as [->|Hin]; [now left|now right].
  - intros v [<-|Hv]; [exact Hle|now apply Hall].
Qed.

Lemma run_max_greatest (vals : list Q) (init : Q) :
  highest (init :: vals) (run_max vals init).
Proof.
  destruct (run_max_spec vals init) as (Hle & Hall & Hin). split.
  - exists (run_max vals init). split; [|reflexivity].
    destruct Hin as [->|Hin]; [now left|now right].
  - intros v [<-|Hv]; [exact Hle|now apply Hall].
Qed.

Lemma trunc_floor (q : Q) : 0 <= q -> trunc q = Qfloor q.
Proof.
  intros Hq. unfold trunc. destruct q as [n d]. cbn [Qnum Qden Qfloor].
  apply Z.quot_div_nonneg; [|lia].
  unfold Qle in Hq. cbn in Hq. lia.
Qed.

(** What a run of [construct_grid] that returns has computed. *)
Lemma construct_grid_Done (x : list (list rvec)) (nframes natoms : nat)
  (w : Q) (g0 g : tessellated_grid) :
  construct_grid x nframes natoms w g0 = Done g ->
  let ps := positions x nframes natoms in
  minx g = run_min (map vx ps) FLT_MAX
  /\ miny g = run_min (map vy ps) FLT_MAX
  /\ minz g = run_min (map vz ps) FLT_MAX
  /\ dim_of (run_max (map vx ps) FLT_MIN) (minx g) w = Done (dimx g)
  /\ dim_of (run_max (map vy ps) FLT_MIN) (miny g) w = Done (dimy g)
  /\ dim_of (run_max (map vz ps) FLT_MIN) (minz g) w = Done (dimz g)
  /\ cell_width g = w
  /\ (INT_MIN <= dimx g * dimy g * dimz g <= INT_MAX)%Z
  /\ (0 <= dimx g * dimy g * dimz g)%Z
  /\ (0 <= dimx g * dimy g)%Z
  /\ (0 <= (dimx g - 1) * (dimy g - 1))%Z
  /\ weights g = snew 0 (dimx g * dimy g * dimz g)
  /\ heightmap g = snew 0%Z (dimx g * dimy g)
  /\ areas g = snew 0 ((dimx g - 1) * (dimy g - 1)).
Proof.
  intros H ps. unfold construct_grid in H.
  rewrite scan_traj_positions, scan_atoms_axes in H. fold ps in H.
  destruct (dim_of (run_max (map vx ps) FLT_MIN) _ w) as [dx|] eqn:Ex;
    [|discriminate]. cbn [bind] in H.
  destruct (dim_of (run_max (map vy ps) FLT_MIN) _ w) as [dy|] eqn:Ey;
    [|discriminate]. cbn [bind] in H.
  destruct (dim_of (run_max (map vz ps) FLT_MIN) _ w) as [dz|] eqn:Ez;
    [|discriminate]. cbn [bind] in H.
  unfold int, snew_count in H.
  repeat match type of H with
         | context [if ?c then _ else _] =>
             let E := fresh "E" in
             destruct c eqn:E; [|discriminate]; cbn [bind] in H
         end.
  injection H as <-. cbn [minx miny minz dimx dimy dimz cell_width weights
                          heightmap areas].
  repeat match goal with
         | H : (_ && _) = true |- _ => apply andb_true_iff in H as [? ?]
         | H : (_ <=? _)%Z = true |- _ => apply Z.leb_le in H
         end.
  repeat split; try assumption; try reflexivity.
Qed.

(** X20.  Whenever [construct_grid] returns, the origin it stores is, on each
    axis, the least of [FLT_MAX] and the coordinates of the positions, and
    the dimension it stores is [(int)((M - min)/cell_width) + 2] as the
    machine computes it, for [M] the greatest of [FLT_MIN] and the
    coordinates: the maximum of the scan starts at [FLT_MIN], the least
    positive normalised [float]. *)
Lemma construct_grid_dims (x : list (list rvec)) (nframes natoms : nat)
  (w : Q) (g0 g : tessellated_grid) :
  let ps := positions x nframes natoms in
  construct_grid x nframes natoms w g0 = Done g ->
  (lowest (FLT_MAX :: map vx ps) (minx g)
   /\ exists M, highest (FLT_MIN :: map vx ps) M
                /\ dim_of M (minx g) w = Done (dimx g))
  /\ (lowest (FLT_MAX :: map vy ps) (miny g)
      /\ exists M, highest (FLT_MIN :: map vy ps) M
                   /\ dim_of M (miny g) w = Done (dimy g))
  /\ (lowest (FLT_MAX :: map vz ps) (minz g)
      /\ exists M, highest (FLT_MIN :: map vz ps) M
                   /\ dim_of M (minz g) w = Done (dimz g)).
Proof.
  intros ps H.
  destruct (construct_grid_Done _ _ _ _ _ _ H)
    as (Ex & Ey & Ez & Dx & Dy & Dz & _). fold ps in Ex, Ey, Ez, Dx, Dy, Dz.
  split; [|split].
  - split; [rewrite Ex; apply run_min_least|].
    eexists. split; [apply run_max_greatest|exact Dx].
  - split; [rewrite Ey; apply run_min_least|].
    eexists. split; [apply run_max_greatest|exact Dy].
  - split; [rewrite Ez; apply run_min_least|].
    eexists. split; [apply run_max_greatest|exact Dz].
Qed.

(** C5, on a grid of 3 x 2 columns whose column (2,0) is empty: the areas
    array has (3-1)*(2-1) = 2 entries, and for the cell (1,0) the zero is
    stored at index 1*dimy + 0 = 2. *)
Theorem zero_store_out_of_range (norm : rvec -> Q) (tot : Q) :
  length (areas void_grid) = 2%nat
  /\ ((dimx void_grid - 1) * (dimy void_grid - 1) = 2)%Z
  /\ (1 * dimy void_grid + 0 = 2)%Z
  /\ tessellate_cell norm void_grid 1 0 (areas void_grid, tot) = Fault OutOfBounds.
Proof.
  repeat split.
Qed.

(** C4, on a grid of 4 x 3 columns whose column (1,0) is empty and whose
    areas array holds 7 in every entry on entry.  The cell (1,0) has that
    empty corner; the run ends; the zero for the cell goes to entry
    1*dimy + 0 = 3, where the area of cell (1,1) overwrites it later; and
    entry 1*(dimy-1) + 0 = 2, the cell's own, still holds 7.  On the 3 x 2
    grid above, allocated and zeroed as [construct_grid] does, the run stops
    at the store for the empty cell (1,0). *)
Theorem empty_cell_entry_not_zeroed (norm : rvec -> Q) :
  empty_corner stale_grid 1 0 = true
  /\ (exists g,
        tessellate_grid norm stale_grid = Done g
        /\ areas g !! Z.to_nat (1 * (dimy stale_grid - 1) + 0) = Some 7
        /\ areas g !! Z.to_nat (1 * dimy stale_grid + 0)
           = Some (cell_area_of norm 1 0 0 0 0))
  /\ tessellate_grid norm void_grid = Fault OutOfBounds.
Proof.
  split; [reflexivity|]. split; [|reflexivity].
  eexists. split; [reflexivity|]. split; reflexivity.
Qed.

(** C6, on one frame with the atoms (-3,-3,-3) and (-1,-1,-1) and cell width
    1: the positions range over [-3, -1] on each axis, for which the formula
    gives 4, and [construct_grid] sets each dimension to 5; the origin it
    stores is (-3,-3,-3). *)
Theorem negative_positions_dims :
  exists g,
    construct_grid negative_traj 1 2 1 blank_grid = Done g
    /\ dimx g = 5%Z /\ dimy g = 5%Z /\ dimz g = 5%Z
    /\ dim_formula (-3) (-1) 1 = 4%Z
    /\ minx g = -3 /\ miny g = -3 /\ minz g = -3
    /\ scan_traj negative_traj 1 2 = (-3, -3, -3, FLT_MIN, FLT_MIN, FLT_MIN).
Proof.
  eexists. split; [vm_compute; reflexivity|]. vm_compute. repeat split.
Qed.

End GridFacts.

(** * Laws of the triangulator *)

Module DelaunayLaws.

Import Delaunay DelaunayFacts Grid GridFacts.

Section Rings.

Variable pts : list Q.

Lemma map_coord_set_adj (v : list vert) (i : nat) (r : list nat) :
  map coord (set_adj v i r) = map coord v.
Proof.
  unfold set_adj, vget.
  destruct (v !! i) as [c|] eqn:E.
  - change (map coord) with (fmap (M := list) coord).
    rewrite list_fmap_insert. cbn [default coord].
    apply list_insert_id. rewrite list_lookup_fmap, E. reflexivity.
  - rewrite list_insert_ge; [reflexivity|]. apply lookup_ge_None. exact E.
Qed.

Lemma set_adj_id (v : list vert) (i : nat) :
  set_adj v i (adj (vget v i)) = v.
Proof.
  unfold set_adj, vget. destruct (v !! i) as [[c r]|] eqn:E; cbn.
  - apply list_insert_id. exact E.
  - apply list_insert_ge. apply lookup_ge_None. exact E.
Qed.

Lemma set_adj_set_adj (v : list vert) (i : nat) (r r' : list nat) :
  set_adj (set_adj v i r) i r' = set_adj v i r'.
Proof.
  unfold set_adj at 1 3. 
  destruct (decide (i < length v)%nat) as [Hi|Hi].
  - unfold vget at 1, set_adj at 1.
    rewrite list_lookup_insert_eq by exact Hi. cbn [default coord].
    unfold set_adj. apply list_insert_insert_eq.
  - rewrite !list_insert_ge; rewrite ?length_set_adj; try lia.
    unfold set_adj. apply list_insert_ge. lia.
Qed.

Lemma set_adj_comm (v : list vert) (i j : nat) (r s : list nat) :
  i <> j -> set_adj (set_adj v i r) j s = set_adj (set_adj v j s) i r.
Proof.
  intros Hij. unfold set_adj at 1 3.
  rewrite !vget_set_adj_ne by congruence.
  unfold set_adj. apply list_insert_insert_ne. congruence.
Qed.

(** What [insertNode] does to the store: nothing, when it finds [in] in the
    ring, or one new node somewhere in the ring of [parent]. *)
Lemma insertNode_ring (v : list vert) (p x : nat) :
  (insertNode pts v p x = v /\ In x (adj (vget v p)))
  \/ exists l1 l2, adj (vget v p) = l1 ++ l2
                   /\ insertNode pts v p x = set_adj v p (l1 ++ x :: l2).
Proof.
  unfold insertNode.
  destruct (adj (vget v p)) as [|f r] eqn:Hr.
  - right. exists [], []. split; reflexivity.
  - destruct (rightOf_at pts v x p f).
    + right. destruct (_ =? 0)%nat.
      * exists [], (f :: r). split; reflexivity.
      * eexists. eexists. split; [|reflexivity]. symmetry. apply take_drop.
    + destruct (Nat.eqb_spec
                  (ring_at (f :: r)
                     (scan_next (fun c => leftOf_at pts v x p c) (tail (f :: r)) 1))
                  x) as [Heq|Hne].
      * left. split; [reflexivity|].
        cbn [tail] in Heq.
        destruct (scan_next_bound (fun c => leftOf_at pts v x p c) r 1) as [H0|Hb].
        -- rewrite H0 in Heq. cbn in Heq. subst f. now left.
        -- unfold ring_at in Heq.
           destruct (lookup_lt_is_Some_2 (f :: r)
                       (scan_next (fun c => leftOf_at pts v x p c) r 1)) as [y Hy];
             [cbn [length]; lia|].
           rewrite Hy in Heq. cbn in Heq. subst y.
           apply list_elem_of_In. eapply list_elem_of_lookup_2. exact Hy.
      * right. eexists. eexists. split; [|reflexivity]. symmetry. apply take_drop.
Qed.

Lemma insertNode_coord (v : list vert) (p x : nat) :
  map coord (insertNode pts v p x) = map coord v.
Proof.
  destruct (insertNode_ring v p x) as [[-> _]|(l1 & l2 & _ & ->)];
    [reflexivity|apply map_coord_set_adj].
Qed.

Lemma insertNode_In (v : list vert) (p x y : nat) :
  (p < length v)%nat ->
  In y (adj (vget (insertNode pts v p x) p)) <-> In y (adj (vget v p)) \/ y = x.
Proof.
  intros Hp.
  destruct (insertNode_ring v p x) as [[-> Hin]|(l1 & l2 & Hr & ->)].
  - split; [now left|]. intros [H| ->]; assumption.
  - rewrite vget_set_adj_eq by exact Hp. rewrite Hr.
    rewrite !in_app_iff. cbn [In]. intuition congruence.
Qed.

Lemma adjacent_In (v : list vert) (a b : nat) :
  adjacent v a b = true <-> In b (adj (vget v a)).
Proof.
  unfold adjacent. rewrite existsb_exists. split.
  - intros (y & Hy & Heq). apply Nat.eqb_eq in Heq. now subst y.
  - intros H. exists b. split; [exact H|apply Nat.eqb_refl].
Qed.

Lemma vget_out_of_range (v : list vert) (i : nat) :
  (length v <= i)%nat -> vget v i = mkVert 0 [].
Proof.
  intros Hi. unfold vget. rewrite (proj2 (lookup_ge_None v i)) by exact Hi.
  reflexivity.
Qed.

Lemma insertNode_out_of_range (v : list vert) (p x : nat) :
  (length v <= p)%nat -> insertNode pts v p x = v.
Proof.
  intros Hp. unfold insertNode. rewrite (vget_out_of_range v p Hp). cbn [adj].
  unfold set_adj. apply list_insert_ge. exact Hp.
Qed.

(** The adjacency relation after [insertNode(parent, in)]. *)
Lemma insertNode_adjacent_eq (v : list vert) (p x c d : nat) :
  (p < length v)%nat ->
  adjacent (insertNode pts v p x) c d
  = adjacent v c d || ((c =? p)%nat && (d =? x)%nat).
Proof.
  intros Hp. destruct (Nat.eqb_spec c p) as [->|Hc].
  - apply eq_true_iff_eq. rewrite orb_true_iff, !adjacent_In, insertNode_In by exact Hp.
    cbn [andb]. rewrite Nat.eqb_eq. reflexivity.
  - cbn [andb]. rewrite orb_false_r. unfold adjacent.
    rewrite insertNode_other by exact Hc. reflexivity.
Qed.

Lemma unlink_not_In (c : nat) :
  forall r : list nat, ~ In c r -> unlink c r = r.
Proof.
  induction r as [|y r IH]; intros H; cbn [unlink]; [reflexivity|].
  destruct (Nat.eqb_spec y c) as [->|Hne]; [exfalso; apply H; now left|].
  f_equal. apply IH. intros Hin. apply H. now right.
Qed.

Lemma unlink_app (c : nat) (l1 l2 : list nat) :
  ~ In c l1 -> unlink c (l1 ++ c :: l2) = l1 ++ l2.
Proof.
  induction l1 as [|y l1 IH]; intros H; cbn [unlink app].
  - now rewrite Nat.eqb_refl.
  - destruct (Nat.eqb_spec y c) as [->|Hne]; [exfalso; apply H; now left|].
    f_equal. apply IH. intros Hin. apply H. now right.
Qed.

Lemma unlink_In (c y : nat) :
  forall r : list nat, In y (unlink c r) -> In y r.
Proof.
  induction r as [|z r IH]; cbn [unlink]; [tauto|].
  destruct (z =? c)%nat; cbn [In]; tauto.
Qed.

Lemma unlink_keeps (c y : nat) :
  y <> c -> forall r : list nat, In y r -> In y (unlink c r).
Proof.
  intros Hy. induction r as [|z r IH]; cbn [unlink]; [tauto|].
  destruct (Nat.eqb_spec z c) as [->|Hne]; cbn [In]; intuition congruence.
Qed.

Lemma deleteNode_coord (v : list vert) (p c : nat) :
  map coord (deleteNode v p c) = map coord v.
Proof.
  unfold deleteNode. destruct (adj (vget v p)); [reflexivity|].
  apply map_coord_set_adj.
Qed.

Lemma deleteNode_set_adj (v : list vert) (p c : nat) :
  deleteNode v p c = set_adj v p (unlink c (adj (vget v p))).
Proof.
  unfold deleteNode. destruct (adj (vget v p)) as [|f r] eqn:Hr; [|reflexivity].
  cbn [unlink]. rewrite <- Hr. symmetry. apply set_adj_id.
Qed.

Lemma deleteNode_adjacent_other (v : list vert) (p x c d : nat) :
  (c, d) <> (p, x) -> adjacent (deleteNode v p x) c d = adjacent v c d.
Proof.
  intros Hcd. destruct (Nat.eq_dec c p) as [->|Hc].
  - assert (Hd : d <> x) by congruence.
    rewrite deleteNode_set_adj.
    destruct (decide (p < length v)%nat) as [Hp|Hp].
    + apply eq_true_iff_eq. rewrite !adjacent_In, vget_set_adj_eq by exact Hp.
      split; [apply unlink_In|apply unlink_keeps; exact Hd].
    + unfold set_adj. rewrite list_insert_ge by lia. reflexivity.
  - unfold adjacent. rewrite deleteNode_other by exact Hc. reflexivity.
Qed.

End Rings.

(** X2.  [insertNode(parent, in)] on a vertex of the array leaves [in] in the
    ring of [parent], keeps every neighbour the ring held and adds no other;
    the other vertices and all [coord] pointers are as before. *)
Theorem insertNode_members (pts : list Q) (v : list vert) (p x : nat) :
  (p < length v)%nat ->
  let v' := insertNode pts v p x in
  (forall y, In y (adj (vget v' p)) <-> In y (adj (vget v p)) \/ y = x)
  /\ (forall q, q <> p -> vget v' q = vget v q)
  /\ map coord v' = map coord v.
Proof.
  intros Hp v'. split; [|split].
  - intros y. apply insertNode_In. exact Hp.
  - intros q Hq. apply insertNode_other. exact Hq.
  - apply insertNode_coord.
Qed.

Lemma insertNode_members_witness :
  (0 < length (sorted_input corner_points))%nat
  /\ (forall y, In y (adj (vget (insertNode corner_points (sorted_input corner_points) 0 2) 0))
                <-> In y (adj (vget (sorted_input corner_points) 0)) \/ y = 2%nat).
Proof.
  assert (H : (0 < length (sorted_input corner_points))%nat) by (vm_compute; lia).
  split; [exact H|].
  exact (proj1 (insertNode_members corner_points (sorted_input corner_points) 0 2 H)).
Defined.

Lemma connectVerts_adjacent_eq (pts : list Q) (v : list vert) (a b c d : nat) :
  a <> b -> (a < length v)%nat -> (b < length v)%nat ->
  adjacent (connectVerts pts v (Some a) (Some b)) c d
  = adjacent v c d || ((c =? a)%nat && (d =? b)%nat) || ((c =? b)%nat && (d =? a)%nat).
Proof.
  intros Hab Ha Hb. cbn [connectVerts].
  destruct (Nat.eqb_spec a b) as [|_]; [contradiction|].
  rewrite insertNode_adjacent_eq by (rewrite insertNode_length; exact Hb).
  rewrite insertNode_adjacent_eq by exact Ha. reflexivity.
Qed.

Lemma connectVerts_coord (pts : list Q) (v : list vert) (a b : vptr) :
  map coord (connectVerts pts v a b) = map coord v.
Proof.
  destruct a as [a|], b as [b|]; cbn [connectVerts]; try reflexivity.
  destruct (a =? b)%nat; [reflexivity|].
  now rewrite !insertNode_coord.
Qed.

Lemma cutVerts_coord (v : list vert) (a b : vptr) :
  map coord (cutVerts v a b) = map coord v.
Proof.
  destruct a as [a|], b as [b|]; cbn [cutVerts]; try reflexivity.
  destruct (a =? b)%nat; [reflexivity|].
  now rewrite !deleteNode_coord.
Qed.

(** X3.  [connectVerts(a, b)] on two distinct vertices of the array adds the
    edge between them and changes no other adjacency: afterwards [c] lists
    [d] exactly when it did before or the pair is [(a, b)] or [(b, a)].  The
    [coord] pointers are as before. *)
Theorem connectVerts_adds_one_edge (pts : list Q) (v : list vert) (a b : nat) :
  a <> b -> (a < length v)%nat -> (b < length v)%nat ->
  let v' := connectVerts pts v (Some a) (Some b) in
  edge v' a b = true
  /\ (forall c d,
        adjacent v' c d
        = adjacent v c d || ((c =? a)%nat && (d =? b)%nat)
          || ((c =? b)%nat && (d =? a)%nat))
  /\ map coord v' = map coord v.
Proof.
  intros Hab Ha Hb v'. split; [|split].
  - unfold edge, v'. rewrite !connectVerts_adjacent_eq by assumption.
    rewrite !Nat.eqb_refl. cbn. rewrite !orb_true_r. reflexivity.
  - intros c d. apply connectVerts_adjacent_eq; assumption.
  - apply connectVerts_coord.
Qed.

Lemma connectVerts_adds_one_edge_witness :
  (0%nat <> 1%nat /\ (0 < length (sorted_input corner_points))%nat
   /\ (1 < length (sorted_input corner_points))%nat)
  /\ edge (connectVerts corner_points (sorted_input corner_points)
                        (Some 0%nat) (Some 1%nat)) 0 1 = true.
Proof.
  assert (H0 : 0%nat <> 1%nat) by discriminate.
  assert (H1 : (0 < length (sorted_input corner_points))%nat) by (vm_compute; lia).
  assert (H2 : (1 < length (sorted_input corner_points))%nat) by (vm_compute; lia).
  split; [split; [exact H0|split; [exact H1|exact H2]]|].
  exact (proj1 (connectVerts_adds_one_edge corner_points
                  (sorted_input corner_points) 0 1 H0 H1 H2)).
Defined.

(** X4.  [cutVerts(a, b)] on two distinct vertices whose rings hold no vertex
    twice removes the edge between them, both ways round, and changes no
    other adjacency; the [coord] pointers are as before. *)
Theorem cutVerts_removes_one_edge (v : list vert) (a b : nat) :
  a <> b -> (a < length v)%nat -> (b < length v)%nat ->
  NoDup (adj (vget v a)) -> NoDup (adj (vget v b)) ->
  let v' := cutVerts v (Some a) (Some b) in
  adjacent v' a b = false /\ adjacent v' b a = false
  /\ (forall c d, (c, d) <> (a, b) -> (c, d) <> (b, a) ->
        adjacent v' c d = adjacent v c d)
  /\ map coord v' = map coord v.
Proof.
  intros Hab Ha Hb Hna Hnb v'.
  destruct (cutVerts_symmetric v a b Hab Ha Hb Hna Hnb) as [H1 H2].
  split; [exact H1|]. split; [exact H2|]. split.
  - intros c d Hcd Hdc. unfold v'. cbn [cutVerts].
    destruct (Nat.eqb_spec a b) as [|_]; [contradiction|].
    rewrite deleteNode_adjacent_other by exact Hdc.
    apply deleteNode_adjacent_other. exact Hcd.
  - apply cutVerts_coord.
Qed.

Lemma cutVerts_removes_one_edge_witness :
  (0%nat <> 1%nat /\ (0 < length corner_store)%nat /\ (1 < length corner_store)%nat
   /\ NoDup (adj (vget corner_store 0)) /\ NoDup (adj (vget corner_store 1)))
  /\ adjacent (cutVerts corner_store (Some 0%nat) (Some 1%nat)) 0 1 = false
  /\ adjacent (cutVerts corner_store (Some 0%nat) (Some 1%nat)) 1 0 = false.
Proof.
  assert (H0 : 0%nat <> 1%nat) by discriminate.
  assert (H1 : (0 < length corner_store)%nat) by (vm_compute; lia).
  assert (H2 : (1 < length corner_store)%nat) by (vm_compute; lia).
  assert (H3 : NoDup (adj (vget corner_store 0))).
  { vm_compute. apply NoDup_cons_2; [|apply NoDup_cons_2; [|apply NoDup_nil_2]].
    - intros H. apply list_elem_of_In in H. cbn in H. lia.
    - intros H. apply list_elem_of_In in H. destruct H. }
  assert (H4 : NoDup (adj (vget corner_store 1))).
  { vm_compute. apply NoDup_cons_2; [|apply NoDup_cons_2; [|apply NoDup_nil_2]].
    - intros H. apply list_elem_of_In in H. cbn in H. lia.
    - intros H. apply list_elem_of_In in H. destruct H. }
  split; [repeat split; assumption|].
  destruct (cutVerts_removes_one_edge corner_store 0 1 H0 H1 H2 H3 H4)
    as (E1 & E2 & _).
  split; assumption.
Defined.

(** X5.  Cutting an edge right after connecting it restores the store:
    for two distinct vertices of which neither lists the other,
    [cutVerts(a, b)] after [connectVerts(a, b)] leaves every ring as it
    was. *)
Theorem connect_cut_round_trip (pts : list Q) (v : list vert) (a b : nat) :
  a <> b -> (a < length v)%nat -> (b < length v)%nat ->
  adjacent v a b = false -> adjacent v b a = false ->
  cutVerts (connectVerts pts v (Some a) (Some b)) (Some a) (Some b) = v.
Proof.
  intros Hab Ha Hb Hnab Hnba. cbn [connectVerts cutVerts].
  destruct (Nat.eqb_spec a b) as [|_]; [contradiction|].
  assert (Ha' : ~ In b (adj (vget v a)))
    by (rewrite <- adjacent_In, Hnab; discriminate).
  assert (Hb' : ~ In a (adj (vget v b)))
    by (rewrite <- adjacent_In, Hnba; discriminate).
  destruct (insertNode_ring pts v a b) as [[_ Hin]|(l1 & l2 & Hr1 & ->)];
    [contradiction|].
  set (v1 := set_adj v a (l1 ++ b :: l2)).
  assert (Hrb : adj (vget v1 b) = adj (vget v b))
    by (unfold v1; rewrite vget_set_adj_ne by exact Hab; reflexivity).
  destruct (insertNode_ring pts v1 b a) as [[_ Hin]|(m1 & m2 & Hr2 & ->)];
    [rewrite Hrb in Hin; contradiction|].
  rewrite Hrb in Hr2.
  set (v2 := set_adj v1 b (m1 ++ a :: m2)).
  assert (H2a : adj (vget v2 a) = l1 ++ b :: l2).
  { unfold v2. rewrite vget_set_adj_ne by congruence.
    unfold v1. apply vget_set_adj_eq. exact Ha. }
  assert (E3 : deleteNode v2 a b = set_adj v b (m1 ++ a :: m2)).
  { rewrite deleteNode_set_adj, H2a.
    rewrite unlink_app
      by (intros H; apply Ha'; rewrite Hr1; apply in_app_iff; now left).
    unfold v2. rewrite set_adj_comm by congruence.
    unfold v1. rewrite set_adj_set_adj. rewrite <- Hr1, set_adj_id. reflexivity. }
  rewrite E3. rewrite deleteNode_set_adj.
  rewrite vget_set_adj_eq by exact Hb.
  rewrite unlink_app
    by (intros H; apply Hb'; rewrite Hr2; apply in_app_iff; now left).
  rewrite set_adj_set_adj. rewrite <- Hr2. apply set_adj_id.
Qed.

Lemma connect_cut_round_trip_witness :
  (0%nat <> 2%nat /\ (0 < length (sorted_input corner_points))%nat
   /\ (2 < length (sorted_input corner_points))%nat
   /\ adjacent (sorted_input corner_points) 0 2 = false
   /\ adjacent (sorted_input corner_points) 2 0 = false)
  /\ cutVerts (connectVerts corner_points (sorted_input corner_points)
                            (Some 0%nat) (Some 2%nat)) (Some 0%nat) (Some 2%nat)
     = sorted_input corner_points.
Proof.
  assert (H0 : 0%nat <> 2%nat) by discriminate.
  assert (H1 : (0 < length (sorted_input corner_points))%nat) by (vm_compute; lia).
  assert (H2 : (2 < length (sorted_input corner_points))%nat) by (vm_compute; lia).
  assert (H3 : adjacent (sorted_input corner_points) 0 2 = false)
    by (vm_compute; reflexivity).
  assert (H4 : adjacent (sorted_input corner_points) 2 0 = false)
    by (vm_compute; reflexivity).
  split; [repeat split; assumption|].
  exact (connect_cut_round_trip corner_points (sorted_input corner_points) 0 2
           H0 H1 H2 H3 H4).
Defined.

(** X6.  [deleteNode(parent, child)] changes nothing when the ring of
    [parent] does not hold [child]. *)
Theorem deleteNode_absent_child (v : list vert) (p c : nat) :
  adjacent v p c = false -> deleteNode v p c = v.
Proof.
  intros H. rewrite deleteNode_set_adj.
  rewrite unlink_not_In by (rewrite <- adjacent_In, H; discriminate).
  apply set_adj_id.
Qed.

Lemma deleteNode_absent_child_witness :
  adjacent corner_store 0 0 = false /\ deleteNode corner_store 0 0 = corner_store.
Proof.
  assert (H : adjacent corner_store 0 0 = false) by (vm_compute; reflexivity).
  split; [exact H|]. exact (deleteNode_absent_child corner_store 0 0 H).
Defined.
Lemma find_unique {A} (f : A -> bool) (m : A) :
  forall l : list A, In m l -> f m = true ->
    (forall x, In x l -> f x = true -> x = m) -> find f l = Some m.
Proof.
  induction l as [|y l IH]; intros Hin Hm Huniq; [destruct Hin|].
  cbn [find]. destruct (f y) eqn:Hy.
  - f_equal. apply Huniq; [now left|exact Hy].
  - apply IH.
    + destruct Hin as [->|Hin]; [congruence|exact Hin].
    + exact Hm.
    + intros x Hx. apply Huniq. now right.
Qed.

Lemma find_all_false {A} (f : A -> bool) :
  forall l : list A, (forall x, In x l -> f x = false) -> find f l = None.
Proof.
  induction l as [|y l IH]; intros H; [reflexivity|].
  cbn [find]. rewrite (H y) by now left. apply IH. intros x Hx. apply H. now right.
Qed.

Lemma ring_at_lookup (r : list nat) (m j : nat) :
  r !! m = Some j -> ring_at r m = j.
Proof. intros H. unfold ring_at. now rewrite H. Qed.

Lemma ring_at_In (r : list nat) (m : nat) :
  (m < length r)%nat -> In (ring_at r m) r.
Proof.
  intros Hm. destruct (lookup_lt_is_Some_2 r m Hm) as [y Hy].
  rewrite (ring_at_lookup r m y Hy).
  apply list_elem_of_In. eapply list_elem_of_lookup_2. exact Hy.
Qed.

Lemma ring_at_lookup_lt (r : list nat) (m : nat) :
  (m < length r)%nat -> r !! m = Some (ring_at r m).
Proof.
  intros Hm. destruct (lookup_lt_is_Some_2 r m Hm) as [y Hy].
  now rewrite (ring_at_lookup r m y Hy).
Qed.

(** The positions [pred] visits are the positions of the ring. *)
Lemma pred_positions (n m : nat) :
  (0 < n)%nat -> In m (0%nat :: rev (seq 1 (n - 1))) <-> (m < n)%nat.
Proof.
  intros Hn. cbn [In]. rewrite <- in_rev, in_seq. lia.
Qed.

Lemma ring_next_lt (r : list nat) (m : nat) :
  (0 < length r)%nat -> (ring_next r m < length r)%nat.
Proof. intros H. unfold ring_next. apply Nat.mod_upper_bound. lia. Qed.

Lemma ring_prev_lt (r : list nat) (m : nat) :
  (0 < length r)%nat -> (ring_prev r m < length r)%nat.
Proof. intros H. unfold ring_prev. apply Nat.mod_upper_bound. lia. Qed.

Lemma ring_prev_next (r : list nat) (m : nat) :
  (m < length r)%nat -> ring_prev r (ring_next r m) = m.
Proof.
  intros Hm. unfold ring_prev, ring_next.
  destruct (Nat.eq_dec (S m) (length r)) as [E|E].
  - rewrite E, Nat.Div0.mod_same. cbn [Nat.add].
    rewrite Nat.mod_small by lia. lia.
  - rewrite (Nat.mod_small (S m)) by lia.
    replace (S m + length r - 1)%nat with (m + 1 * length r)%nat by lia.
    rewrite Nat.Div0.mod_add. apply Nat.mod_small. exact Hm.
Qed.

Lemma ring_next_prev (r : list nat) (m : nat) :
  (m < length r)%nat -> ring_next r (ring_prev r m) = m.
Proof.
  intros Hm. unfold ring_prev, ring_next.
  destruct m as [|m].
  - cbn [Nat.add]. rewrite (Nat.mod_small (length r - 1)) by lia.
    replace (S (length r - 1)) with (length r) by lia. apply Nat.Div0.mod_same.
  - replace (S m + length r - 1)%nat with (m + 1 * length r)%nat by lia.
    rewrite Nat.Div0.mod_add. rewrite (Nat.mod_small m) by lia.
    apply Nat.mod_small. exact Hm.
Qed.

Section Walk.

Variable v : list vert.
Variable i : nat.
Let r := adj (vget v i).

Lemma succ_at (j m : nat) :
  NoDup r -> r !! m = Some j ->
  succ v (Some i) (Some j) = Some (ring_at r (ring_next r m)).
Proof.
  intros Hnd Hm. cbn [succ]. fold r.
  assert (Hlt : (m < length r)%nat) by (eapply lookup_lt_Some; exact Hm).
  destruct r as [|f r'] eqn:Hr; [cbn in Hlt; lia|].
  rewrite (find_unique _ m); [reflexivity| | |].
  - apply in_seq. lia.
  - apply Nat.eqb_eq. apply ring_at_lookup. exact Hm.
  - intros x Hx Hfx. apply in_seq in Hx. apply Nat.eqb_eq in Hfx.
    apply (NoDup_lookup (f :: r') x m j Hnd); [|exact Hm].
    rewrite <- Hfx. apply ring_at_lookup_lt. lia.
Qed.

Lemma pred_at (j m : nat) :
  NoDup r -> r !! m = Some j ->
  pred v (Some i) (Some j) = Some (ring_at r (ring_prev r m)).
Proof.
  intros Hnd Hm. cbn [pred]. fold r.
  assert (Hlt : (m < length r)%nat) by (eapply lookup_lt_Some; exact Hm).
  destruct r as [|f r'] eqn:Hr; [cbn in Hlt; lia|].
  rewrite (find_unique _ m); [reflexivity| | |].
  - apply pred_positions; lia.
  - apply Nat.eqb_eq. apply ring_at_lookup. exact Hm.
  - intros x Hx Hfx. apply pred_positions in Hx; [|cbn [length]; lia].
    apply Nat.eqb_eq in Hfx.
    apply (NoDup_lookup (f :: r') x m j Hnd); [|exact Hm].
    rewrite <- Hfx. apply ring_at_lookup_lt. exact Hx.
Qed.

Lemma succ_None (j : nat) :
  succ v (Some i) (Some j) = None <-> ~ In j r.
Proof.
  cbn [succ]. fold r. destruct r as [|f r'] eqn:Hr; [cbn; tauto|].
  split.
  - intros H Hin.
    destruct (find _ _) eqn:Hf; [discriminate|].
    apply list_elem_of_In, list_elem_of_lookup_1 in Hin as [m Hm].
    pose proof (find_none _ _ Hf m) as Hfm. cbn beta in Hfm.
    rewrite (ring_at_lookup _ _ _ Hm), Nat.eqb_refl in Hfm.
    assert (m < length (f :: r'))%nat by (eapply lookup_lt_Some; exact Hm).
    discriminate Hfm. apply in_seq. lia.
  - intros Hnin. rewrite find_all_false; [reflexivity|].
    intros m Hm. apply in_seq in Hm. apply Nat.eqb_neq. intros E.
    apply Hnin. rewrite <- E. apply ring_at_In. lia.
Qed.

Lemma pred_None (j : nat) :
  pred v (Some i) (Some j) = None <-> ~ In j r.
Proof.
  cbn [pred]. fold r. destruct r as [|f r'] eqn:Hr; [cbn; tauto|].
  split.
  - intros H Hin.
    destruct (find _ _) eqn:Hf; [discriminate|].
    apply list_elem_of_In, list_elem_of_lookup_1 in Hin as [m Hm].
    pose proof (find_none _ _ Hf m) as Hfm. cbn beta in Hfm.
    rewrite (ring_at_lookup _ _ _ Hm), Nat.eqb_refl in Hfm.
    assert (m < length (f :: r'))%nat by (eapply lookup_lt_Some; exact Hm).
    discriminate Hfm. apply pred_positions; lia.
  - intros Hnin. rewrite find_all_false; [reflexivity|].
    intros m Hm. apply pred_positions in Hm; [|cbn [length]; lia].
    apply Nat.eqb_neq. intros E.
    apply Hnin. rewrite <- E. apply ring_at_In. exact Hm.
Qed.

End Walk.

(** X7.  On a ring that holds no vertex twice [succ] and [pred] are inverse
    to each other: for a neighbour [vj] of [vi], [succ(vi, vj)] is a
    neighbour whose [pred] is [vj], and [pred(vi, vj)] is a neighbour whose
    [succ] is [vj]. *)
Theorem succ_pred_inverse (v : list vert) (i j : nat) :
  NoDup (adj (vget v i)) -> In j (adj (vget v i)) ->
  (exists k, succ v (Some i) (Some j) = Some k
             /\ In k (adj (vget v i)) /\ pred v (Some i) (Some k) = Some j)
  /\ (exists k, pred v (Some i) (Some j) = Some k
                /\ In k (adj (vget v i)) /\ succ v (Some i) (Some k) = Some j).
Proof.
  intros Hnd Hin.
  apply list_elem_of_In, list_elem_of_lookup_1 in Hin as [m Hm].
  assert (Hlt : (m < length (adj (vget v i)))%nat) by (eapply lookup_lt_Some; exact Hm).
  assert (Hpos : (0 < length (adj (vget v i)))%nat) by lia.
  split.
  - exists (ring_at (adj (vget v i)) (ring_next (adj (vget v i)) m)).
    split; [apply succ_at; assumption|].
    split; [apply ring_at_In, ring_next_lt; exact Hpos|].
    rewrite (pred_at v i _ (ring_next (adj (vget v i)) m) Hnd)
      by (apply ring_at_lookup_lt, ring_next_lt; exact Hpos).
    rewrite ring_prev_next by exact Hlt.
    f_equal. apply ring_at_lookup. exact Hm.
  - exists (ring_at (adj (vget v i)) (ring_prev (adj (vget v i)) m)).
    split; [apply pred_at; assumption|].
    split; [apply ring_at_In, ring_prev_lt; exact Hpos|].
    rewrite (succ_at v i _ (ring_prev (adj (vget v i)) m) Hnd)
      by (apply ring_at_lookup_lt, ring_prev_lt; exact Hpos).
    rewrite ring_next_prev by exact Hlt.
    f_equal. apply ring_at_lookup. exact Hm.
Qed.

Lemma succ_pred_inverse_witness :
  (NoDup (adj (vget corner_store 0)) /\ In 1%nat (adj (vget corner_store 0)))
  /\ exists k, succ corner_store (Some 0%nat) (Some 1%nat) = Some k
               /\ pred corner_store (Some 0%nat) (Some k) = Some 1%nat.
Proof.
  assert (H3 : NoDup (adj (vget corner_store 0))).
  { vm_compute. apply NoDup_cons_2; [|apply NoDup_cons_2; [|apply NoDup_nil_2]].
    - intros H. apply list_elem_of_In in H. cbn in H. lia.
    - intros H. apply list_elem_of_In in H. destruct H. }
  assert (H4 : In 1%nat (adj (vget corner_store 0))) by (vm_compute; tauto).
  split; [split; assumption|].
  destruct (proj1 (succ_pred_inverse corner_store 0 1 H3 H4)) as (k & Hs & _ & Hp).
  exists k. split; assumption.
Defined.

(** X8.  [succ(vi, vj)] and [pred(vi, vj)] return null exactly when [vj] is
    not in the ring of [vi]. *)
Theorem succ_pred_null_iff_absent (v : list vert) (i j : nat) :
  (succ v (Some i) (Some j) = None <-> adjacent v i j = false)
  /\ (pred v (Some i) (Some j) = None <-> adjacent v i j = false).
Proof.
  assert (H : adjacent v i j = false <-> ~ In j (adj (vget v i))).
  { unfold adjacent. rewrite <- not_true_iff_false, existsb_exists. split.
    - intros Hn Hin. apply Hn. exists j. split; [exact Hin|apply Nat.eqb_refl].
    - intros Hn (y & Hy & Heq). apply Nat.eqb_eq in Heq. subst y. contradiction. }
  rewrite H. split; [apply succ_None|apply pred_None].
Qed.
Ltac step_bind H :=
  match type of H with
  | bind ?m _ = Done _ =>
      let E := fresh "E" in
      destruct m eqn:E; cbn [bind] in H; [|discriminate H]
  end.

Section CoreInvariant.

Variable pts : list Q.
Variable P : core_state -> Prop.
Hypothesis P_connect : forall s a b, P s -> P (do_connect pts s a b).
Hypothesis P_cut : forall s a b, P s -> P (do_cut s a b).

Lemma right_cand_loop_inv :
  forall (fuel : nat) (s : core_state) (li ri r1 r2 : vptr) s' r,
    P s -> right_cand_loop pts fuel s li ri r1 r2 = Done (s', r) -> P s'.
Proof.
  induction fuel as [|fuel IH]; intros s li ri r1 r2 s' r HP H; [discriminate|].
  cbn [right_cand_loop] in H. step_bind H.
  destruct a.
  - eapply IH; [|exact H]. apply P_cut. exact HP.
  - injection H as <- <-. exact HP.
Qed.

Lemma left_cand_loop_inv :
  forall (fuel : nat) (s : core_state) (li ri l1 l2 : vptr) s' l,
    P s -> left_cand_loop pts fuel s li ri l1 l2 = Done (s', l) -> P s'.
Proof.
  induction fuel as [|fuel IH]; intros s li ri l1 l2 s' l HP H; [discriminate|].
  cbn [left_cand_loop] in H. step_bind H.
  destruct a.
  - eapply IH; [|exact H]. apply P_cut. exact HP.
  - injection H as <- <-. exact HP.
Qed.

Lemma merge_loop_inv :
  forall (fuel : nat) (s : core_state) (li ri uctl uctr : vptr) s',
    P s -> merge_loop pts fuel s li ri uctl uctr = Done s' -> P s'.
Proof.
  induction fuel as [|fuel IH]; intros s li ri uctl uctr s' HP H; [discriminate|].
  cbn [merge_loop] in H.
  destruct (negb (vptr_eqb li uctl) || negb (vptr_eqb ri uctr));
    [|injection H as <-; exact HP].
  pose proof (P_connect s li ri HP) as HP1.
  set (s1 := do_connect pts s li ri) in *.
  step_bind H.
  assert (HA : forall sa r1a aa,
             (if a : bool
              then let* (s', r1') :=
                     right_cand_loop pts fuel s1 li ri (pred (fst s1) ri li)
                       (pred (fst s1) ri (pred (fst s1) ri li)) in
                   Done (s', r1', false)
              else Done (s1, pred (fst s1) ri li, true)) = Done (sa, r1a, aa) -> P sa).
  { intros sa r1a aa HA. destruct a.
    - step_bind HA. destruct a as [sx rx]. injection HA as <- <- <-.
      eapply right_cand_loop_inv; [exact HP1|exact E0].
    - injection HA as <- <- <-. exact HP1. }
  step_bind H. destruct a0 as [[sa r1a] aa]. specialize (HA _ _ _ eq_refl).
  step_bind H.
  assert (HB : forall sb l1b bb,
             (if a0 : bool
              then let* (s', l1') :=
                     left_cand_loop pts fuel sa li ri (succ (fst sa) li ri)
                       (succ (fst sa) li (succ (fst sa) li ri)) in
                   Done (s', l1', false)
              else Done (sa, succ (fst sa) li ri, true)) = Done (sb, l1b, bb) -> P sb).
  { intros sb l1b bb HB. destruct a0.
    - step_bind HB. destruct a0 as [sx lx]. injection HB as <- <- <-.
      eapply left_cand_loop_inv; [exact HA|exact E2].
    - injection HB as <- <- <-. exact HA. }
  step_bind H. destruct a1 as [[sb l1b] bb]. specialize (HB _ _ _ eq_refl).
  destruct aa; [eapply IH; [exact HB|exact H]|].
  destruct bb; [eapply IH; [exact HB|exact H]|].
  step_bind H.
  destruct (negb a1); eapply IH; [exact HB|exact H|exact HB|exact H].
Qed.

Lemma ord_dtriangulate_inv :
  forall (fuel : nat) (s : core_state) (ia ib : Z) s' lr,
    P s -> ord_dtriangulate pts fuel s ia ib = Done (s', lr) -> P s'.
Proof.
  induction fuel as [|fuel IH]; intros s ia ib s' lr HP H; [discriminate|].
  cbn [ord_dtriangulate] in H.
  destruct (ib - ia =? 1)%Z.
  { injection H as <- <-. apply P_connect. exact HP. }
  destruct (ib - ia =? 2)%Z.
  { step_bind H. step_bind H. injection H as <- <-.
    destruct (a || a0); repeat apply P_connect; exact HP. }
  destruct (3 <=? ib - ia)%Z; [|injection H as <- <-; exact HP].
  step_bind H. destruct a as [s1 [lo li]].
  step_bind H. destruct a as [s2 [ri ro]].
  step_bind H. destruct a as [lctl lctr].
  step_bind H. destruct a as [uctl uctr].
  step_bind H. injection H as <- <-.
  apply P_connect. eapply merge_loop_inv; [|exact E3].
  eapply IH; [|exact E0]. eapply IH; [|exact E]. exact HP.
Qed.

End CoreInvariant.

Lemma core_coord (pts : list Q) (fuel : nat) (v : list vert) (tr : list event)
  (ia ib : Z) s lr :
  ord_dtriangulate pts fuel (v, tr) ia ib = Done (s, lr) ->
  map coord (fst s) = map coord v.
Proof.
  apply (ord_dtriangulate_inv pts (fun s => map coord (fst s) = map coord v)).
  - intros s0 a b H. cbn. rewrite connectVerts_coord. exact H.
  - intros s0 a b H. cbn. rewrite cutVerts_coord. exact H.
  - reflexivity.
Qed.

Ltac Qltb_cases :=
  repeat match goal with
         | |- context [Qltb ?a ?b] =>
             let E := fresh "E" in
             destruct (Qltb a b) eqn:E;
             [apply Qltb_lt in E|apply Qltb_ge in E]
         end.

(** ** The comparator *)

Lemma dtsub_opp (a b : Q) : dtsub b a == - dtsub a b.
Proof.
  unfold dtsub. rewrite <- FloatFacts.round_opp.
  apply FloatFacts.round_compat. ring.
Qed.

Lemma dtsub_nonneg (a b : Q) : b <= a -> 0 <= dtsub a b.
Proof.
  intros H. unfold dtsub. apply FloatFacts.round_nonneg. lra.
Qed.

Lemma dtsub_nonpos (a b : Q) : a <= b -> dtsub a b <= 0.
Proof.
  intros H. unfold dtsub. apply FloatFacts.round_nonpos. lra.
Qed.

(** X1.  [compareVerts] returns 1 or -1 and never 0, and never -1 both ways
    round.  Where the difference of the x coordinates, as the machine
    computes it, is [DTEPSILON] or more in size, the result is the order of
    the x coordinates and the other way round gives the opposite; where it
    is less, a nonzero difference of the y coordinates decides in the same
    way.  So the result is 1 both ways round only for two vertices whose x
    coordinates differ by less than [DTEPSILON] and whose y coordinates
    have the difference zero.  The coordinates are those of the embedding,
    which hold no [-0.0]. *)
Theorem compareVerts_sign (pts : list Q) (a b : vert) :
  let dx := dtsub (XX pts a) (XX pts b) in
  let dy := dtsub (YY pts a) (YY pts b) in
  (compareVerts pts a b = 1%Z \/ compareVerts pts a b = (-1)%Z)
  /\ ~ (compareVerts pts a b = (-1)%Z /\ compareVerts pts b a = (-1)%Z)
  /\ (compareVerts pts a b = 1%Z /\ compareVerts pts b a = 1%Z ->
      - DTEPSILON < dx < DTEPSILON /\ dy == 0)
  /\ (~ - DTEPSILON < dx < DTEPSILON ->
      compareVerts pts a b = (if Qltb (XX pts a) (XX pts b) then -1 else 1)%Z
      /\ compareVerts pts b a = (- compareVerts pts a b)%Z)
  /\ (- DTEPSILON < dx < DTEPSILON -> ~ dy == 0 ->
      compareVerts pts a b = (if Qltb (YY pts a) (YY pts b) then -1 else 1)%Z
      /\ compareVerts pts b a = (- compareVerts pts a b)%Z).
Proof.
  intros dx dy. subst dx dy. unfold compareVerts.
  pose proof (dtsub_opp (XX pts a) (XX pts b)) as Ox.
  pose proof (dtsub_opp (YY pts a) (YY pts b)) as Oy.
  assert (Sx : Qltb (XX pts a) (XX pts b) = true -> dtsub (XX pts a) (XX pts b) <= 0).
  { intros H. apply Qltb_lt in H. apply dtsub_nonpos. lra. }
  assert (Sx' : Qltb (XX pts a) (XX pts b) = false -> 0 <= dtsub (XX pts a) (XX pts b)).
  { intros H. apply Qltb_ge in H. apply dtsub_nonneg. lra. }
  assert (Sy : Qltb (YY pts a) (YY pts b) = true -> dtsub (YY pts a) (YY pts b) <= 0).
  { intros H. apply Qltb_lt in H. apply dtsub_nonpos. lra. }
  assert (Sy' : Qltb (YY pts a) (YY pts b) = false -> 0 <= dtsub (YY pts a) (YY pts b)).
  { intros H. apply Qltb_ge in H. apply dtsub_nonneg. lra. }
  generalize dependent (Qltb (XX pts a) (XX pts b)).
  generalize dependent (Qltb (YY pts a) (YY pts b)).
  generalize dependent (dtsub (XX pts b) (XX pts a)).
  generalize dependent (dtsub (YY pts b) (YY pts a)).
  generalize dependent (dtsub (XX pts a) (XX pts b)).
  generalize dependent (dtsub (YY pts a) (YY pts b)).
  intros dy dx dy' Oy dx' Ox by_ Sy Sy' bx Sx Sx'.
  assert (He : 0 < DTEPSILON) by reflexivity.
  generalize dependent DTEPSILON. intros e He.
  destruct (Qltb dx e) eqn:A1; [apply Qltb_lt in A1|apply Qltb_ge in A1];
  (destruct (Qltb (- e) dx) eqn:A2; [apply Qltb_lt in A2|apply Qltb_ge in A2]);
  (destruct (Qltb dx' e) eqn:B1; [apply Qltb_lt in B1|apply Qltb_ge in B1]);
  (destruct (Qltb (- e) dx') eqn:B2; [apply Qltb_lt in B2|apply Qltb_ge in B2]);
  cbn [andb]; try (exfalso; lra); Qltb_cases;
  try (exfalso; lra);
  (destruct bx;
   [pose proof (Sx eq_refl)|pose proof (Sx' eq_refl)]; try (exfalso; lra));
  (destruct by_;
   [pose proof (Sy eq_refl)|pose proof (Sy' eq_refl)]; try (exfalso; lra));
  (split; [auto|]);
  (split; [intros [H1 H2]; try discriminate; lra|]);
  (split; [intros [H1 H2]; try discriminate; try (split; lra)|]);
  (split; [intros H1; try (exfalso; apply H1; lra); try (split; reflexivity)
          |intros H1 H2; try (exfalso; lra); try (exfalso; apply H2; lra);
           try (split; reflexivity)]).
Qed.

Lemma connectVerts_length (pts : list Q) (v : list vert) (a b : vptr) :
  length (connectVerts pts v a b) = length v.
Proof.
  rewrite <- (length_map coord), connectVerts_coord. apply length_map.
Qed.

Lemma cutVerts_length (v : list vert) (a b : vptr) :
  length (cutVerts v a b) = length v.
Proof.
  rewrite <- (length_map coord), cutVerts_coord. apply length_map.
Qed.

Lemma coord_vget (v : list vert) (k : nat) :
  coord (vget v k) = default 0%nat (map coord v !! k).
Proof.
  unfold vget. change (map coord v) with (coord <$> v).
  rewrite list_lookup_fmap. destruct (v !! k); reflexivity.
Qed.

Lemma pt_same_coord (pts : list Q) (v v' : list vert) (k : nat) :
  map coord v' = map coord v -> pt pts (vget v' k) = pt pts (vget v k).
Proof.
  intros H. unfold pt, XX, YY. rewrite !coord_vget, H. reflexivity.
Qed.

Lemma ccw_at_same_coord (pts : list Q) (v v' : list vert) (a b c : nat) :
  map coord v' = map coord v -> ccw_at pts v' a b c = ccw_at pts v a b c.
Proof.
  intros H. unfold ccw_at. now rewrite !(pt_same_coord pts v v' _ H).
Qed.

Lemma adjacent_empty (v : list vert) (a d : nat) :
  adj (vget v a) = [] -> adjacent v a d = false.
Proof. intros H. unfold adjacent. now rewrite H. Qed.

Lemma orient2d_swap (pa pb pc : point) :
  orient2d pa pc pb == - orient2d pa pb pc.
Proof. unfold orient2d. ring. Qed.

Ltac eqb_cases :=
  repeat match goal with
         | |- context [(?x =? ?y)%nat] =>
             destruct (Nat.eqb_spec x y); try lia
         end.

(** X9.  The three-point base case of [ord_dtriangulate] on three vertices
    without neighbours: it returns the first and the last as leftmost and
    rightmost, leaves the edges between consecutive vertices, and leaves the
    edge between the first and the last exactly when the three points are
    not collinear; in either case the two ends agree on it. *)
Theorem three_vertex_base_case (pts : list Q) (fuel : nat) (v : list vert)
  (tr : list event) (a : nat) :
  (a + 2 < length v)%nat ->
  adj (vget v a) = [] -> adj (vget v (a + 1)) = [] -> adj (vget v (a + 2)) = [] ->
  exists s,
    ord_dtriangulate pts (S fuel) (v, tr) (Z.of_nat a) (Z.of_nat a + 2)
    = Done (s, (Some a, Some (a + 2)%nat))
    /\ edge (fst s) a (a + 1) = true
    /\ edge (fst s) (a + 1) (a + 2) = true
    /\ adjacent (fst s) a (a + 2) = adjacent (fst s) (a + 2) a
    /\ (edge (fst s) a (a + 2) = true
        <-> ~ orient2d (pt pts (vget v a)) (pt pts (vget v (a + 1)))
                       (pt pts (vget v (a + 2))) == 0).
Proof.
  intros Hlen H0 H1 H2.
  cbn [ord_dtriangulate].
  replace (Z.of_nat a + 2 - Z.of_nat a)%Z with 2%Z by lia.
  cbn [Z.eqb Pos.eqb].
  rewrite Nat2Z.id.
  replace (Z.to_nat (Z.of_nat a + 1)) with (a + 1)%nat by lia.
  replace (Z.to_nat (Z.of_nat a + 2)) with (a + 2)%nat by lia.
  unfold do_connect. cbn [fst snd ccw deref bind].
  set (v1 := connectVerts pts v (Some a) (Some (a + 1)%nat)).
  set (v2 := connectVerts pts v1 (Some (a + 1)%nat) (Some (a + 2)%nat)).
  assert (L1 : length v1 = length v) by apply connectVerts_length.
  assert (L2 : length v2 = length v)
    by (unfold v2; rewrite connectVerts_length; exact L1).
  assert (C2 : map coord v2 = map coord v)
    by (unfold v2, v1; now rewrite !connectVerts_coord).
  rewrite !(ccw_at_same_coord pts v v2) by exact C2.
  assert (A2 : forall c d,
             adjacent v2 c d
             = ((c =? a)%nat && (d =? a + 1)%nat) || ((c =? a + 1)%nat && (d =? a)%nat)
               || ((c =? a + 1)%nat && (d =? a + 2)%nat)
               || ((c =? a + 2)%nat && (d =? a + 1)%nat)
               || adjacent v c d).
  { intros c d. unfold v2. rewrite connectVerts_adjacent_eq by lia.
    unfold v1. rewrite connectVerts_adjacent_eq by lia.
    destruct (adjacent v c d); eqb_cases; reflexivity. }
  assert (Z0 : forall d, adjacent v a d = false) by (intros d; now apply adjacent_empty).
  assert (Z2 : forall d, adjacent v (a + 2) d = false)
    by (intros d; now apply adjacent_empty).
  assert (Z1 : forall d, adjacent v (a + 1) d = false)
    by (intros d; now apply adjacent_empty).
  set (o := orient2d (pt pts (vget v a)) (pt pts (vget v (a + 1)))
                     (pt pts (vget v (a + 2)))).
  assert (Hc : ccw_at pts v a (a + 1) (a + 2) || ccw_at pts v a (a + 2) (a + 1) = true
               <-> ~ o == 0).
  { unfold ccw_at. rewrite orb_true_iff, !Qltb_lt. fold o.
    pose proof (orient2d_swap (pt pts (vget v a)) (pt pts (vget v (a + 1)))
                  (pt pts (vget v (a + 2)))) as Hs. fold o in Hs.
    split.
    - intros [H|H] E; lra.
    - intros E. destruct (Qlt_le_dec 0 o) as [H|H]; [now left|right].
      destruct (Qeq_dec o 0) as [E'|E']; [contradiction|]. lra. }
  destruct (ccw_at pts v a (a + 1) (a + 2) || ccw_at pts v a (a + 2) (a + 1)).
  - eexists. split; [reflexivity|]. cbn [fst].
    unfold edge. rewrite !connectVerts_adjacent_eq by lia. rewrite !A2, !Z0, !Z1, !Z2.
    repeat split; eqb_cases; try reflexivity.
    all: try (intros _; apply Hc; reflexivity).
  - eexists. split; [reflexivity|]. cbn [fst].
    unfold edge. rewrite !A2, !Z0, !Z1, !Z2.
    repeat split; eqb_cases; try reflexivity; try discriminate.
    intros H. apply Hc in H. discriminate.
Qed.

Lemma three_vertex_base_case_witness :
  ((0 + 2 < length (sorted_input corner_points))%nat
   /\ adj (vget (sorted_input corner_points) 0) = []
   /\ adj (vget (sorted_input corner_points) (0 + 1)) = []
   /\ adj (vget (sorted_input corner_points) (0 + 2)) = [])
  /\ exists s,
       ord_dtriangulate corner_points 1 (sorted_input corner_points, [])
                        (Z.of_nat 0) (Z.of_nat 0 + 2)
       = Done (s, (Some 0%nat, Some (0 + 2)%nat))
       /\ edge (fst s) 0 (0 + 1) = true /\ edge (fst s) (0 + 1) (0 + 2) = true.
Proof.
  assert (H0 : (0 + 2 < length (sorted_input corner_points))%nat)
    by (vm_compute; lia).
  assert (H1 : adj (vget (sorted_input corner_points) 0) = [])
    by (vm_compute; reflexivity).
  assert (H2 : adj (vget (sorted_input corner_points) (0 + 1)) = [])
    by (vm_compute; reflexivity).
  assert (H3 : adj (vget (sorted_input corner_points) (0 + 2)) = [])
    by (vm_compute; reflexivity).
  split; [repeat split; assumption|].
  destruct (three_vertex_base_case corner_points 0 (sorted_input corner_points) []
              0 H0 H1 H2 H3) as (s & Hrun & He1 & He2 & _).
  exists s. split; [exact Hrun|]. split; assumption.
Defined.
(** ** The triangle extractor *)

Lemma vget_nonempty_lt (v : list vert) (k : nat) :
  adj (vget v k) <> [] -> (k < length v)%nat.
Proof.
  intros H. destruct (Nat.lt_ge_cases k (length v)) as [Hlt|Hge]; [exact Hlt|].
  rewrite (vget_out_of_range v k Hge) in H. now contradiction H.
Qed.

Lemma coord_vget_In (v : list vert) (k : nat) :
  (k < length v)%nat -> In (coord (vget v k)) (map coord v).
Proof.
  intros Hk. destruct (lookup_lt_is_Some_2 v k Hk) as [c Hc].
  unfold vget. rewrite Hc. cbn [default]. apply in_map.
  apply list_elem_of_In. eapply list_elem_of_lookup_2. exact Hc.
Qed.

Lemma INDEX_ok (n : nat) (v : list vert) (k : nat) :
  Forall (fun c => S c < n)%nat (map coord v) -> (k < length v)%nat ->
  index_ok n (INDEX (vget v k)).
Proof.
  intros Hv Hk. rewrite Forall_forall in Hv.
  specialize (Hv _ (proj2 (list_elem_of_In _ _) (coord_vget_In v k Hk))).
  unfold index_ok, INDEX. cbn beta in Hv.
  pose proof (Z.mul_div_le (Z.of_nat (coord (vget v k))) 2 ltac:(lia)).
  split; [apply Z.div_pos; lia|lia].
Qed.

Section Extractor.

Variable pts : list Q.
Variable n : nat.

Lemma tri_ring_indices (v : list vert) (i : nat) (r : list nat) (cap : Z) :
  Forall (fun c => S c < n)%nat (map coord v) -> (i < length v)%nat ->
  forall (todo m : nat) (tris tris' : list Z),
    Forall (index_ok n) tris -> (exists k, length tris = 3 * k)%nat ->
    tri_ring pts todo v i r m cap tris = Done tris' ->
    Forall (index_ok n) tris' /\ (exists k, length tris' = 3 * k)%nat.
Proof.
  intros Hv Hi. induction todo as [|todo IH]; intros m tris tris' Hok Hlen H.
  - injection H as <-. split; assumption.
  - cbn [tri_ring] in H.
    destruct (adj (vget v (ring_at r m))) as [|x1 r1] eqn:E1;
      [eapply IH; eassumption|].
    destruct (adj (vget v (ring_at r (ring_next r m)))) as [|x2 r2] eqn:E2;
      [eapply IH; eassumption|].
    destruct ((ring_next r m =? 0)%nat
              && negb (rightOf_at pts v (ring_at r m) i (ring_at r (ring_next r m)))).
    { injection H as <-. split; assumption. }
    destruct (Z.of_nat (length tris) + 3 <=? cap)%Z; [|discriminate].
    eapply IH; [| |exact H].
    + apply Forall_app. split; [exact Hok|].
      assert (Hm : (ring_at r m < length v)%nat)
        by (apply vget_nonempty_lt; congruence).
      assert (Hm' : (ring_at r (ring_next r m) < length v)%nat)
        by (apply vget_nonempty_lt; congruence).
      constructor; [|constructor; [|constructor; [|constructor]]];
        apply INDEX_ok; assumption.
    + destruct Hlen as [k Hk]. exists (S k). rewrite length_app, Hk. cbn. lia.
Qed.

Lemma tri_verts_spec (cap : Z) :
  forall (todo : nat) (v : list vert) (i : nat) (tris : list Z) v' tris',
    Forall (fun c => S c < n)%nat (map coord v) ->
    Forall (index_ok n) tris -> (exists k, length tris = 3 * k)%nat ->
    tri_verts pts todo v i cap tris = Done (v', tris') ->
    Forall (index_ok n) tris' /\ (exists k, length tris' = 3 * k)%nat
    /\ map coord v' = map coord v
    /\ (forall j, (i <= j < i + todo)%nat -> adj (vget v' j) = [])
    /\ (forall j, (j < i \/ i + todo <= j)%nat -> vget v' j = vget v j).
Proof.
  induction todo as [|todo IH]; intros v i tris v' tris' Hv Hok Hlen H.
  - injection H as <- <-. repeat split; try assumption. intros j Hj. lia.
  - cbn [tri_verts] in H.
    destruct (match adj (vget v i) with
              | _ :: _ :: _ => tri_ring pts (length (adj (vget v i))) v i
                                 (adj (vget v i)) 0 cap tris
              | _ => Done tris
              end) as [tris1|] eqn:E; [|discriminate].
    cbn [bind] in H.
    assert (H1 : Forall (index_ok n) tris1 /\ (exists k, length tris1 = 3 * k)%nat).
    { destruct (adj (vget v i)) as [|x1 [|x2 r]] eqn:Er;
        try (injection E as <-; split; assumption).
      eapply (tri_ring_indices v i); try eassumption.
      apply vget_nonempty_lt. congruence. }
    destruct H1 as [Hok1 Hlen1].
    apply IH in H; try assumption;
      [|unfold deleteAdj; rewrite map_coord_set_adj; exact Hv].
    destruct H as (Ha & Hb & Hc & Hd & He).
    split; [exact Ha|]. split; [exact Hb|].
    unfold deleteAdj in *. rewrite map_coord_set_adj in Hc.
    split; [exact Hc|]. split.
    + intros j Hj. destruct (Nat.eq_dec j i) as [->|Hne].
      * rewrite He by lia.
        destruct (Nat.lt_ge_cases i (length v)) as [Hlt|Hge].
        -- apply vget_set_adj_eq. exact Hlt.
        -- rewrite vget_out_of_range by (rewrite length_set_adj; exact Hge).
           reflexivity.
      * apply Hd. lia.
    + intros j Hj. rewrite He by lia. apply vget_set_adj_ne. lia.
Qed.

End Extractor.

Lemma coords_bounded (l : list nat) :
  exists n, forall c, In c l -> (S c < n)%nat.
Proof.
  induction l as [|c l [n IH]]; [exists 0%nat; intros c []|].
  exists (Nat.max (S (S c)) n). intros c' [<-|Hc]; [lia|].
  specialize (IH c' Hc). lia.
Qed.

(** X12.  [convertTrisFreeAdj] frees the ring of every one of the [nverts]
    vertices and leaves the rest of the array and all [coord] pointers as
    they were; the array it fills holds a whole number of index triples. *)
Theorem convertTrisFreeAdj_frees_rings (pts : list Q) (v : list vert) (nv : Z)
  (v' : list vert) (tris : list Z) :
  convertTrisFreeAdj pts v nv = Done (v', tris) ->
  (forall j, (Z.of_nat j < nv)%Z -> adj (vget v' j) = [])
  /\ (forall j, (nv <= Z.of_nat j)%Z -> vget v' j = vget v j)
  /\ map coord v' = map coord v
  /\ (exists k, length tris = 3 * k)%nat.
Proof.
  unfold convertTrisFreeAdj. intros H.
  destruct (coords_bounded (map coord v)) as [n Hn].
  apply (tri_verts_spec pts n) in H.
  - destruct H as (_ & Hb & Hc & Hd & He).
    split; [intros j Hj; apply Hd; lia|].
    split; [intros j Hj; apply He; lia|]. split; assumption.
  - apply Forall_forall. intros c Hc. apply list_elem_of_In in Hc. now apply Hn.
  - constructor.
  - exists 0%nat. reflexivity.
Qed.

Lemma convertTrisFreeAdj_frees_rings_witness :
  exists v' tris,
    convertTrisFreeAdj corner_points corner_store 3 = Done (v', tris)
    /\ (forall j, (Z.of_nat j < 3)%Z -> adj (vget v' j) = [])
    /\ map coord v' = map coord corner_store.
Proof.
  destruct (convertTrisFreeAdj corner_points corner_store 3) as [[v' tris]|f] eqn:E;
    [|vm_compute in E; discriminate E].
  exists v', tris. split; [reflexivity|].
  destruct (convertTrisFreeAdj_frees_rings corner_points corner_store 3 v' tris E)
    as (Hfree & _ & Hc & _).
  split; assumption.
Defined.
(** ** The duplicate-removal pass and the entry point *)

Lemma offset_of_Done (tri : dTriangulation) (p : option Z) (k : nat) :
  offset_of tri p = Done k -> (S k < length (points tri))%nat.
Proof.
  unfold offset_of, Layout.sizeof_dtreal. destruct p as [p|]; [|discriminate].
  destruct (Z.leb_spec 0 (p - points_ptr tri)); [|discriminate].
  destruct ((p - points_ptr tri) mod 8 =? 0)%Z; [|discriminate].
  destruct (Z.ltb_spec ((p - points_ptr tri) / 8 + 1)
              (Z.of_nat (length (points tri)))); [|discriminate].
  cbn [andb]. intros [= <-].
  assert (0 <= (p - points_ptr tri) / 8)%Z by (apply Z.div_pos; lia). lia.
Qed.

Lemma read_verts_valid (tri : dTriangulation) :
  forall (v : list (option Z)) (n : nat) (vs : list vert),
    read_verts tri v n = Done vs ->
    Forall (fun c => S c < length (points tri))%nat (map coord vs)
    /\ Forall (fun c => adj c = []) vs.
Proof.
  induction v as [|p v IH]; intros [|n] vs H; cbn [read_verts] in H;
    try (injection H as <-; split; constructor).
  destruct (offset_of tri p) as [c|] eqn:Ec; [|discriminate]. cbn [bind] in H.
  destruct (read_verts tri v n) as [rest|] eqn:Er; [|discriminate].
  cbn [bind] in H. injection H as <-.
  destruct (IH _ _ Er) as [H1 H2]. apply offset_of_Done in Ec.
  split; constructor; assumption || reflexivity.
Qed.

Lemma memmove_verts_length (v v' : list (option Z)) (i n : nat) :
  Layout.memmove_verts v i n = Done v' -> length v' = length v.
Proof.
  unfold Layout.memmove_verts.
  destruct (Layout.memmove _ _ _ _); [|discriminate].
  cbn [bind]. intros [= <-]. rewrite length_map. apply length_seq.
Qed.

Lemma verts_bytes_length (v : list (option Z)) :
  length (Layout.verts_bytes v) = (Layout.sizeof_vert * length v)%nat.
Proof.
  unfold Layout.verts_bytes, Layout.sizeof_vert.
  induction v as [|p v IH]; [reflexivity|].
  cbn [flat_map length]. rewrite length_app, IH.
  destruct p; cbn; lia.
Qed.

(** The [memmove] of the pass writes inside the array. *)
Lemma memmove_verts_Done (v : list (option Z)) (i n : nat) :
  (Layout.sizeof_vert * i + n <= Layout.sizeof_vert * length v)%nat ->
  exists v', Layout.memmove_verts v i n = Done v'.
Proof.
  intros H. unfold Layout.memmove_verts, Layout.memmove.
  rewrite verts_bytes_length.
  destruct (Nat.leb_spec (Layout.sizeof_vert * i + n)
              (Layout.sizeof_vert * length v)) as [_|C]; [|lia].
  cbn [bind]. eexists. reflexivity.
Qed.

Lemma dedup_loop_bounds (tri : dTriangulation) :
  forall (fuel : nat) (v : list (option Z)) (i : nat) (nv : Z) v' nv',
    (Z.of_nat i <= nv)%Z ->
    dedup_loop tri fuel v i nv = Done (v', nv') ->
    (Z.of_nat i <= nv' <= nv)%Z /\ length v' = length v.
Proof.
  induction fuel as [|fuel IH]; intros v i nv v' nv' Hi H; [discriminate|].
  cbn [dedup_loop] in H.
  destruct (Z.ltb_spec (Z.of_nat i) nv) as [Hlt|Hge];
    [|injection H as <- <-; split; [lia|reflexivity]].
  destruct (offset_of tri _) as [ci|]; [|discriminate]. cbn [bind] in H.
  destruct (offset_of tri _) as [cj|]; [|discriminate]. cbn [bind] in H.
  destruct (duplicate tri ci cj).
  - destruct (Layout.memmove_verts v i _) as [v1|] eqn:Em; [|discriminate].
    cbn [bind] in H. apply IH in H; [|lia].
    apply memmove_verts_length in Em. split; [lia|]. destruct H as [_ ->]. exact Em.
  - apply IH in H; [|lia]. split; [lia|]. apply H.
Qed.

Lemma dedup_bounds (tri : dTriangulation) (v0 : list vert)
  (v : list (option Z)) (nv : Z) :
  (1 <= npoints tri)%Z -> dedup_from tri v0 = Done (v, nv) ->
  (1 <= nv <= npoints tri)%Z.
Proof.
  intros Hn H. unfold dedup_from in H. apply dedup_loop_bounds in H; [|lia]. lia.
Qed.

(** X14.  The second diagnostic of [dtriangulate] always reports one point:
    when the duplicate-removal pass leaves fewer than [MINPOINTS] vertices
    it leaves exactly one, [nverts] is 1 on return, no other diagnostic is
    printed, and the triangle fields are as on entry. *)
Theorem nonduplicate_diagnostic_reports_one (fuel : nat) (tri out : dTriangulation)
  (n : Z) (ds : list diagnostic) :
  dtriangulate fuel tri = Done (out, OnlyNonDuplicate n :: ds) ->
  n = 1%Z /\ nverts out = 1%Z /\ ds = [] /\ (MINPOINTS <= npoints tri)%Z
  /\ triangles out = triangles tri /\ ntriangles out = ntriangles tri.
Proof.
  unfold dtriangulate, dtriangulate_from, MINPOINTS.
  destruct (Z.ltb_spec (npoints tri) 2) as [Hlt|Hge]; [discriminate|].
  destruct (dedup_from tri _) as [[v nv]|] eqn:Ed; [|discriminate]. cbn [bind].
  apply dedup_bounds in Ed; [|lia].
  destruct (Z.ltb_spec nv 2) as [Hlt|Hge'].
  - intros [= <- <- <-]. cbn. repeat split; lia.
  - destruct (read_verts _ _ _) as [vs|]; [|discriminate]. cbn [bind].
    unfold triangulate_verts.
    destruct (ord_dtriangulate _ _ _ _ _) as [[s lr]|]; [|discriminate]. cbn [bind].
    destruct (convertTrisFreeAdj _ _ _) as [[v1 tris]|]; [|discriminate]. cbn [bind].
    discriminate.
Qed.

Lemma nonduplicate_diagnostic_reports_one_witness :
  dtriangulate 0 (input 4096 [0; 0; 0; 0; 0; 0] 0 [] 0)
  = Done (with_nverts (input 4096 [0; 0; 0; 0; 0; 0] 0 [] 0) 1, [OnlyNonDuplicate 1])
  /\ nverts (with_nverts (input 4096 [0; 0; 0; 0; 0; 0] 0 [] 0) 1) = 1%Z.
Proof.
  assert (E : dtriangulate 0 (input 4096 [0; 0; 0; 0; 0; 0] 0 [] 0)
              = Done (with_nverts (input 4096 [0; 0; 0; 0; 0; 0] 0 [] 0) 1,
                      [OnlyNonDuplicate 1])) by (vm_compute; reflexivity).
  split; [exact E|].
  exact (proj1 (proj2 (nonduplicate_diagnostic_reports_one 0 _ _ 1 [] E))).
Defined.

(** X13.  When [dtriangulate] returns without a diagnostic, the point array,
    its address and [npoints] are as on entry, [nverts] lies between
    [MINPOINTS] and [npoints], the triangle array holds exactly
    [3 * ntriangles] indices, and every index names a point stored in the
    point array. *)
Theorem dtriangulate_output_well_formed (fuel : nat) (tri out : dTriangulation) :
  dtriangulate fuel tri = Done (out, []) ->
  points_ptr out = points_ptr tri /\ points out = points tri
  /\ npoints out = npoints tri
  /\ (MINPOINTS <= nverts out <= npoints tri)%Z
  /\ Z.of_nat (length (triangles out)) = (3 * ntriangles out)%Z
  /\ Forall (index_ok (length (points tri))) (triangles out).
Proof.
  unfold dtriangulate, dtriangulate_from, MINPOINTS.
  destruct (Z.ltb_spec (npoints tri) 2) as [Hlt|Hge]; [discriminate|].
  destruct (dedup_from tri _) as [[v nv]|] eqn:Ed; [|discriminate]. cbn [bind].
  apply dedup_bounds in Ed; [|lia].
  destruct (Z.ltb_spec nv 2) as [Hlt|Hge']; [discriminate|].
  destruct (read_verts _ _ _) as [vs|] eqn:Er; [|discriminate]. cbn [bind].
  apply read_verts_valid in Er as [Hvs _]. cbn [points] in Hvs.
  unfold triangulate_verts. cbn [points points_ptr npoints].
  destruct (ord_dtriangulate _ _ _ _ _) as [[s lr]|] eqn:Eo; [|discriminate].
  cbn [bind]. apply core_coord in Eo.
  destruct (convertTrisFreeAdj _ _ _) as [[v1 tris]|] eqn:Ec; [|discriminate].
  cbn [bind]. intros [= <-]. cbn.
  unfold convertTrisFreeAdj in Ec.
  apply (tri_verts_spec (points tri) (length (points tri))) in Ec;
    [|rewrite Eo; exact Hvs|constructor|exists 0%nat; reflexivity].
  destruct Ec as (Hok & [k Hk] & _).
  repeat split; try lia; [|exact Hok].
  rewrite Hk. rewrite Nat2Z.inj_mul. change (Z.of_nat 3) with 3%Z.
  rewrite (Z.mul_comm 3), Z.div_mul by lia. lia.
Qed.

Lemma dtriangulate_output_well_formed_witness :
  exists out,
    dtriangulate 1 (input 4096 corner_points 0 [] 0) = Done (out, [])
    /\ Z.of_nat (length (triangles out)) = (3 * ntriangles out)%Z
    /\ Forall (index_ok (length (points (input 4096 corner_points 0 [] 0))))
              (triangles out).
Proof.
  destruct (dtriangulate 1 (input 4096 corner_points 0 [] 0)) as [[out ds]|f] eqn:E;
    [|vm_compute in E; discriminate E].
  assert (Hds : ds = []).
  { pose proof E as E'. vm_compute in E'. injection E' as _ E'. symmetry. exact E'. }
  subst ds. exists out. split; [reflexivity|].
  destruct (dtriangulate_output_well_formed 1 (input 4096 corner_points 0 [] 0) out E)
    as (_ & _ & _ & _ & Hlen & Hok).
  split; assumption.
Defined.

(** *** Inputs without duplicates, in any order *)

Lemma sort_insert_perm (cmp : vert -> vert -> Z) (x : vert) (l : list vert) :
  Permutation (sort_insert cmp x l) (x :: l).
Proof.
  induction l as [|y l IH]; [reflexivity|].
  cbn [sort_insert]. destruct (cmp x y <? 0)%Z; [reflexivity|].
  rewrite IH. apply perm_swap.
Qed.

(** The embedding's sort leaves the elements it was given. *)
Lemma qsort_perm (cmp : vert -> vert -> Z) (l : list vert) :
  Permutation (qsort cmp l) l.
Proof.
  unfold qsort. induction l as [|x l IH]; [reflexivity|].
  cbn [foldr]. rewrite sort_insert_perm. now rewrite IH.
Qed.

Lemma sorted_verts_perm (tri : dTriangulation) :
  Permutation (sorted_verts tri) (unsorted_verts tri).
Proof. apply qsort_perm. Qed.

Lemma duplicate_sym (tri : dTriangulation) (ci cj : nat) :
  duplicate tri ci cj = duplicate tri cj ci.
Proof.
  unfold duplicate.
  pose proof (dtsub_opp (rd (points tri) ci) (rd (points tri) cj)) as Ox.
  pose proof (dtsub_opp (rd (points tri) (S ci)) (rd (points tri) (S cj))) as Oy.
  generalize dependent (dtsub (rd (points tri) cj) (rd (points tri) ci)).
  generalize dependent (dtsub (rd (points tri) (S cj)) (rd (points tri) (S ci))).
  generalize (dtsub (rd (points tri) ci) (rd (points tri) cj))
             (dtsub (rd (points tri) (S ci)) (rd (points tri) (S cj))).
  intros a b d Oy c Ox. apply eq_true_iff_eq.
  rewrite !andb_true_iff, !Qltb_lt. split; intros; lra.
Qed.

Lemma no_adjacent_dup_distinct (tri : dTriangulation) (n : nat) :
  forallb (fun i =>
             forallb (fun j => (i =? j)%nat
                               || negb (duplicate tri (2 * i) (2 * j)))
                     (seq 0 n))
          (seq 0 n) = true ->
  forall cs : list nat,
    NoDup cs -> Forall (fun c => exists i, (i < n)%nat /\ c = (2 * i)%nat) cs ->
    no_adjacent_dup tri cs = true.
Proof.
  intros Hd. induction cs as [|c0 [|c1 rest] IH]; intros Hnd Hin;
    [reflexivity|reflexivity|].
  cbn [no_adjacent_dup]. apply andb_true_iff. split.
  - apply NoDup_cons in Hnd as [Hn0 _].
    inversion Hin as [|? ? (i & Hi & ->) Hin']; subst.
    inversion Hin' as [|? ? (j & Hj & ->) _]; subst.
    rewrite forallb_forall in Hd.
    specialize (Hd j ltac:(apply in_seq; lia)).
    rewrite forallb_forall in Hd.
    specialize (Hd i ltac:(apply in_seq; lia)).
    destruct (Nat.eqb_spec j i) as [->|_].
    + exfalso. apply Hn0. left.
    + exact Hd.
  - apply IH.
    + apply NoDup_cons in Hnd as [_ Hnd]. exact Hnd.
    + inversion Hin; assumption.
Qed.

(** An input without duplicates is left alone by the pass, in whatever
    order its vertices are. *)
Lemma distinct_clean_from (tri : dTriangulation) (v0 : list vert) :
  distinct tri = true -> Permutation v0 (unsorted_verts tri) ->
  clean_from tri v0 = true.
Proof.
  unfold distinct, clean_from. intros H Hp.
  apply andb_true_iff in H as [H Hd]. apply andb_true_iff in H as [Hmin Hlen].
  apply Nat.leb_le in Hlen.
  set (n := Z.to_nat (npoints tri)) in *.
  assert (Hin : forall x, In x v0 -> exists i, (i < n)%nat /\ x = mkVert (2 * i) []).
  { intros x Hx. apply (Permutation_in _ Hp) in Hx.
    unfold unsorted_verts in Hx. apply in_map_iff in Hx as (i & <- & Hi).
    apply in_seq in Hi. exists i. split; [lia|reflexivity]. }
  rewrite Hmin. cbn [andb].
  apply andb_true_iff. split; [apply andb_true_iff; split|].
  - apply Nat.eqb_eq. rewrite (Permutation_length Hp).
    unfold unsorted_verts. rewrite length_map, length_seq. reflexivity.
  - apply forallb_forall. intros x Hx.
    destruct (Hin x Hx) as (i & Hi & ->). cbn [adj coord andb].
    apply Nat.ltb_lt. lia.
  - apply (no_adjacent_dup_distinct tri n Hd).
    + rewrite Hp. unfold unsorted_verts. rewrite map_map. cbn [coord].
      apply NoDup_fmap_2; [intros a b E; lia|apply NoDup_seq].
    + apply Forall_forall. intros c Hc. apply list_elem_of_In in Hc.
      apply in_map_iff in Hc as (x & <- & Hx).
      destruct (Hin x Hx) as (i & Hi & ->). exists i. split; [exact Hi|reflexivity].
Qed.

(** X15.  On an input of at least [MINPOINTS] points, all inside the point
    array, no two of which are duplicates of each other, the
    duplicate-removal pass moves nothing, in whatever order [qsort] left
    the array: [nverts] is [npoints], and a run that returns prints no
    diagnostic. *)
Theorem distinct_points_all_kept (fuel : nat) (tri : dTriangulation)
  (v0 : list vert) :
  distinct tri = true -> Permutation v0 (unsorted_verts tri) ->
  dedup_from tri v0
  = Done (map (fun c => Some (addr_of tri (coord c))) v0, npoints tri)
  /\ forall out ds, dtriangulate_from fuel tri v0 = Done (out, ds) ->
       nverts out = npoints tri /\ ds = [].
Proof.
  intros Hd Hp. pose proof (distinct_clean_from tri v0 Hd Hp) as Hclean. split.
  - apply dedup_from_clean. exact Hclean.
  - intros out ds. rewrite dtriangulate_from_clean by exact Hclean.
    unfold triangulate_verts.
    destruct (ord_dtriangulate _ _ _ _ _) as [[s lr]|]; [|discriminate]. cbn [bind].
    destruct (convertTrisFreeAdj _ _ _) as [[v1 tris]|]; [|discriminate]. cbn [bind].
    intros [= <- <-]. split; reflexivity.
Qed.

Lemma distinct_points_all_kept_witness :
  (distinct (input 4096 corner_points 0 [] 0) = true
   /\ Permutation (sorted_verts (input 4096 corner_points 0 [] 0))
                  (unsorted_verts (input 4096 corner_points 0 [] 0)))
  /\ forall out ds,
       dtriangulate 1 (input 4096 corner_points 0 [] 0) = Done (out, ds) ->
       nverts out = 3%Z /\ ds = [].
Proof.
  assert (H : distinct (input 4096 corner_points 0 [] 0) = true)
    by (vm_compute; reflexivity).
  pose proof (sorted_verts_perm (input 4096 corner_points 0 [] 0)) as Hp.
  split; [split; assumption|].
  exact (proj2 (distinct_points_all_kept 1 (input 4096 corner_points 0 [] 0)
                  (sorted_verts (input 4096 corner_points 0 [] 0)) H Hp)).
Defined.

(** *** Two points *)

Lemma unsorted_verts_two (tri : dTriangulation) (v0 : list vert) :
  npoints tri = 2%Z -> Permutation v0 (unsorted_verts tri) ->
  v0 = [mkVert 0 []; mkVert 2 []] \/ v0 = [mkVert 2 []; mkVert 0 []].
Proof.
  intros Hn Hp. unfold unsorted_verts in Hp. rewrite Hn in Hp.
  change (Z.to_nat 2) with 2%nat in Hp. cbn [seq map Nat.mul Nat.add] in Hp.
  symmetry in Hp. apply Permutation_length_2_inv in Hp. exact Hp.
Qed.

(** X16.  Called on two points that are duplicates of each other,
    [dtriangulate] prints its second diagnostic with the count 1 and returns
    with [nverts = 1] and every other field as on entry, in whichever order
    [qsort] left the two.  (The [memmove] of the pass reads the two bytes
    that follow the array; they land in [v[1]], which is not read
    again.) *)
Theorem two_coincident_points_diagnostic (fuel : nat) (tri : dTriangulation)
  (v0 : list vert) :
  npoints tri = 2%Z -> (4 <= length (points tri))%nat ->
  duplicate tri 2 0 = true -> Permutation v0 (unsorted_verts tri) ->
  dtriangulate_from fuel tri v0 = Done (with_nverts tri 1, [OnlyNonDuplicate 1]).
Proof.
  intros Hn Hlen Hdup Hp. unfold dtriangulate_from, MINPOINTS. rewrite Hn.
  cbn [Z.ltb Z.compare Pos.compare Pos.compare_cont].
  assert (Hd : exists v, dedup_from tri v0 = Done (v, 1%Z)).
  { unfold dedup_from. rewrite Hn. change (Z.to_nat 2) with 2%nat.
    assert (Hstep : forall c0 c1, (S c0 < length (points tri))%nat ->
              (S c1 < length (points tri))%nat -> duplicate tri c1 c0 = true ->
              exists v, dedup_loop tri 2 [Some (addr_of tri c0); Some (addr_of tri c1)]
                                   1 2 = Done (v, 1%Z)).
    { intros c0 c1 H0 H1 Hd.
      destruct (memmove_verts_Done [Some (addr_of tri c0); Some (addr_of tri c1)]
                  1 2 ltac:(cbn; lia)) as [v' Hv'].
      exists v'.
      change (dedup_loop tri 2 [Some (addr_of tri c0); Some (addr_of tri c1)] 1 2)
        with (let* ci := offset_of tri (Some (addr_of tri c1)) in
              let* cj := offset_of tri (Some (addr_of tri c0)) in
              if duplicate tri ci cj then
                let* v' := Layout.memmove_verts
                             [Some (addr_of tri c0); Some (addr_of tri c1)] 1 2 in
                dedup_loop tri 1 v' 1 1
              else dedup_loop tri 1 [Some (addr_of tri c0); Some (addr_of tri c1)] 2 2).
      rewrite !offset_of_addr_of by assumption. cbn [bind]. rewrite Hd.
      rewrite Hv'. reflexivity. }
    destruct (unsorted_verts_two tri v0 Hn Hp) as [-> | ->]; cbn [map coord].
    - apply Hstep; [lia|lia|exact Hdup].
    - apply Hstep; [lia|lia|]. rewrite duplicate_sym. exact Hdup. }
  destruct Hd as [v Hd]. rewrite Hd. cbn [bind].
  cbn [Z.ltb Z.compare Pos.compare Pos.compare_cont].
  unfold with_nverts. rewrite Hn. reflexivity.
Qed.

Lemma two_coincident_points_diagnostic_witness :
  (npoints (input 4096 twin_points 0 [] 0) = 2%Z
   /\ (4 <= length (points (input 4096 twin_points 0 [] 0)))%nat
   /\ duplicate (input 4096 twin_points 0 [] 0) 2 0 = true
   /\ Permutation (sorted_verts (input 4096 twin_points 0 [] 0))
                  (unsorted_verts (input 4096 twin_points 0 [] 0)))
  /\ dtriangulate 0 (input 4096 twin_points 0 [] 0)
     = Done (with_nverts (input 4096 twin_points 0 [] 0) 1, [OnlyNonDuplicate 1]).
Proof.
  assert (H0 : npoints (input 4096 twin_points 0 [] 0) = 2%Z) by reflexivity.
  assert (H1 : (4 <= length (points (input 4096 twin_points 0 [] 0)))%nat)
    by (vm_compute; lia).
  assert (H2 : duplicate (input 4096 twin_points 0 [] 0) 2 0 = true)
    by (vm_compute; reflexivity).
  pose proof (sorted_verts_perm (input 4096 twin_points 0 [] 0)) as Hp.
  split; [split; [exact H0|split; [exact H1|split; [exact H2|exact Hp]]]|].
  exact (two_coincident_points_diagnostic 0 (input 4096 twin_points 0 [] 0)
           (sorted_verts (input 4096 twin_points 0 [] 0)) H0 H1 H2 Hp).
Defined.

(** ** Three vertices *)

Lemma Qltb_compat (a a' b b' : Q) :
  a == a' -> b == b' -> Qltb a b = Qltb a' b'.
Proof.
  intros Ha Hb. apply eq_true_iff_eq. rewrite !Qltb_lt, Ha, Hb. reflexivity.
Qed.

Lemma Qltb_asym (a b : Q) : Qltb a b = true -> Qltb b a = false.
Proof. rewrite Qltb_lt, Qltb_ge. apply Qlt_le_weak. Qed.

Lemma ccw_rot1 (a b c : point) :
  Qltb 0 (orient2d c a b) = Qltb 0 (orient2d a b c).
Proof. apply Qltb_compat; [reflexivity|unfold orient2d; ring]. Qed.

Lemma ccw_rot2 (a b c : point) :
  Qltb 0 (orient2d b c a) = Qltb 0 (orient2d a b c).
Proof. apply Qltb_compat; [reflexivity|unfold orient2d; ring]. Qed.

Lemma Qltb_opp (x y : Q) : y == - x -> Qltb 0 y = Qltb x 0.
Proof.
  intros H. apply eq_true_iff_eq. rewrite !Qltb_lt, H. split; intros; lra.
Qed.

Lemma ccw_swap (a b c : point) :
  Qltb 0 (orient2d a c b) = Qltb (orient2d a b c) 0.
Proof. apply Qltb_opp. unfold orient2d. ring. Qed.

Lemma ccw_rev (a b c : point) :
  Qltb 0 (orient2d c b a) = Qltb (orient2d a b c) 0.
Proof. apply Qltb_opp. unfold orient2d. ring. Qed.

Lemma ccw_swap2 (a b c : point) :
  Qltb 0 (orient2d b a c) = Qltb (orient2d a b c) 0.
Proof. apply Qltb_opp. unfold orient2d. ring. Qed.

Lemma insertNode_empty (pts : list Q) (v : list vert) (p x : nat) :
  adj (vget v p) = [] -> insertNode pts v p x = set_adj v p [x].
Proof. intros H. unfold insertNode. now rewrite H. Qed.

Lemma insertNode_single (pts : list Q) (v : list vert) (p x f : nat) :
  adj (vget v p) = [f] -> f <> x ->
  insertNode pts v p x
  = set_adj v p (if rightOf_at pts v x p f then [x; f] else [f; x]).
Proof.
  intros H Hfx. unfold insertNode. rewrite H.
  destruct (rightOf_at pts v x p f); [reflexivity|].
  cbn. destruct (Nat.eqb_spec f x) as [|_]; [contradiction|]. reflexivity.
Qed.

(** The [do ... while] of the extractor on a ring of two nodes. *)
Lemma tri_ring_pair (pts : list Q) (v : list vert) (i p q : nat) (cap : Z)
  (tris : list Z) :
  adj (vget v p) <> [] -> adj (vget v q) <> [] ->
  (Z.of_nat (length tris) + 6 <= cap)%Z ->
  tri_ring pts 2 v i [p; q] 0 cap tris
  = Done (tris ++ [INDEX (vget v i); INDEX (vget v p); INDEX (vget v q)]
               ++ (if rightOf_at pts v q i p
                   then [INDEX (vget v i); INDEX (vget v q); INDEX (vget v p)]
                   else [])).
Proof.
  intros Hp Hq Hcap. cbn [tri_ring].
  change (ring_at [p; q] 0) with p.
  change (ring_at [p; q] (ring_next [p; q] 0)) with q.
  change (ring_at [p; q] 1) with q.
  change (ring_at [p; q] (ring_next [p; q] 1)) with p.
  change (ring_next [p; q] 0) with 1%nat.
  change (ring_next [p; q] 1) with 0%nat.
  destruct (adj (vget v p)) as [|x1 r1]; [contradiction|].
  destruct (adj (vget v q)) as [|x2 r2]; [contradiction|].
  cbn [Nat.eqb andb].
  destruct (Z.leb_spec (Z.of_nat (length tris) + 3) cap) as [_|]; [|lia].
  destruct (rightOf_at pts v q i p); cbn [negb].
  - destruct (Z.leb_spec (Z.of_nat (length (tris ++ [INDEX (vget v i); INDEX (vget v p);
                                                      INDEX (vget v q)])) + 3) cap)
      as [_|H]; [|rewrite length_app in H; cbn [length] in H; lia].
    rewrite <- app_assoc. reflexivity.
  - rewrite app_nil_r. reflexivity.
Qed.

Lemma tri_ring_pair_freed (pts : list Q) (v : list vert) (i p q : nat) (cap : Z)
  (tris : list Z) :
  adj (vget v p) = [] \/ adj (vget v q) = [] ->
  tri_ring pts 2 v i [p; q] 0 cap tris = Done tris.
Proof.
  intros H. cbn [tri_ring].
  change (ring_at [p; q] 0) with p.
  change (ring_at [p; q] (ring_next [p; q] 0)) with q.
  change (ring_at [p; q] 1) with q.
  change (ring_at [p; q] (ring_next [p; q] 1)) with p.
  destruct H as [H|H]; rewrite H;
    destruct (adj (vget v p)), (adj (vget v q)); reflexivity.
Qed.

Section Three.

Variable pts : list Q.
Variables c0 c1 c2 : nat.

Let P0 : point := pt pts (mkVert c0 []).
Let P1 : point := pt pts (mkVert c1 []).
Let P2 : point := pt pts (mkVert c2 []).
Let pos : bool := Qltb 0 (orient2d P0 P1 P2).
Let neg : bool := Qltb (orient2d P0 P1 P2) 0.

Lemma pos_neg : pos = true -> neg = false.
Proof. apply Qltb_asym. Qed.

Lemma three_linked_unfold :
  three_linked pts c0 c1 c2
  = three c0 c1 c2
      (if pos || neg then (if neg then [2; 1] else [1; 2]) else [1])%nat
      (if pos then [2; 0] else [0; 2])%nat
      (if pos || neg then (if pos then [0; 1] else [1; 0]) else [1])%nat.
Proof. reflexivity. Qed.

Lemma three_base_case (fuel : nat) (tr : list event) :
  exists tr',
    ord_dtriangulate pts (S fuel) (three c0 c1 c2 [] [] [], tr) 0 2
    = Done ((three_linked pts c0 c1 c2, tr'), (Some 0%nat, Some 2%nat)).
Proof.
  cbn [ord_dtriangulate].
  change (2 - 0 =? 1)%Z with false. change (2 - 0 =? 2)%Z with true. cbv iota.
  change (Z.to_nat 0) with 0%nat. change (Z.to_nat (0 + 1)) with 1%nat.
  change (Z.to_nat 2) with 2%nat.
  unfold do_connect. cbn [fst snd connectVerts Nat.eqb].
  rewrite (insertNode_empty pts (three c0 c1 c2 [] [] []) 0 1) by reflexivity.
  change (set_adj (three c0 c1 c2 [] [] []) 0 [1%nat]) with (three c0 c1 c2 [1%nat] [] []).
  rewrite (insertNode_empty pts (three c0 c1 c2 [1%nat] [] []) 1 0) by reflexivity.
  change (set_adj (three c0 c1 c2 [1%nat] [] []) 1 [0%nat]) with (three c0 c1 c2 [1%nat] [0%nat] []).
  rewrite (insertNode_single pts (three c0 c1 c2 [1%nat] [0%nat] []) 1 2 0)
    by (reflexivity || discriminate).
  change (rightOf_at pts (three c0 c1 c2 [1%nat] [0%nat] []) 2 1 0)
    with (Qltb 0 (orient2d P2 P0 P1)).
  rewrite (ccw_rot1 P0 P1 P2). fold pos.
  change (set_adj (three c0 c1 c2 [1%nat] [0%nat] []) 1 (if pos then [2; 0] else [0; 2])%nat)
    with (three c0 c1 c2 [1%nat] (if pos then [2; 0] else [0; 2])%nat []).
  rewrite (insertNode_empty pts (three c0 c1 c2 [1%nat] (if pos then [2; 0] else [0; 2])%nat [])
             2 1) by reflexivity.
  change (set_adj (three c0 c1 c2 [1%nat] (if pos then [2; 0] else [0; 2])%nat []) 2 [1%nat])
    with (three c0 c1 c2 [1%nat] (if pos then [2; 0] else [0; 2])%nat [1%nat]).
  cbn [ccw deref bind].
  change (ccw_at pts (three c0 c1 c2 [1%nat] (if pos then [2; 0] else [0; 2])%nat [1%nat]) 0 1 2)
    with pos.
  change (ccw_at pts (three c0 c1 c2 [1%nat] (if pos then [2; 0] else [0; 2])%nat [1%nat]) 0 2 1)
    with (Qltb 0 (orient2d P0 P2 P1)).
  rewrite (ccw_swap P0 P1 P2). fold neg.
  rewrite three_linked_unfold.
  destruct (pos || neg); [|eexists; reflexivity].
  cbn [fst snd].
  rewrite (insertNode_single pts _ 0 2 1) by (reflexivity || discriminate).
  change (rightOf_at pts (three c0 c1 c2 [1%nat] (if pos then [2; 0] else [0; 2])%nat [1%nat])
            2 0 1) with (Qltb 0 (orient2d P2 P1 P0)).
  rewrite (ccw_rev P0 P1 P2). fold neg.
  change (set_adj (three c0 c1 c2 [1%nat] (if pos then [2; 0] else [0; 2])%nat [1%nat]) 0
            (if neg then [2; 1] else [1; 2])%nat)
    with (three c0 c1 c2 (if neg then [2; 1] else [1; 2])%nat
                (if pos then [2; 0] else [0; 2])%nat [1%nat]).
  rewrite (insertNode_single pts _ 2 0 1) by (reflexivity || discriminate).
  change (rightOf_at pts (three c0 c1 c2 (if neg then [2; 1] else [1; 2])%nat
                                (if pos then [2; 0] else [0; 2])%nat [1%nat]) 0 2 1)
    with pos.
  eexists. reflexivity.
Qed.

(** What the extractor makes of that store. *)
Lemma three_extracted :
  exists v',
    convertTrisFreeAdj pts (three_linked pts c0 c1 c2) 3
    = Done (v', if pos then [INDEX (mkVert c0 []); INDEX (mkVert c1 []);
                             INDEX (mkVert c2 [])]
                else if neg then [INDEX (mkVert c0 []); INDEX (mkVert c2 []);
                                  INDEX (mkVert c1 [])]
                else []).
Proof.
  unfold convertTrisFreeAdj. rewrite three_linked_unfold.
  change (3 * (2 * (3 - 1) - 2))%Z with 6%Z. change (Z.to_nat 3) with 3%nat.
  pose proof pos_neg as Hpn.
  destruct pos eqn:Epos; [rewrite (Hpn eq_refl)|destruct neg eqn:Eneg];
    cbn [orb]; cbn [tri_verts].
  - (* counterclockwise *)
    change (adj (vget (three c0 c1 c2 [1; 2] [2; 0] [0; 1]) 0))%nat with [1; 2]%nat.
    cbv iota. change (length [1; 2]%nat) with 2%nat.
    rewrite tri_ring_pair by (discriminate || (cbn; lia)).
    change (rightOf_at pts (three c0 c1 c2 [1; 2] [2; 0] [0; 1]) 2 0 1)%nat
      with (Qltb 0 (orient2d P2 P1 P0)).
    rewrite (ccw_rev P0 P1 P2). fold neg. rewrite (Hpn eq_refl).
    cbn [bind app].
    change (deleteAdj (three c0 c1 c2 [1; 2] [2; 0] [0; 1]) 0)%nat
      with (three c0 c1 c2 [] [2; 0] [0; 1])%nat.
    change (adj (vget (three c0 c1 c2 [] [2; 0] [0; 1]) 1))%nat with [2; 0]%nat.
    cbv iota. change (length [2; 0]%nat) with 2%nat.
    rewrite tri_ring_pair_freed by (right; reflexivity).
    cbn [bind].
    change (deleteAdj (three c0 c1 c2 [] [2; 0] [0; 1]) 1)%nat with (three c0 c1 c2 [] [] [0; 1])%nat.
    change (adj (vget (three c0 c1 c2 [] [] [0; 1]) 2))%nat with [0; 1]%nat.
    cbv iota. change (length [0; 1]%nat) with 2%nat.
    rewrite tri_ring_pair_freed by (left; reflexivity).
    cbn [bind]. eexists. reflexivity.
  - (* clockwise *)
    change (adj (vget (three c0 c1 c2 [2; 1] [0; 2] [1; 0]) 0))%nat with [2; 1]%nat.
    cbv iota. change (length [2; 1]%nat) with 2%nat.
    rewrite tri_ring_pair by (discriminate || (cbn; lia)).
    change (rightOf_at pts (three c0 c1 c2 [2; 1] [0; 2] [1; 0]) 1 0 2)%nat
      with (Qltb 0 (orient2d P1 P2 P0)).
    rewrite (ccw_rot2 P0 P1 P2). fold pos. rewrite Epos.
    cbn [bind app].
    change (deleteAdj (three c0 c1 c2 [2; 1] [0; 2] [1; 0]) 0)%nat
      with (three c0 c1 c2 [] [0; 2] [1; 0])%nat.
    change (adj (vget (three c0 c1 c2 [] [0; 2] [1; 0]) 1))%nat with [0; 2]%nat.
    cbv iota. change (length [0; 2]%nat) with 2%nat.
    rewrite tri_ring_pair_freed by (left; reflexivity).
    cbn [bind].
    change (deleteAdj (three c0 c1 c2 [] [0; 2] [1; 0]) 1)%nat with (three c0 c1 c2 [] [] [1; 0])%nat.
    change (adj (vget (three c0 c1 c2 [] [] [1; 0]) 2))%nat with [1; 0]%nat.
    cbv iota. change (length [1; 0]%nat) with 2%nat.
    rewrite tri_ring_pair_freed by (right; reflexivity).
    cbn [bind]. eexists. reflexivity.
  - (* collinear *)
    change (adj (vget (three c0 c1 c2 [1] [0; 2] [1]) 0))%nat with [1%nat].
    cbv iota. cbn [bind].
    change (deleteAdj (three c0 c1 c2 [1] [0; 2] [1]) 0)%nat with (three c0 c1 c2 [] [0; 2] [1])%nat.
    change (adj (vget (three c0 c1 c2 [] [0; 2] [1]) 1))%nat with [0; 2]%nat.
    cbv iota. change (length [0; 2]%nat) with 2%nat.
    rewrite tri_ring_pair_freed by (left; reflexivity).
    cbn [bind].
    change (deleteAdj (three c0 c1 c2 [] [0; 2] [1]) 1)%nat with (three c0 c1 c2 [] [] [1])%nat.
    change (adj (vget (three c0 c1 c2 [] [] [1]) 2))%nat with [1%nat].
    cbv iota. cbn [bind]. eexists. reflexivity.
Qed.

End Three.
Lemma perm3 (a b c : Z) :
  Permutation [a; b; c] [a; b; c] /\ Permutation [a; c; b] [a; b; c]
  /\ Permutation [b; a; c] [a; b; c] /\ Permutation [b; c; a] [a; b; c]
  /\ Permutation [c; a; b] [a; b; c] /\ Permutation [c; b; a] [a; b; c].
Proof.
  assert (S1 : Permutation [a; c; b] [a; b; c]) by (apply perm_skip, perm_swap).
  assert (S2 : Permutation [b; a; c] [a; b; c]) by apply perm_swap.
  assert (S3 : Permutation [b; c; a] [a; b; c]).
  { apply perm_trans with [b; a; c]; [apply perm_skip, perm_swap|exact S2]. }
  assert (S4 : Permutation [c; a; b] [a; b; c]).
  { apply perm_trans with [a; c; b]; [apply perm_swap|exact S1]. }
  assert (S5 : Permutation [c; b; a] [a; b; c]).
  { apply perm_trans with [b; c; a]; [apply perm_swap|exact S3]. }
  repeat split; try assumption. reflexivity.
Qed.

(** The three vertices of a three-point input, in any order. *)
Lemma unsorted_verts_three (tri : dTriangulation) (v0 : list vert) :
  npoints tri = 3%Z -> Permutation v0 (unsorted_verts tri) ->
  exists c0 c1 c2,
    v0 = three c0 c1 c2 [] [] []
    /\ In (c0, c1, c2) [(0, 2, 4); (0, 4, 2); (2, 0, 4); (2, 4, 0); (4, 0, 2); (4, 2, 0)]%nat.
Proof.
  intros Hn Hp. unfold unsorted_verts in Hp. rewrite Hn in Hp.
  change (Z.to_nat 3) with 3%nat in Hp. cbn [seq map Nat.mul Nat.add] in Hp.
  destruct (Permutation_vs_cons_inv Hp) as (l1 & l2 & ->).
  symmetry in Hp. apply Permutation_cons_app_inv in Hp.
  apply Permutation_length_2_inv in Hp.
  unfold three.
  destruct l1 as [|x [|y [|z l1]]]; cbn [app] in Hp |- *;
    destruct Hp as [Hp|Hp]; try discriminate Hp;
    repeat match goal with
           | H : _ :: _ = _ :: _ |- _ => injection H as ? H; subst
           | H : [] = _ :: _ |- _ => discriminate H
           | H : _ ++ _ = [] |- _ => apply app_eq_nil in H as [? ?]; subst
           | H : [] = _ ++ _ |- _ => symmetry in H
           end; subst;
    eexists; eexists; eexists; (split; [reflexivity|]); cbn [In]; tauto.
Qed.

Ltac orient_ring :=
  unfold orient2d, point_at, pt, XX, YY; cbn [fst snd coord];
  repeat match goal with
         | |- context [Z.to_nat ?z] =>
             let n := eval vm_compute in (Z.to_nat z) in
             change (Z.to_nat z) with n
         end;
  ring.

(** X18.  On three points, all inside the point array, no two of which are
    duplicates of each other, [dtriangulate] returns without a diagnostic
    and with [nverts = 3], in whatever order [qsort] left the three.  When
    the points are collinear the triangle array is empty; otherwise it holds
    one triangle, whose indices are 0, 1, 2 in some order and whose points
    are in counterclockwise order. *)
Theorem three_points_triangulated (fuel : nat) (tri : dTriangulation)
  (v0 : list vert) :
  npoints tri = 3%Z -> distinct tri = true ->
  Permutation v0 (unsorted_verts tri) ->
  let o := orient2d (point_at tri 0) (point_at tri 1) (point_at tri 2) in
  exists out,
    dtriangulate_from (S fuel) tri v0 = Done (out, [])
    /\ nverts out = 3%Z
    /\ ((o == 0 /\ ntriangles out = 0%Z /\ triangles out = [])
        \/ (~ o == 0 /\ ntriangles out = 1%Z
            /\ exists a b c,
                 triangles out = [a; b; c]
                 /\ Permutation [a; b; c] [0; 1; 2]%Z
                 /\ 0 < orient2d (point_at tri a) (point_at tri b) (point_at tri c))).
Proof.
  intros Hn Hd Hp o.
  rewrite dtriangulate_from_clean by (apply distinct_clean_from; assumption).
  destruct (unsorted_verts_three tri v0 Hn Hp) as (c0 & c1 & c2 & -> & Hc).
  unfold triangulate_verts. rewrite Hn. cbn [points with_nverts].
  change (3 - 1)%Z with 2%Z.
  destruct (three_base_case (points tri) c0 c1 c2 fuel []) as (tr' & ->).
  cbn [bind fst].
  destruct (three_extracted (points tri) c0 c1 c2) as (v' & ->).
  cbn [bind].
  eexists. split; [reflexivity|]. cbn [nverts ntriangles triangles].
  split; [reflexivity|].
  destruct (perm3 0 1 2) as (Q0 & Q1 & Q2 & Q3 & Q4 & Q5).
  cbn [In] in Hc.
  destruct Hc as [E|[E|[E|[E|[E|[E|[]]]]]]]; injection E as <- <- <-;
    match goal with
    | |- context [Qltb 0 ?X] =>
        first [assert (Ho : X == o) by (unfold o; orient_ring)
              |assert (Ho : X == - o) by (unfold o; orient_ring)];
        assert (Hs : orient2d (pt (points tri) (mkVert _ []))
                              (pt (points tri) (mkVert _ []))
                              (pt (points tri) (mkVert _ [])) == - X)
          by apply orient2d_swap;
        destruct (Qltb 0 X) eqn:Ep;
          [apply Qltb_lt in Ep
          |apply Qltb_ge in Ep; destruct (Qltb X 0) eqn:En;
             [apply Qltb_lt in En|apply Qltb_ge in En]]
    end.
  all: try (left; split; [lra|split; reflexivity]).
  all: right; (split; [lra|]); (split; [reflexivity|]);
    eexists; eexists; eexists; (split; [reflexivity|]);
    (split; [assumption|]).
  all: try exact Ep.
  all: try (rewrite Hs; lra).
Qed.

Lemma three_points_triangulated_witness :
  (npoints (input 4096 corner_points 0 [] 0) = 3%Z
   /\ distinct (input 4096 corner_points 0 [] 0) = true
   /\ Permutation (sorted_verts (input 4096 corner_points 0 [] 0))
                  (unsorted_verts (input 4096 corner_points 0 [] 0)))
  /\ exists out,
       dtriangulate 1 (input 4096 corner_points 0 [] 0) = Done (out, [])
       /\ nverts out = 3%Z.
Proof.
  assert (H0 : npoints (input 4096 corner_points 0 [] 0) = 3%Z) by reflexivity.
  assert (H1 : distinct (input 4096 corner_points 0 [] 0) = true)
    by (vm_compute; reflexivity).
  pose proof (sorted_verts_perm (input 4096 corner_points 0 [] 0)) as Hp.
  split; [split; [exact H0|split; [exact H1|exact Hp]]|].
  destruct (three_points_triangulated 0 (input 4096 corner_points 0 [] 0)
              (sorted_verts (input 4096 corner_points 0 [] 0)) H0 H1 Hp)
    as (out & Hrun & Hnv & _).
  exists out. split; assumption.
Defined.
(** ** Two vertices *)

Lemma two_vertices_run (pts : list Q) (c0 c1 : nat) (fuel : nat) (tr : list event) :
  exists tr',
    ord_dtriangulate pts (S fuel) ([mkVert c0 []; mkVert c1 []], tr) 0 1
    = Done (([mkVert c0 [1%nat]; mkVert c1 [0%nat]], tr'), (Some 0%nat, Some 1%nat))
    /\ convertTrisFreeAdj pts [mkVert c0 [1%nat]; mkVert c1 [0%nat]] 2
       = Done ([mkVert c0 []; mkVert c1 []], []).
Proof.
  cbn [ord_dtriangulate]. change (1 - 0 =? 1)%Z with true. cbv iota.
  change (Z.to_nat 0) with 0%nat. change (Z.to_nat 1) with 1%nat.
  unfold do_connect. cbn [fst snd connectVerts Nat.eqb].
  rewrite (insertNode_empty pts [mkVert c0 []; mkVert c1 []] 0 1) by reflexivity.
  change (set_adj [mkVert c0 []; mkVert c1 []] 0 [1%nat])
    with [mkVert c0 [1%nat]; mkVert c1 []].
  rewrite (insertNode_empty pts [mkVert c0 [1%nat]; mkVert c1 []] 1 0) by reflexivity.
  change (set_adj [mkVert c0 [1%nat]; mkVert c1 []] 1 [0%nat])
    with [mkVert c0 [1%nat]; mkVert c1 [0%nat]].
  eexists. split; reflexivity.
Qed.

(** X17.  On two points that are not duplicates of each other
    [dtriangulate] returns without a diagnostic, with [nverts = 2],
    [ntriangles = 0] and an empty triangle array. *)
Theorem two_points_no_triangle (fuel : nat) (tri : dTriangulation) :
  npoints tri = 2%Z -> clean tri = true ->
  exists out,
    dtriangulate (S fuel) tri = Done (out, [])
    /\ nverts out = 2%Z /\ ntriangles out = 0%Z /\ triangles out = [].
Proof.
  intros Hn Hclean. rewrite dtriangulate_clean by exact Hclean.
  unfold triangulate_verts, sorted_verts, unsorted_verts. rewrite Hn.
  change (Z.to_nat 2) with 2%nat. change (2 - 1)%Z with 1%Z.
  cbn [seq map Nat.mul Nat.add qsort foldr sort_insert points with_nverts].
  destruct (compareVerts (points tri) _ _ <? 0)%Z.
  - destruct (two_vertices_run (points tri) 0 2 fuel []) as (tr' & -> & E).
    cbn [bind fst]. rewrite E. cbn [bind].
    eexists. split; [reflexivity|]. repeat split.
  - destruct (two_vertices_run (points tri) 2 0 fuel []) as (tr' & -> & E).
    cbn [bind fst]. rewrite E. cbn [bind].
    eexists. split; [reflexivity|]. repeat split.
Qed.

Lemma two_points_no_triangle_witness :
  (npoints (input 4096 pair_points 0 [] 0) = 2%Z
   /\ clean (input 4096 pair_points 0 [] 0) = true)
  /\ exists out,
       dtriangulate 1 (input 4096 pair_points 0 [] 0) = Done (out, [])
       /\ nverts out = 2%Z /\ ntriangles out = 0%Z /\ triangles out = [].
Proof.
  assert (H0 : npoints (input 4096 pair_points 0 [] 0) = 2%Z) by reflexivity.
  assert (H1 : clean (input 4096 pair_points 0 [] 0) = true)
    by (vm_compute; reflexivity).
  split; [split; assumption|].
  exact (two_points_no_triangle 0 (input 4096 pair_points 0 [] 0) H0 H1).
Defined.

(** ** What the core keeps *)

Lemma insertNode_adjacent_sub (pts : list Q) (v : list vert) (p x c d : nat) :
  adjacent (insertNode pts v p x) c d = true ->
  adjacent v c d = true \/ (c = p /\ d = x).
Proof.
  destruct (Nat.lt_ge_cases p (length v)) as [Hp|Hp].
  - rewrite insertNode_adjacent_eq by exact Hp.
    rewrite orb_true_iff, andb_true_iff, !Nat.eqb_eq. tauto.
  - rewrite insertNode_out_of_range by exact Hp. tauto.
Qed.

Lemma deleteNode_adjacent_sub (v : list vert) (p x c d : nat) :
  adjacent (deleteNode v p x) c d = true -> adjacent v c d = true.
Proof.
  destruct (Nat.eq_dec c p) as [->|Hc].
  - rewrite deleteNode_set_adj.
    destruct (Nat.lt_ge_cases p (length v)) as [Hp|Hp].
    + rewrite !adjacent_In, vget_set_adj_eq by exact Hp. apply unlink_In.
    + unfold set_adj. rewrite list_insert_ge by exact Hp. tauto.
  - unfold adjacent. rewrite deleteNode_other by exact Hc. tauto.
Qed.

Lemma connectVerts_no_loop (pts : list Q) (v : list vert) (a b : vptr) :
  (forall i, adjacent v i i = false) ->
  forall i, adjacent (connectVerts pts v a b) i i = false.
Proof.
  intros H i. destruct a as [a|], b as [b|]; cbn [connectVerts]; try apply H.
  destruct (Nat.eqb_spec a b) as [|Hab]; [apply H|].
  apply not_true_is_false. intros Hadj.
  apply insertNode_adjacent_sub in Hadj as [Hadj|[-> ->]]; [|contradiction].
  apply insertNode_adjacent_sub in Hadj as [Hadj|[-> Hba]]; [|congruence].
  rewrite H in Hadj. discriminate.
Qed.

Lemma cutVerts_no_loop (v : list vert) (a b : vptr) :
  (forall i, adjacent v i i = false) ->
  forall i, adjacent (cutVerts v a b) i i = false.
Proof.
  intros H i. destruct a as [a|], b as [b|]; cbn [cutVerts]; try apply H.
  destruct (a =? b)%nat; [apply H|].
  apply not_true_is_false. intros Hadj.
  apply deleteNode_adjacent_sub, deleteNode_adjacent_sub in Hadj.
  rewrite H in Hadj. discriminate.
Qed.

(** X10.  A run of [ord_dtriangulate] changes rings and nothing else: the
    array keeps its length and every vertex its [coord] pointer; and when no
    vertex listed itself on entry none does on return. *)
Theorem core_changes_rings_only (pts : list Q) (fuel : nat) (v : list vert)
  (tr : list event) (ia ib : Z) (s : core_state) (lr : vptr * vptr) :
  ord_dtriangulate pts fuel (v, tr) ia ib = Done (s, lr) ->
  map coord (fst s) = map coord v
  /\ length (fst s) = length v
  /\ ((forall i, adjacent v i i = false) -> forall i, adjacent (fst s) i i = false).
Proof.
  intros H. assert (Hc : map coord (fst s) = map coord v) by (eapply core_coord; exact H).
  split; [exact Hc|]. split.
  - rewrite <- (length_map coord), Hc. apply length_map.
  - intros Hv.
    refine (ord_dtriangulate_inv pts
              (fun s => forall i, adjacent (fst s) i i = false) _ _
              fuel (v, tr) ia ib s lr Hv H).
    + intros s0 a b H0. cbn [do_connect fst]. now apply connectVerts_no_loop.
    + intros s0 a b H0. cbn [do_cut fst]. now apply cutVerts_no_loop.
Qed.

Lemma core_changes_rings_only_witness :
  exists s lr,
    ord_dtriangulate corner_points 1 (sorted_input corner_points, []) 0 2
    = Done (s, lr)
    /\ map coord (fst s) = map coord (sorted_input corner_points)
    /\ length (fst s) = length (sorted_input corner_points).
Proof.
  destruct (ord_dtriangulate corner_points 1 (sorted_input corner_points, []) 0 2)
    as [[s lr]|f] eqn:E; [|vm_compute in E; discriminate E].
  exists s, lr. split; [reflexivity|].
  destruct (core_changes_rings_only corner_points 1 (sorted_input corner_points) []
              0 2 s lr E) as (Hc & Hl & _).
  split; assumption.
Defined.
(** ** The core works inside [v[ia..ib]] *)

Section Local.

Variable pts : list Q.
Variables lo hi : nat.
Variable v0 : list vert.

Lemma connectVerts_local (v : list vert) (a b : vptr) :
  local lo hi v0 v -> inside lo hi a -> inside lo hi b ->
  local lo hi v0 (connectVerts pts v a b).
Proof.
  intros Hl Ha Hb.
  destruct a as [a|], b as [b|]; cbn [connectVerts]; try exact Hl.
  destruct (Nat.eqb_spec a b) as [|Hab]; [exact Hl|].
  destruct Hl as (Hlen & Hframe & Hclosed).
  cbn [inside] in Ha, Hb. split; [|split].
  - rewrite !insertNode_length. exact Hlen.
  - intros c Hc. rewrite !insertNode_other by lia. apply Hframe. exact Hc.
  - intros c d Hc Hadj.
    apply insertNode_adjacent_sub in Hadj as [Hadj|[-> ->]]; [|lia].
    apply insertNode_adjacent_sub in Hadj as [Hadj|[-> ->]]; [|lia].
    now apply (Hclosed c d).
Qed.

Lemma cutVerts_local (v : list vert) (a b : vptr) :
  local lo hi v0 v -> inside lo hi a -> inside lo hi b ->
  local lo hi v0 (cutVerts v a b).
Proof.
  intros Hl Ha Hb.
  destruct a as [a|], b as [b|]; cbn [cutVerts]; try exact Hl.
  destruct (Nat.eqb_spec a b) as [|Hab]; [exact Hl|].
  destruct Hl as (Hlen & Hframe & Hclosed).
  cbn [inside] in Ha, Hb. split; [|split].
  - rewrite !deleteNode_length. exact Hlen.
  - intros c Hc. rewrite !deleteNode_other by lia. apply Hframe. exact Hc.
  - intros c d Hc Hadj.
    apply deleteNode_adjacent_sub, deleteNode_adjacent_sub in Hadj.
    now apply (Hclosed c d).
Qed.

Lemma pred_In (v : list vert) (i : nat) (vj : vptr) (k : nat) :
  pred v (Some i) vj = Some k -> In k (adj (vget v i)).
Proof.
  destruct vj as [j|]; cbn [pred]; [|discriminate].
  destruct (adj (vget v i)) as [|f r] eqn:Hr; [discriminate|].
  destruct (find _ _); [|discriminate]. intros [= <-].
  apply ring_at_In, ring_prev_lt. cbn [length]. lia.
Qed.

Lemma succ_In (v : list vert) (i : nat) (vj : vptr) (k : nat) :
  succ v (Some i) vj = Some k -> In k (adj (vget v i)).
Proof.
  destruct vj as [j|]; cbn [succ]; [|discriminate].
  destruct (adj (vget v i)) as [|f r] eqn:Hr; [discriminate|].
  destruct (find _ _); [|discriminate]. intros [= <-].
  apply ring_at_In, ring_next_lt. cbn [length]. lia.
Qed.

Lemma pred_inside (v : list vert) (vi vj : vptr) :
  local lo hi v0 v -> inside lo hi vi -> inside lo hi (pred v vi vj).
Proof.
  intros (_ & _ & Hclosed) Hi. destruct vi as [i|]; [|exact I].
  destruct (pred v (Some i) vj) as [k|] eqn:E; [|exact I].
  apply pred_In in E. apply (Hclosed i k Hi). now apply adjacent_In.
Qed.

Lemma succ_inside (v : list vert) (vi vj : vptr) :
  local lo hi v0 v -> inside lo hi vi -> inside lo hi (succ v vi vj).
Proof.
  intros (_ & _ & Hclosed) Hi. destruct vi as [i|]; [|exact I].
  destruct (succ v (Some i) vj) as [k|] eqn:E; [|exact I].
  apply succ_In in E. apply (Hclosed i k Hi). now apply adjacent_In.
Qed.

Lemma first_inside (v : list vert) (vi : vptr) :
  local lo hi v0 v -> inside lo hi vi -> inside lo hi (first v vi).
Proof.
  intros (_ & _ & Hclosed) Hi. destruct vi as [i|]; [|exact I]. cbn [first].
  destruct (adj (vget v i)) as [|k r] eqn:Hr; [exact I|]. cbn [head inside].
  apply (Hclosed i k Hi). apply adjacent_In. rewrite Hr. now left.
Qed.

Lemma lct_loop_inside (v : list vert) :
  local lo hi v0 v ->
  forall (fuel : nat) (x y rfast lfast : vptr) x' y',
    inside lo hi x -> inside lo hi y -> inside lo hi rfast -> inside lo hi lfast ->
    lct_loop pts fuel v x y rfast lfast = Done (x', y') ->
    inside lo hi x' /\ inside lo hi y'.
Proof.
  intros Hl. induction fuel as [|fuel IH];
    intros x y rfast lfast x' y' Hx Hy Hr Hf H; [discriminate|].
  cbn [lct_loop] in H. step_bind H. destruct a.
  - eapply IH; [| | | |exact H]; try assumption. now apply succ_inside.
  - step_bind H. destruct a.
    + eapply IH; [| | | |exact H]; try assumption. now apply pred_inside.
    + injection H as <- <-. split; assumption.
Qed.

Lemma uct_loop_inside (v : list vert) :
  local lo hi v0 v ->
  forall (fuel : nat) (x y rfast lfast : vptr) x' y',
    inside lo hi x -> inside lo hi y -> inside lo hi rfast -> inside lo hi lfast ->
    uct_loop pts fuel v x y rfast lfast = Done (x', y') ->
    inside lo hi x' /\ inside lo hi y'.
Proof.
  intros Hl. induction fuel as [|fuel IH];
    intros x y rfast lfast x' y' Hx Hy Hr Hf H; [discriminate|].
  cbn [uct_loop] in H. step_bind H. destruct a.
  - eapply IH; [| | | |exact H]; try assumption. now apply pred_inside.
  - step_bind H. destruct a.
    + eapply IH; [| | | |exact H]; try assumption. now apply succ_inside.
    + injection H as <- <-. split; assumption.
Qed.

Lemma lct_inside (v : list vert) (fuel : nat) (l r : vptr) x' y' :
  local lo hi v0 v -> inside lo hi l -> inside lo hi r ->
  lct pts fuel v l r = Done (x', y') -> inside lo hi x' /\ inside lo hi y'.
Proof.
  intros Hl Hx Hy H. unfold lct in H.
  eapply (lct_loop_inside v Hl); [| | | |exact H]; try assumption.
  - now apply first_inside.
  - destruct (first v l); [now apply pred_inside|exact I].
Qed.

Lemma uct_inside (v : list vert) (fuel : nat) (l r : vptr) x' y' :
  local lo hi v0 v -> inside lo hi l -> inside lo hi r ->
  uct pts fuel v l r = Done (x', y') -> inside lo hi x' /\ inside lo hi y'.
Proof.
  intros Hl Hx Hy H. unfold uct in H.
  eapply (uct_loop_inside v Hl); [| | | |exact H]; try assumption.
  - destruct (first v r); [now apply pred_inside|exact I].
  - now apply first_inside.
Qed.

Lemma right_cand_loop_local :
  forall (fuel : nat) (s : core_state) (li ri r1 r2 : vptr) s' r,
    local lo hi v0 (fst s) ->
    inside lo hi li -> inside lo hi ri -> inside lo hi r1 -> inside lo hi r2 ->
    right_cand_loop pts fuel s li ri r1 r2 = Done (s', r) ->
    local lo hi v0 (fst s') /\ inside lo hi r.
Proof.
  induction fuel as [|fuel IH]; intros s li ri r1 r2 s' r Hl Hli Hri H1 H2 H;
    [discriminate|].
  cbn [right_cand_loop] in H. step_bind H. destruct a.
  - assert (Hl' : local lo hi v0 (fst (do_cut s ri r1)))
      by (cbn [do_cut fst]; now apply cutVerts_local).
    eapply IH; [| | | | |exact H]; try assumption. now apply pred_inside.
  - injection H as <- <-. split; assumption.
Qed.

Lemma left_cand_loop_local :
  forall (fuel : nat) (s : core_state) (li ri l1 l2 : vptr) s' l,
    local lo hi v0 (fst s) ->
    inside lo hi li -> inside lo hi ri -> inside lo hi l1 -> inside lo hi l2 ->
    left_cand_loop pts fuel s li ri l1 l2 = Done (s', l) ->
    local lo hi v0 (fst s') /\ inside lo hi l.
Proof.
  induction fuel as [|fuel IH]; intros s li ri l1 l2 s' l Hl Hli Hri H1 H2 H;
    [discriminate|].
  cbn [left_cand_loop] in H. step_bind H. destruct a.
  - assert (Hl' : local lo hi v0 (fst (do_cut s li l1)))
      by (cbn [do_cut fst]; now apply cutVerts_local).
    eapply IH; [| | | | |exact H]; try assumption. now apply succ_inside.
  - injection H as <- <-. split; assumption.
Qed.

Lemma merge_loop_local :
  forall (fuel : nat) (s : core_state) (li ri uctl uctr : vptr) s',
    local lo hi v0 (fst s) -> inside lo hi li -> inside lo hi ri ->
    merge_loop pts fuel s li ri uctl uctr = Done s' ->
    local lo hi v0 (fst s').
Proof.
  induction fuel as [|fuel IH]; intros s li ri uctl uctr s' Hl Hli Hri H;
    [discriminate|].
  cbn [merge_loop] in H.
  destruct (negb (vptr_eqb li uctl) || negb (vptr_eqb ri uctr));
    [|injection H as <-; exact Hl].
  assert (Hl1 : local lo hi v0 (fst (do_connect pts s li ri)))
    by (cbn [do_connect fst]; now apply connectVerts_local).
  set (s1 := do_connect pts s li ri) in *.
  assert (Hr1 : inside lo hi (pred (fst s1) ri li)) by now apply pred_inside.
  step_bind H.
  assert (HA : forall sa r1a aa,
             (if a : bool
              then let* (s', r1') :=
                     right_cand_loop pts fuel s1 li ri (pred (fst s1) ri li)
                       (pred (fst s1) ri (pred (fst s1) ri li)) in
                   Done (s', r1', false)
              else Done (s1, pred (fst s1) ri li, true)) = Done (sa, r1a, aa) ->
             local lo hi v0 (fst sa) /\ inside lo hi r1a).
  { intros sa r1a aa HA. destruct a.
    - step_bind HA. destruct a as [sx rx]. injection HA as <- <- <-.
      eapply right_cand_loop_local; [| | | | |exact E0]; try assumption.
      now apply pred_inside.
    - injection HA as <- <- <-. split; assumption. }
  step_bind H. destruct a0 as [[sa r1a] aa].
  destruct (HA _ _ _ eq_refl) as [Hla Hra].
  assert (Hs1 : inside lo hi (succ (fst sa) li ri)) by now apply succ_inside.
  step_bind H.
  assert (HB : forall sb l1b bb,
             (if a0 : bool
              then let* (s', l1') :=
                     left_cand_loop pts fuel sa li ri (succ (fst sa) li ri)
                       (succ (fst sa) li (succ (fst sa) li ri)) in
                   Done (s', l1', false)
              else Done (sa, succ (fst sa) li ri, true)) = Done (sb, l1b, bb) ->
             local lo hi v0 (fst sb) /\ inside lo hi l1b).
  { intros sb l1b bb HB. destruct a0.
    - step_bind HB. destruct a0 as [sx lx]. injection HB as <- <- <-.
      eapply left_cand_loop_local; [| | | | |exact E2]; try assumption.
      now apply succ_inside.
    - injection HB as <- <- <-. split; assumption. }
  step_bind H. destruct a1 as [[sb l1b] bb].
  destruct (HB _ _ _ eq_refl) as [Hlb Hrb].
  destruct aa; [eapply IH; [| | |exact H]; assumption|].
  destruct bb; [eapply IH; [| | |exact H]; assumption|].
  step_bind H.
  destruct (negb a1); eapply IH; try exact H; assumption.
Qed.

End Local.

Lemma local_refl (lo hi : nat) (v : list vert) :
  (forall c, (lo <= c <= hi)%nat -> adj (vget v c) = []) -> local lo hi v v.
Proof.
  intros H. split; [reflexivity|]. split; [reflexivity|].
  intros c d Hc Hadj. rewrite (adjacent_empty v c d (H c Hc)) in Hadj. discriminate.
Qed.

Lemma local_weaken (lo hi lo' hi' : nat) (v0 v : list vert) :
  (lo' <= lo)%nat -> (hi <= hi')%nat ->
  (forall c, (lo' <= c <= hi')%nat -> ~ (lo <= c <= hi)%nat -> adj (vget v0 c) = []) ->
  local lo hi v0 v -> local lo' hi' v0 v.
Proof.
  intros Hlo Hhi Hempty (Hlen & Hframe & Hclosed).
  split; [exact Hlen|]. split.
  - intros c Hc. apply Hframe. lia.
  - intros c d Hc Hadj.
    destruct (decide (lo <= c <= hi)%nat) as [Hin|Hout].
    + specialize (Hclosed c d Hin Hadj). lia.
    + unfold adjacent in Hadj. rewrite (Hframe c Hout), (Hempty c Hc Hout) in Hadj.
      discriminate.
Qed.

Lemma local_trans (lo hi lo' hi' : nat) (v0 v1 v2 : list vert) :
  (lo <= hi)%nat -> lo' = (hi + 1)%nat -> (lo' <= hi')%nat ->
  local lo hi v0 v1 -> local lo' hi' v1 v2 ->
  (forall c, (lo' <= c <= hi')%nat -> adj (vget v0 c) = []) ->
  local lo hi' v0 v2.
Proof.
  intros Hle Hsep Hle' (Hlen1 & Hframe1 & Hclosed1) (Hlen2 & Hframe2 & Hclosed2) Hempty.
  split; [congruence|]. split.
  - intros c Hc. rewrite Hframe2 by lia. apply Hframe1. lia.
  - intros c d Hc Hadj.
    destruct (decide (lo' <= c <= hi')%nat) as [Hin|Hout].
    + specialize (Hclosed2 c d Hin Hadj). lia.
    + unfold adjacent in Hadj. rewrite (Hframe2 c Hout) in Hadj.
      destruct (decide (lo <= c <= hi)%nat) as [Hin1|Hout1].
      * specialize (Hclosed1 c d Hin1 Hadj). lia.
      * lia.
Qed.

Lemma ord_dtriangulate_local (pts : list Q) :
  forall (fuel : nat) (v : list vert) (tr : list event) (a b : nat) s lr,
    (a < b)%nat ->
    (forall c, (a <= c <= b)%nat -> adj (vget v c) = []) ->
    ord_dtriangulate pts fuel (v, tr) (Z.of_nat a) (Z.of_nat b) = Done (s, lr) ->
    local a b v (fst s) /\ lr = (Some a, Some b).
Proof.
  induction fuel as [|fuel IH]; intros v tr a b s lr Hab Hempty H; [discriminate|].
  cbn [ord_dtriangulate] in H.
  pose proof (local_refl a b v Hempty) as Hl0.
  assert (Ea : Z.to_nat (Z.of_nat a) = a) by apply Nat2Z.id.
  assert (Eb : Z.to_nat (Z.of_nat b) = b) by apply Nat2Z.id.
  assert (Ea1 : Z.to_nat (Z.of_nat a + 1) = S a) by lia.
  rewrite ?Ea, ?Eb, ?Ea1 in H.
  destruct (Z.eqb_spec (Z.of_nat b - Z.of_nat a) 1) as [E1|N1].
  { injection H as <- <-. split; [|reflexivity].
    cbn [do_connect fst]. apply connectVerts_local; cbn [inside]; try lia. exact Hl0. }
  destruct (Z.eqb_spec (Z.of_nat b - Z.of_nat a) 2) as [E2|N2].
  { step_bind H. step_bind H. injection H as <- <-. split; [|reflexivity].
    assert (Hl2 : local a b v
                    (fst (do_connect pts (do_connect pts (v, tr) (Some a) (Some (S a)))
                            (Some (S a)) (Some b)))).
    { cbn [do_connect fst]. repeat apply connectVerts_local; cbn [inside]; try lia.
      exact Hl0. }
    destruct (a0 || a1); [|exact Hl2].
    cbn [do_connect fst]. apply connectVerts_local; cbn [inside]; try lia.
    exact Hl2. }
  destruct (Z.leb_spec 3 (Z.of_nat b - Z.of_nat a)) as [G3|]; [|lia].
  set (m := ((a + b) / 2)%nat).
  assert (Em : ((Z.of_nat a + Z.of_nat b) ÷ 2)%Z = Z.of_nat m).
  { rewrite Z.quot_div_nonneg by lia. unfold m.
    rewrite Nat2Z.inj_div, Nat2Z.inj_add. reflexivity. }
  assert (Hm : (a < m /\ m + 1 < b)%nat).
  { unfold m. pose proof (Nat.div_mod_eq (a + b) 2) as Hd.
    pose proof (Nat.mod_upper_bound (a + b) 2 ltac:(lia)). lia. }
  rewrite Em in H.
  replace (Z.of_nat m + 1)%Z with (Z.of_nat (m + 1)) in H by lia.
  step_bind H. destruct a0 as [[v1 tr1] [lo1 li]].
  apply IH in E; [|lia|intros c Hc; apply Hempty; lia].
  destruct E as [Hl1 [= -> ->]]. cbn [fst] in Hl1.
  step_bind H. destruct a0 as [[v2 tr2] [ri ro]].
  assert (Hempty1 : forall c, (m + 1 <= c <= b)%nat -> adj (vget v1 c) = []).
  { intros c Hc. destruct Hl1 as (_ & Hframe & _).
    rewrite Hframe by lia. apply Hempty. lia. }
  apply IH in E; [|lia|exact Hempty1].
  destruct E as [Hl2 [= -> ->]]. cbn [fst] in Hl2.
  assert (Hl : local a b v v2).
  { apply (local_trans a m (m + 1) b v v1 v2); try assumption; [lia|reflexivity|lia|].
    intros c Hc. apply Hempty. lia. }
  step_bind H. destruct a0 as [lctl lctr].
  apply (lct_inside pts a b v) in E; [|exact Hl|cbn [inside]; lia|cbn [inside]; lia].
  step_bind H. destruct a0 as [uctl uctr].
  apply (uct_inside pts a b v) in E0; [|exact Hl|cbn [inside]; lia|cbn [inside]; lia].
  step_bind H. injection H as <- <-. split; [|reflexivity].
  cbn [do_connect fst]. apply connectVerts_local; try tauto.
  eapply merge_loop_local; [| | |exact E1]; cbn [fst]; tauto.
Qed.

(** X11.  [ord_dtriangulate(v, ia, ib)] on two or more vertices without
    neighbours works inside [v[ia..ib]]: it returns [&v[ia]] and [&v[ib]] as
    leftmost and rightmost, leaves every vertex outside the range as it was,
    and the rings of the vertices inside list vertices inside only. *)
Theorem ord_dtriangulate_stays_inside (pts : list Q) (fuel : nat) (v : list vert)
  (tr : list event) (a b : nat) (s : core_state) (lr : vptr * vptr) :
  (a < b)%nat ->
  (forall c, (a <= c <= b)%nat -> adj (vget v c) = []) ->
  ord_dtriangulate pts fuel (v, tr) (Z.of_nat a) (Z.of_nat b) = Done (s, lr) ->
  lr = (Some a, Some b)
  /\ (forall c, ~ (a <= c <= b)%nat -> vget (fst s) c = vget v c)
  /\ (forall c d, (a <= c <= b)%nat -> adjacent (fst s) c d = true -> (a <= d <= b)%nat).
Proof.
  intros Hab Hempty H.
  destruct (ord_dtriangulate_local pts fuel v tr a b s lr Hab Hempty H)
    as [(_ & Hframe & Hclosed) Hlr].
  split; [exact Hlr|]. split; assumption.
Qed.

Lemma ord_dtriangulate_stays_inside_witness :
  ((0 < 2)%nat
   /\ forall c, (0 <= c <= 2)%nat -> adj (vget (sorted_input corner_points) c) = [])
  /\ exists s lr,
       ord_dtriangulate corner_points 1 (sorted_input corner_points, [])
                        (Z.of_nat 0) (Z.of_nat 2) = Done (s, lr)
       /\ lr = (Some 0%nat, Some 2%nat).
Proof.
  assert (H0 : (0 < 2)%nat) by lia.
  assert (H1 : forall c, (0 <= c <= 2)%nat ->
                         adj (vget (sorted_input corner_points) c) = []).
  { intros c Hc. destruct c as [|[|[|c]]]; [reflexivity|reflexivity|reflexivity|lia]. }
  split; [split; assumption|].
  destruct (ord_dtriangulate corner_points 1 (sorted_input corner_points, [])
              (Z.of_nat 0) (Z.of_nat 2)) as [[s lr]|f] eqn:E;
    [|vm_compute in E; discriminate E].
  exists s, lr. split; [reflexivity|].
  exact (proj1 (ord_dtriangulate_stays_inside corner_points 1
                  (sorted_input corner_points) [] 0 2 s lr H0 H1 E)).
Defined.

(** The law of the 3 x 3 lattice at the points (0,0), (0,1), (1,0). *)
Lemma lattice_well_triangulated_witness :
  (In corner_lattice (sublists (lattice 3 3)) /\ (2 <= length corner_lattice)%nat)
  /\ exists out,
       dtriangulate 20 (input 4096 (flatten corner_lattice) 0 [] 0) = Done (out, [])
       /\ empty_circle out /\ all_ccw out.
Proof.
  assert (H0 : In corner_lattice (sublists (lattice 3 3))).
  { vm_compute. repeat (first [left; reflexivity | right]). }
  assert (H1 : (2 <= length corner_lattice)%nat) by (vm_compute; lia).
  split; [split; assumption|].
  exact (lattice_well_triangulated corner_lattice H0 H1).
Defined.

End DelaunayLaws.

(** * Laws of the grid tessellator *)

Module GridLaws.

Import Grid GridFacts.

(** ** [gen_heightmap] *)

Lemma load_in_range {A} (l : list A) (i : Z) :
  (0 <= i < Z.of_nat (length l))%Z -> exists a, load l i = Done a /\ l !! Z.to_nat i = Some a.
Proof.
  intros Hi. unfold load.
  destruct (Z.leb_spec 0 i); [|lia].
  destruct (lookup_lt_is_Some_2 l (Z.to_nat i)) as [a Ha]; [lia|].
  exists a. rewrite Ha. split; reflexivity.
Qed.

Lemma store_in_range {A} (l : list A) (i : Z) (a : A) :
  (0 <= i < Z.of_nat (length l))%Z -> store l i a = Done (<[Z.to_nat i := a]> l).
Proof.
  intros Hi. unfold store.
  destruct (Z.leb_spec 0 i); [|lia].
  destruct (Z.ltb_spec i (Z.of_nat (length l))); [|lia]. reflexivity.
Qed.

Lemma column_max_spec (ws : list Q) (base : Z) :
  let col z := default 0 (ws !! Z.to_nat (base + z)) in
  forall (n : nat) (z0 maxz0 : Z) (mw0 : Q),
    (0 <= base + z0)%Z -> (base + z0 + Z.of_nat n <= Z.of_nat (length ws))%Z ->
    exists m, column_max ws base n z0 maxz0 mw0 = Done m
      /\ ((m = maxz0 /\ forall z, (z0 <= z < z0 + Z.of_nat n)%Z -> col z <= mw0)
          \/ ((z0 <= m < z0 + Z.of_nat n)%Z /\ mw0 < col m
              /\ (forall z, (z0 <= z < z0 + Z.of_nat n)%Z -> col z <= col m)
              /\ (forall z, (z0 <= z < m)%Z -> col z < col m))).
Proof.
  intros col. induction n as [|n IH]; intros z0 maxz0 mw0 H0 Hlen.
  - exists maxz0. split; [reflexivity|]. left. split; [reflexivity|]. intros z Hz. lia.
  - cbn [column_max].
    destruct (load_in_range ws (base + z0)) as (w & Hload & Hw); [lia|].
    rewrite Hload. cbn [bind].
    assert (Hcol : col z0 = w) by (unfold col; now rewrite Hw).
    destruct (Qltb mw0 w) eqn:Hlt.
    + apply Qltb_lt in Hlt.
      destruct (IH (z0 + 1)%Z z0 w) as (m & Hm & Hspec); [lia|lia|].
      exists m. split; [exact Hm|]. right.
      destruct Hspec as [[-> Hall]|(Hr & Hgt & Hall & Hfirst)].
      * split; [lia|]. rewrite Hcol. split; [exact Hlt|]. split.
        -- intros z Hz. destruct (Z.eq_dec z z0) as [->|Hne];
             [rewrite Hcol; apply Qle_refl|apply Hall; lia].
        -- intros z Hz. lia.
      * split; [lia|]. split; [eapply Qlt_trans; eassumption|]. split.
        -- intros z Hz. destruct (Z.eq_dec z z0) as [->|Hne];
             [rewrite Hcol; apply Qlt_le_weak; exact Hgt|apply Hall; lia].
        -- intros z Hz. destruct (Z.eq_dec z z0) as [->|Hne];
             [rewrite Hcol; exact Hgt|apply Hfirst; lia].
    + apply Qltb_ge in Hlt.
      destruct (IH (z0 + 1)%Z maxz0 mw0) as (m & Hm & Hspec); [lia|lia|].
      exists m. split; [exact Hm|].
      destruct Hspec as [[-> Hall]|(Hr & Hgt & Hall & Hfirst)].
      * left. split; [reflexivity|].
        intros z Hz. destruct (Z.eq_dec z z0) as [->|Hne];
          [rewrite Hcol; exact Hlt|apply Hall; lia].
      * right. split; [lia|]. split; [exact Hgt|]. split.
        -- intros z Hz. destruct (Z.eq_dec z z0) as [->|Hne];
             [rewrite Hcol; apply Qlt_le_weak; eapply Qle_lt_trans; eassumption
             |apply Hall; lia].
        -- intros z Hz. destruct (Z.eq_dec z z0) as [->|Hne];
             [rewrite Hcol; eapply Qle_lt_trans; eassumption|apply Hfirst; lia].
Qed.

Lemma grid_index_bound (dx dy dz x y z : Z) :
  (0 <= x < dx)%Z -> (0 <= y < dy)%Z -> (0 <= z < dz)%Z ->
  (0 <= x * (dy * dz) + y * dz + z < dx * dy * dz)%Z.
Proof.
  intros Hx Hy Hz.
  assert (0 <= x * (dy * dz))%Z by (apply Z.mul_nonneg_nonneg; nia).
  assert (0 <= y * dz)%Z by nia.
  split; [lia|].
  assert ((y + 1) * dz <= dy * dz)%Z by (apply Z.mul_le_mono_nonneg_r; lia).
  assert ((x + 1) * (dy * dz) <= dx * (dy * dz))%Z
    by (apply Z.mul_le_mono_nonneg_r; nia).
  nia.
Qed.

Lemma column_index_bound (dx dy x y : Z) :
  (0 <= x < dx)%Z -> (0 <= y < dy)%Z -> (0 <= x * dy + y < dx * dy)%Z.
Proof.
  intros Hx Hy.
  assert (0 <= x * dy)%Z by nia.
  assert ((x + 1) * dy <= dx * dy)%Z by (apply Z.mul_le_mono_nonneg_r; lia).
  nia.
Qed.

Section Heightmap.

Variable g : tessellated_grid.
Hypothesis Hsized : well_sized g.

Lemma heightmap_column_step (x y : Z) (st : hstate) :
  (0 <= x < dimx g)%Z -> (0 <= y < dimy g)%Z ->
  hvisited g (x * dimy g + y) st ->
  exists st', heightmap_column g x y st = Done st'
              /\ hvisited g (x * dimy g + y + 1) st'.
Proof.
  intros Hx Hy Hv. destruct st as [hm ne].
  destruct Hv as (Hlen & Hcols & Hne).
  destruct Hsized as (Hdx & Hdy & Hdz & Hws & Hhm).
  unfold heightmap_column.
  pose proof (grid_index_bound (dimx g) (dimy g) (dimz g) x y) as Hb.
  pose proof (column_index_bound (dimx g) (dimy g) x y Hx Hy) as Hk.
  destruct (column_max_spec (weights g) (x * (dimy g * dimz g) + y * dimz g)
              (Z.to_nat (dimz g)) 0%Z (-1)%Z (2 * FLT_EPSILON))
    as (m & Hm & Hspec).
  { destruct (Z.eq_dec (dimz g) 0%Z) as [E|E].
    - rewrite E. nia.
    - specialize (Hb 0%Z Hx Hy ltac:(lia)). lia. }
  { destruct (Z.eq_dec (dimz g) 0%Z) as [E|E].
    - rewrite E. assert (0 <= dimx g * dimy g)%Z by nia. nia.
    - specialize (Hb (dimz g - 1)%Z Hx Hy ltac:(lia)). lia. }
  rewrite Hm. cbn [bind].
  rewrite store_in_range by lia. cbn [bind].
  eexists. split; [reflexivity|].
  assert (Hcol : column_height g x y m).
  { unfold column_height, weight_at.
    destruct Hspec as [[-> Hall]|(Hr & Hgt & Hall & Hfirst)].
    - left. split; [reflexivity|]. intros z Hz. apply Hall. lia.
    - right. split; [lia|]. split; [exact Hgt|]. split.
      + intros z Hz. apply Hall. lia.
      + intros z Hz. apply Hfirst. lia. }
  split; [rewrite length_insert; exact Hlen|]. split.
  - intros x' y' Hx' Hy' Hlt.
    destruct (Z.eq_dec (x' * dimy g + y')%Z (x * dimy g + y)%Z) as [E|E].
    + destruct (cell_index_inj (dimy g) x y x' y' Hy Hy' E) as [-> ->].
      rewrite list_lookup_insert_eq by lia. exact Hcol.
    + assert (0 <= x' * dimy g)%Z by nia.
      rewrite list_lookup_insert_ne by lia. apply Hcols; try assumption. lia.
  - replace (Z.to_nat (x * dimy g + y + 1)) with (S (Z.to_nat (x * dimy g + y))) by lia.
    rewrite (take_S_r _ _ m) by (apply list_lookup_insert_eq; lia).
    rewrite take_insert_ge by lia.
    rewrite List.filter_app, length_app, Nat2Z.inj_add, <- Hne.
    cbn [List.filter]. unfold negative.
    destruct (Z.ltb_spec m 0); reflexivity.
Qed.

Lemma heightmap_row_steps (x : Z) :
  forall (n : nat) (y : Z) (st : hstate),
    (0 <= x < dimx g)%Z -> (0 <= y)%Z -> (y + Z.of_nat n <= dimy g)%Z ->
    hvisited g (x * dimy g + y) st ->
    exists st', heightmap_row g x n y st = Done st'
                /\ hvisited g (x * dimy g + y + Z.of_nat n) st'.
Proof.
  induction n as [|n IH]; intros y st Hx Hy Hn Hv.
  - exists st. split; [reflexivity|].
    replace (x * dimy g + y + Z.of_nat 0)%Z with (x * dimy g + y)%Z by lia.
    exact Hv.
  - cbn [heightmap_row].
    destruct (heightmap_column_step x y st Hx ltac:(lia) Hv) as (st1 & Hc & Hv1).
    rewrite Hc. cbn [bind].
    destruct (IH (y + 1)%Z st1 Hx ltac:(lia) ltac:(lia)) as (st' & Hr & Hv').
    { replace (x * dimy g + (y + 1))%Z with (x * dimy g + y + 1)%Z by lia.
      exact Hv1. }
    exists st'. split; [exact Hr|].
    replace (x * dimy g + y + Z.of_nat (S n))%Z
      with (x * dimy g + (y + 1) + Z.of_nat n)%Z by lia.
    exact Hv'.
Qed.

Lemma heightmap_rows_steps :
  forall (n : nat) (x : Z) (st : hstate),
    (0 <= x)%Z -> (x + Z.of_nat n <= dimx g)%Z ->
    hvisited g (x * dimy g) st ->
    exists st', heightmap_rows g n x st = Done st'
                /\ hvisited g ((x + Z.of_nat n) * dimy g) st'.
Proof.
  destruct Hsized as (Hdx & Hdy & Hdz & Hws & Hhm).
  induction n as [|n IH]; intros x st Hx Hn Hv.
  - exists st. split; [reflexivity|].
    replace (x + Z.of_nat 0)%Z with x by lia. exact Hv.
  - cbn [heightmap_rows].
    destruct (heightmap_row_steps x (Z.to_nat (dimy g)) 0%Z st) as (st1 & Hr & Hv1);
      try lia.
    { replace (x * dimy g + 0)%Z with (x * dimy g)%Z by lia. exact Hv. }
    rewrite Hr. cbn [bind].
    destruct (IH (x + 1)%Z st1 ltac:(lia) ltac:(lia)) as (st' & Hrs & Hv').
    { replace ((x + 1) * dimy g)%Z
        with (x * dimy g + 0 + Z.of_nat (Z.to_nat (dimy g)))%Z by lia.
      exact Hv1. }
    exists st'. split; [exact Hrs|].
    replace ((x + Z.of_nat (S n)) * dimy g)%Z
      with ((x + 1 + Z.of_nat n) * dimy g)%Z by lia.
    exact Hv'.
Qed.

Lemma gen_heightmap_visited :
  exists hm ne,
    heightmap_rows g (Z.to_nat (dimx g)) 0 (heightmap g, 0%Z) = Done (hm, ne)
    /\ hvisited g (dimx g * dimy g) (hm, ne).
Proof.
  destruct Hsized as (Hdx & Hdy & Hdz & Hws & Hhm).
  destruct (heightmap_rows_steps (Z.to_nat (dimx g)) 0%Z (heightmap g, 0%Z))
    as ([hm ne] & Hr & Hv); try lia.
  - split; [reflexivity|]. split; [intros x y Hx Hy Hlt; nia|]. reflexivity.
  - exists hm, ne. split; [exact Hr|].
    replace ((0 + Z.of_nat (Z.to_nat (dimx g))) * dimy g)%Z
      with (dimx g * dimy g)%Z in Hv by lia.
    exact Hv.
Qed.

End Heightmap.





(** ** [construct_grid] and [load_grid] *)

Lemma safe_bind {A B} (R : A -> Prop) (P : B -> Prop) (m : outcome A)
  (k : A -> outcome B) :
  safe R m -> (forall a, R a -> safe P (k a)) -> safe P (bind m k).
Proof.
  intros Hm Hk. destruct m as [a|f]; cbn [bind safe] in *; [now apply Hk|exact Hm].
Qed.

Lemma int_Done (z r : Z) :
  int z = Done r -> r = z /\ (INT_MIN <= z <= INT_MAX)%Z.
Proof.
  unfold int. destruct (Z.leb_spec INT_MIN z); [|discriminate].
  destruct (Z.leb_spec z INT_MAX); [|discriminate].
  cbn [andb]. intros [= <-]. split; [reflexivity|lia].
Qed.

Lemma int_in_range (z : Z) : (INT_MIN <= z <= INT_MAX)%Z -> int z = Done z.
Proof.
  intros H. unfold int. destruct (Z.leb_spec INT_MIN z); [|lia].
  destruct (Z.leb_spec z INT_MAX); [|lia]. reflexivity.
Qed.

Lemma int_safe (z : Z) : safe (fun r => r = z) (int z).
Proof.
  unfold int. destruct (_ && _); cbn [safe]; [reflexivity|discriminate].
Qed.

Lemma real_Done (q r : Q) :
  real q = Done r ->
  r = Float.round 24 (-149) q /\ - FLT_MAX <= r /\ r <= FLT_MAX.
Proof.
  unfold real.
  destruct (Qle_bool (- FLT_MAX) (Float.round 24 (-149) q)) eqn:E1; [|discriminate].
  destruct (Qle_bool (Float.round 24 (-149) q) FLT_MAX) eqn:E2; [|discriminate].
  cbn [andb]. intros [= <-]. apply Qle_bool_iff in E1, E2. repeat split; assumption.
Qed.

Lemma real_safe (q : Q) : safe (fun _ => True) (real q).
Proof.
  unfold real. destruct (_ && _); cbn [safe]; [exact I|discriminate].
Qed.

Lemma real_div_safe (a b : Q) : safe (fun _ => True) (real_div a b).
Proof.
  unfold real_div. destruct (Qeq_bool b 0); [cbn; discriminate|apply real_safe].
Qed.

Lemma real_zero : real 0 = Done 0.
Proof. reflexivity. Qed.

(** Rounding is monotone, so a value between two values with a finite
    [real] has one, between theirs. *)
Lemma real_between (q1 q q2 r1 r2 : Q) :
  q1 <= q -> q <= q2 -> real q1 = Done r1 -> real q2 = Done r2 ->
  exists r, real q = Done r /\ r1 <= r /\ r <= r2.
Proof.
  intros H1 H2 E1 E2.
  apply real_Done in E1 as (-> & L1 & _). apply real_Done in E2 as (-> & _ & U2).
  pose proof (FloatFacts.round_mono 24 (-149) ltac:(lia) _ _ H1) as M1.
  pose proof (FloatFacts.round_mono 24 (-149) ltac:(lia) _ _ H2) as M2.
  exists (Float.round 24 (-149) q). split; [|split; assumption].
  unfold real.
  assert (A : Qle_bool (- FLT_MAX) (Float.round 24 (-149) q) = true)
    by (apply Qle_bool_iff; lra).
  assert (B : Qle_bool (Float.round 24 (-149) q) FLT_MAX = true)
    by (apply Qle_bool_iff; lra).
  rewrite A, B. reflexivity.
Qed.

Lemma trunc_nonneg (q : Q) : 0 <= q -> (0 <= trunc q)%Z.
Proof.
  intros Hq. rewrite trunc_floor by exact Hq.
  change 0%Z with (Qfloor 0). apply Qfloor_resp_le. exact Hq.
Qed.

Lemma trunc_le (p q : Q) : 0 <= p -> p <= q -> (trunc p <= trunc q)%Z.
Proof.
  intros Hp Hpq. rewrite !trunc_floor by (try assumption; lra).
  apply Qfloor_resp_le. exact Hpq.
Qed.

Lemma Qdiv_nonneg (a w : Q) : 0 <= a -> 0 < w -> 0 <= a / w.
Proof.
  intros Ha Hw. unfold Qdiv. apply Qmult_le_0_compat; [exact Ha|].
  apply Qlt_le_weak, Qinv_lt_0_compat. exact Hw.
Qed.

Lemma Qdiv_le (a b w : Q) : a <= b -> 0 < w -> a / w <= b / w.
Proof.
  intros Hab Hw. unfold Qdiv. apply Qmult_le_compat_r; [exact Hab|].
  apply Qlt_le_weak, Qinv_lt_0_compat. exact Hw.
Qed.

(** The cell of a coordinate between the minimum and the maximum of its
    axis: its index is computed without a fault and is at most the
    dimension less 2. *)
Lemma cell_bound (v mn mx w : Q) (d : Z) :
  0 < w -> mn <= v -> v <= mx -> dim_of mx mn w = Done d ->
  exists i, cell_of v mn w = Done i /\ (0 <= i <= d - 2)%Z.
Proof.
  intros Hw Hlo Hhi H. unfold dim_of in H.
  destruct (real (mx - mn)) as [D|] eqn:ED; [|discriminate]. cbn [bind] in H.
  unfold real_div in H.
  destruct (Qeq_bool w 0) eqn:Ew; [discriminate|].
  destruct (real (D / w)) as [qm|] eqn:EQ; [|discriminate]. cbn [bind] in H.
  unfold int_of_real in H.
  destruct (int (trunc qm)) as [n|] eqn:EI; [|discriminate]. cbn [bind] in H.
  apply int_Done in EI as [-> Rn]. apply int_Done in H as [-> _].
  destruct (real_between 0 (v - mn) (mx - mn) 0 D) as (dv & Edv & B1 & B2);
    [lra|lra|exact real_zero|exact ED|].
  destruct (real_between 0 (dv / w) (D / w) 0 qm) as (q & Eq & C1 & C2);
    [apply Qdiv_nonneg; assumption|apply Qdiv_le; assumption|exact real_zero
    |exact EQ|].
  pose proof (trunc_nonneg q C1) as T1. pose proof (trunc_le q qm C1 C2) as T2.
  exists (trunc q). unfold cell_of. rewrite Edv. cbn [bind].
  unfold real_div. rewrite Ew, Eq. cbn [bind]. unfold int_of_real.
  rewrite int_in_range by (unfold INT_MIN in *; lia). split; [reflexivity|lia].
Qed.

Lemma positions_extrema (x : list (list rvec)) (nframes natoms : nat) (p : rvec) :
  In p (positions x nframes natoms) ->
  let ps := positions x nframes natoms in
  (run_min (map vx ps) FLT_MAX <= vx p /\ vx p <= run_max (map vx ps) FLT_MIN)
  /\ (run_min (map vy ps) FLT_MAX <= vy p /\ vy p <= run_max (map vy ps) FLT_MIN)
  /\ (run_min (map vz ps) FLT_MAX <= vz p /\ vz p <= run_max (map vz ps) FLT_MIN).
Proof.
  intros Hp ps.
  repeat split;
    first [apply run_min_spec|apply run_max_spec]; apply in_map; exact Hp.
Qed.

(** The cells of the positions of the trajectory, on the grid
    [construct_grid] made of it. *)
Lemma construct_grid_cells (x : list (list rvec)) (nframes natoms : nat)
  (w : Q) (g0 g : tessellated_grid) (p : rvec) :
  0 < w -> construct_grid x nframes natoms w g0 = Done g ->
  In p (positions x nframes natoms) ->
  exists xi yi zi,
    cell_of (vx p) (minx g) w = Done xi
    /\ cell_of (vy p) (miny g) w = Done yi
    /\ cell_of (vz p) (minz g) w = Done zi
    /\ (0 <= xi <= dimx g - 2)%Z /\ (0 <= yi <= dimy g - 2)%Z
    /\ (0 <= zi <= dimz g - 2)%Z.
Proof.
  intros Hw Hg Hp.
  destruct (construct_grid_Done _ _ _ _ _ _ Hg)
    as (Ex & Ey & Ez & Dx & Dy & Dz & _).
  destruct (positions_extrema _ _ _ _ Hp) as ((X1 & X2) & (Y1 & Y2) & (Z1 & Z2)).
  rewrite <- Ex in X1. rewrite <- Ey in Y1. rewrite <- Ez in Z1.
  destruct (cell_bound _ _ _ _ _ Hw X1 X2 Dx) as (xi & Hxi & Bx).
  destruct (cell_bound _ _ _ _ _ Hw Y1 Y2 Dy) as (yi & Hyi & By).
  destruct (cell_bound _ _ _ _ _ Hw Z1 Z2 Dz) as (zi & Hzi & Bz).
  exists xi, yi, zi. repeat split; assumption || lia.
Qed.

Lemma construct_grid_sized (x : list (list rvec)) (nframes natoms : nat)
  (w : Q) (g0 g : tessellated_grid) :
  0 < w -> positions x nframes natoms <> [] ->
  construct_grid x nframes natoms w g0 = Done g ->
  (2 <= dimx g)%Z /\ (2 <= dimy g)%Z /\ (2 <= dimz g)%Z
  /\ (dimx g * dimy g * dimz g <= INT_MAX)%Z
  /\ cell_width g = w
  /\ weights g = repeat 0 (Z.to_nat (dimx g * dimy g * dimz g))
  /\ heightmap g = repeat 0%Z (Z.to_nat (dimx g * dimy g))
  /\ areas g = repeat 0 (Z.to_nat ((dimx g - 1) * (dimy g - 1)))
  /\ well_sized g.
Proof.
  intros Hw Hne Hg.
  destruct (positions x nframes natoms) as [|p ps] eqn:Eps; [contradiction|].
  assert (Hp : In p (positions x nframes natoms)) by (rewrite Eps; now left).
  destruct (construct_grid_cells _ _ _ _ _ _ p Hw Hg Hp)
    as (xi & yi & zi & _ & _ & _ & Bx & By & Bz).
  destruct (construct_grid_Done _ _ _ _ _ _ Hg)
    as (_ & _ & _ & _ & _ & _ & Ew & Hr & Hn & _ & _ & Ews & Ehm & Ear).
  assert (Hdx : (2 <= dimx g)%Z) by lia.
  assert (Hdy : (2 <= dimy g)%Z) by lia.
  assert (Hdz : (2 <= dimz g)%Z) by lia.
  repeat split; try assumption; try lia.
  - rewrite Ews. unfold snew. rewrite repeat_length. nia.
  - rewrite Ehm. unfold snew. rewrite repeat_length. nia.
Qed.

(** The dimension of an axis does not decrease when its extent grows. *)
Lemma dim_of_mono (mx mn mx' mn' w : Q) (d' : Z) :
  0 < w -> mn <= mx -> mx - mn <= mx' - mn' -> dim_of mx' mn' w = Done d' ->
  exists d, dim_of mx mn w = Done d /\ (2 <= d <= d')%Z.
Proof.
  intros Hw Hlo Hhi H. unfold dim_of in H.
  destruct (real (mx' - mn')) as [D|] eqn:ED; [|discriminate]. cbn [bind] in H.
  unfold real_div in H.
  destruct (Qeq_bool w 0) eqn:Ew; [discriminate|].
  destruct (real (D / w)) as [qm|] eqn:EQ; [|discriminate]. cbn [bind] in H.
  unfold int_of_real in H.
  destruct (int (trunc qm)) as [n|] eqn:EI; [|discriminate]. cbn [bind] in H.
  apply int_Done in EI as [-> Rn]. apply int_Done in H as [-> Rd].
  destruct (real_between 0 (mx - mn) (mx' - mn') 0 D) as (dv & Edv & B1 & B2);
    [lra|lra|exact real_zero|exact ED|].
  destruct (real_between 0 (dv / w) (D / w) 0 qm) as (q & Eq & C1 & C2);
    [apply Qdiv_nonneg; assumption|apply Qdiv_le; assumption|exact real_zero
    |exact EQ|].
  pose proof (trunc_nonneg q C1) as T1. pose proof (trunc_le q qm C1 C2) as T2.
  exists (trunc q + 2)%Z. unfold dim_of. rewrite Edv. cbn [bind].
  unfold real_div. rewrite Ew, Eq. cbn [bind]. unfold int_of_real.
  rewrite int_in_range by (unfold INT_MIN in *; lia). cbn [bind].
  rewrite int_in_range by (unfold INT_MIN in *; lia). split; [reflexivity|lia].
Qed.

(** The dimension of an axis whose values lie in [[-B, B]]. *)
Lemma axis_dim (vals : list Q) (B w : Q) (d : Z) :
  0 < w -> vals <> [] -> FLT_MIN <= B ->
  (forall v, In v vals -> - B <= v /\ v <= B) ->
  dim_of B (- B) w = Done d ->
  exists n,
    dim_of (run_max vals FLT_MIN) (run_min vals FLT_MAX) w = Done n
    /\ (2 <= n <= d)%Z.
Proof.
  intros Hw Hne HB Hbox Hd.
  destruct vals as [|v vs] eqn:Ev; [contradiction|]. rewrite <- Ev in *.
  assert (Hv : In v vals) by (rewrite Ev; now left).
  assert (F1 : 0 < FLT_MIN) by reflexivity.
  assert (F2 : 0 < FLT_MAX) by reflexivity.
  destruct (run_min_spec vals FLT_MAX) as (_ & L1 & L2).
  destruct (run_max_spec vals FLT_MIN) as (_ & U1 & U2).
  pose proof (L1 v Hv) as L. pose proof (U1 v Hv) as U.
  assert (Lb : - B <= run_min vals FLT_MAX).
  { destruct L2 as [->|Hin]; [lra|apply (Hbox _ Hin)]. }
  assert (Ub : run_max vals FLT_MIN <= B).
  { destruct U2 as [->|Hin]; [exact HB|apply (Hbox _ Hin)]. }
  apply (dim_of_mono _ _ B (- B) w d Hw); [lra|lra|exact Hd].
Qed.

(** [construct_grid] returns for positions in a box whose grid has a number
    of points that is an [int]. *)
Lemma construct_grid_returns (x : list (list rvec)) (nframes natoms : nat)
  (w : Q) (g0 : tessellated_grid) (B : Q) (d : Z) :
  0 < w -> positions x nframes natoms <> [] -> FLT_MIN <= B ->
  (forall p, In p (positions x nframes natoms) ->
     (- B <= vx p /\ vx p <= B) /\ (- B <= vy p /\ vy p <= B)
     /\ (- B <= vz p /\ vz p <= B)) ->
  dim_of B (- B) w = Done d -> (d * d * d <= INT_MAX)%Z ->
  exists g,
    construct_grid x nframes natoms w g0 = Done g
    /\ (dimx g <= d)%Z /\ (dimy g <= d)%Z /\ (dimz g <= d)%Z.
Proof.
  intros Hw Hne HB Hbox Hd Hmax.
  set (ps := positions x nframes natoms) in *.
  assert (Hmap : forall f : rvec -> Q, map f ps <> []).
  { intros f E. apply map_eq_nil in E. contradiction. }
  destruct (axis_dim (map vx ps) B w d Hw (Hmap vx) HB) as (dx & Ex & Bx);
    [intros v Hv; apply in_map_iff in Hv as (p & <- & Hp); apply (Hbox p Hp)
    |exact Hd|].
  destruct (axis_dim (map vy ps) B w d Hw (Hmap vy) HB) as (dy & Ey & By);
    [intros v Hv; apply in_map_iff in Hv as (p & <- & Hp); apply (Hbox p Hp)
    |exact Hd|].
  destruct (axis_dim (map vz ps) B w d Hw (Hmap vz) HB) as (dz & Ez & Bz);
    [intros v Hv; apply in_map_iff in Hv as (p & <- & Hp); apply (Hbox p Hp)
    |exact Hd|].
  assert (H1 : (dx * dy <= d * d)%Z) by (apply Z.mul_le_mono_nonneg; lia).
  assert (H2 : (dx * dy * dz <= d * d * d)%Z)
    by (apply Z.mul_le_mono_nonneg; nia).
  assert (H3 : (d * d <= d * d * d)%Z) by nia.
  assert (H4 : (0 <= dx * dy)%Z) by nia.
  assert (H5 : (0 <= dx * dy * dz)%Z) by nia.
  assert (H6 : (0 <= (dx - 1) * (dy - 1) <= dx * dy)%Z) by nia.
  unfold construct_grid. rewrite scan_traj_positions, scan_atoms_axes.
  fold ps. rewrite Ex. cbn [bind]. rewrite Ey. cbn [bind]. rewrite Ez.
  cbn [bind].
  rewrite (int_in_range (dx * dy)) by (unfold INT_MIN; lia). cbn [bind].
  rewrite (int_in_range (dx * dy * dz)) by (unfold INT_MIN; lia). cbn [bind].
  unfold snew_count.
  rewrite (proj2 (Z.leb_le 0 (dx * dy * dz)) H5). cbn [bind].
  rewrite (proj2 (Z.leb_le 0 (dx * dy)) H4). cbn [bind].
  rewrite (int_in_range (dx - 1)) by (unfold INT_MIN, INT_MAX in *; lia).
  cbn [bind].
  rewrite (int_in_range (dy - 1)) by (unfold INT_MIN, INT_MAX in *; lia).
  cbn [bind].
  rewrite (int_in_range ((dx - 1) * (dy - 1))) by (unfold INT_MIN; lia).
  cbn [bind].
  rewrite (proj2 (Z.leb_le 0 ((dx - 1) * (dy - 1))) (proj1 H6)). cbn [bind].
  eexists. split; [reflexivity|]. cbn [dimx dimy dimz]. lia.
Qed.

(** X21.  [construct_grid] for a positive cell width and a trajectory with
    at least one position.  Whenever it returns, every dimension is 2 or
    more, the number of grid points is an [int], the cell width is stored,
    and the three arrays are zero-filled blocks of [dimx*dimy*dimz]
    weights, [dimx*dimy] heightmap entries and [(dimx-1)*(dimy-1)] areas.
    It does return when every coordinate lies in [[-B, B]] for a
    [B >= FLT_MIN] such that the dimension [d] computed for the extent
    from [-B] to [B] has [d*d*d <= INT_MAX]; no dimension then exceeds
    [d]. *)
Theorem construct_grid_allocation (x : list (list rvec)) (nframes natoms : nat)
  (w : Q) (g0 : tessellated_grid) :
  0 < w -> positions x nframes natoms <> [] ->
  (forall g, construct_grid x nframes natoms w g0 = Done g ->
     (2 <= dimx g)%Z /\ (2 <= dimy g)%Z /\ (2 <= dimz g)%Z
     /\ (dimx g * dimy g * dimz g <= INT_MAX)%Z
     /\ cell_width g = w
     /\ weights g = repeat 0 (Z.to_nat (dimx g * dimy g * dimz g))
     /\ heightmap g = repeat 0%Z (Z.to_nat (dimx g * dimy g))
     /\ areas g = repeat 0 (Z.to_nat ((dimx g - 1) * (dimy g - 1)))
     /\ well_sized g)
  /\ (forall (B : Q) (d : Z),
        FLT_MIN <= B ->
        (forall p, In p (positions x nframes natoms) ->
           (- B <= vx p /\ vx p <= B) /\ (- B <= vy p /\ vy p <= B)
           /\ (- B <= vz p /\ vz p <= B)) ->
        dim_of B (- B) w = Done d -> (d * d * d <= INT_MAX)%Z ->
        exists g,
          construct_grid x nframes natoms w g0 = Done g
          /\ (dimx g <= d)%Z /\ (dimy g <= d)%Z /\ (dimz g <= d)%Z).
Proof.
  intros Hw Hne. split.
  - intros g Hg. exact (construct_grid_sized x nframes natoms w g0 g Hw Hne Hg).
  - intros B d HB Hbox Hd Hmax.
    exact (construct_grid_returns x nframes natoms w g0 B d Hw Hne HB Hbox Hd Hmax).
Qed.

Lemma construct_grid_allocation_witness :
  (0 < 1 /\ positions single_traj 1 1 <> [])
  /\ exists g,
       construct_grid single_traj 1 1 1 blank_grid = Done g
       /\ (2 <= dimx g <= 4)%Z /\ well_sized g.
Proof.
  assert (H0 : 0 < 1) by reflexivity.
  assert (H1 : positions single_traj 1 1 <> []) by (vm_compute; discriminate).
  split; [split; assumption|].
  destruct (construct_grid_allocation single_traj 1 1 1 blank_grid H0 H1)
    as (Hprops & Hret).
  destruct (Hret 1 4%Z) as (g & Hg & Hdx & _).
  - vm_compute. discriminate.
  - intros p [<-|[]]. vm_compute. repeat split; discriminate.
  - reflexivity.
  - vm_compute. discriminate.
  - exists g. split; [exact Hg|].
    destruct (Hprops g Hg) as (Hlo & _ & _ & _ & _ & _ & _ & _ & Hs).
    split; [lia|exact Hs].
Defined.

(** The eight indices of a cell are computed without overflow and lie
    inside the weights array. *)
Lemma weight_index_bound (dx dy dz xi yi zi ox oy oz : Z) :
  (0 <= xi <= dx - 2)%Z -> (0 <= yi <= dy - 2)%Z -> (0 <= zi <= dz - 2)%Z ->
  (0 <= ox <= 1)%Z -> (0 <= oy <= 1)%Z -> (0 <= oz <= 1)%Z ->
  (dx * dy * dz <= INT_MAX)%Z ->
  exists i,
    weight_index (dy * dz) dz xi yi zi ox oy oz = Done i
    /\ (0 <= i < dx * dy * dz)%Z.
Proof.
  intros Hx Hy Hz Hox Hoy Hoz Hmax.
  pose proof (grid_index_bound dx dy dz (xi + ox) (yi + oy) (zi + oz)
                ltac:(lia) ltac:(lia) ltac:(lia)) as Hi.
  pose proof (grid_index_bound dx dy dz (xi + ox) (yi + oy) 0
                ltac:(lia) ltac:(lia) ltac:(lia)) as Hc.
  pose proof (grid_index_bound dx dy dz (xi + ox) 0 0
                ltac:(lia) ltac:(lia) ltac:(lia)) as Ha.
  pose proof (grid_index_bound dx dy dz 0 (yi + oy) 0
                ltac:(lia) ltac:(lia) ltac:(lia)) as Hb.
  pose proof (grid_index_bound dx dy dz (xi + ox) (yi + oy) zi
                ltac:(lia) ltac:(lia) ltac:(lia)) as Hd.
  assert (Hyz : (1 <= dy * dz)%Z) by nia.
  assert (Hxy : (dy <= dx * dy)%Z) by nia.
  assert (Hdx : (dx <= dx * dy * dz)%Z) by (rewrite <- Z.mul_assoc; nia).
  assert (Hdy : (dy <= dx * dy * dz)%Z) by nia.
  unfold weight_index.
  rewrite (int_in_range (xi + ox)) by (unfold INT_MIN; lia). cbn [bind].
  rewrite (int_in_range (yi + oy)) by (unfold INT_MIN; lia). cbn [bind].
  rewrite (int_in_range ((xi + ox) * (dy * dz))) by (unfold INT_MIN; lia).
  cbn [bind].
  rewrite (int_in_range ((yi + oy) * dz)) by (unfold INT_MIN; lia). cbn [bind].
  rewrite int_in_range by (unfold INT_MIN; lia). cbn [bind].
  rewrite int_in_range by (unfold INT_MIN; lia). cbn [bind].
  rewrite int_in_range by (unfold INT_MIN; lia).
  eexists. split; [reflexivity|]. lia.
Qed.

Lemma grid_coord_safe (mn : Q) (i : Z) (w : Q) :
  safe (fun _ => True) (grid_coord mn i w).
Proof.
  unfold grid_coord.
  apply (safe_bind (fun _ => True)); [apply real_safe|intros fi _].
  apply (safe_bind (fun _ => True)); [apply real_safe|intros t _].
  apply real_safe.
Qed.

Section LoadAtom.

Variable fweight : rvec -> rvec -> option Q.
Variable g : tessellated_grid.
Variable n : nat.

Hypothesis size : Z.of_nat n = (dimx g * dimy g * dimz g)%Z.
Hypothesis size_int : (dimx g * dimy g * dimz g <= INT_MAX)%Z.

(** The position [p] has its cell inside the grid. *)
Let placed (p : rvec) : Prop :=
  exists xi yi zi,
    cell_of (vx p) (minx g) (cell_width g) = Done xi
    /\ cell_of (vy p) (miny g) (cell_width g) = Done yi
    /\ cell_of (vz p) (minz g) (cell_width g) = Done zi
    /\ (0 <= xi <= dimx g - 2)%Z /\ (0 <= yi <= dimy g - 2)%Z
    /\ (0 <= zi <= dimz g - 2)%Z.

Lemma add_weight_safe (ws : list Q) (i : Z) (p gp : rvec) :
  length ws = n -> (0 <= i < Z.of_nat n)%Z ->
  safe (fun ws' => length ws' = n) (add_weight fweight ws i p gp).
Proof.
  intros Hl Hi. unfold add_weight.
  destruct (load_in_range ws i) as (old & -> & _); [lia|]. cbn [bind].
  destruct (fweight p gp) as [wv|]; [|cbn; discriminate].
  apply (safe_bind (fun _ => True)); [apply real_safe|intros sum _].
  rewrite store_in_range by lia. cbn [safe].
  rewrite length_insert. exact Hl.
Qed.

Lemma load_atom_safe (ws : list Q) (p : rvec) :
  length ws = n -> placed p ->
  safe (fun ws' => length ws' = n) (load_atom fweight g (dimy g * dimz g) ws p).
Proof.
  intros Hl (xi & yi & zi & Ex & Ey & Ez & Bx & By & Bz).
  unfold load_atom. rewrite Ex, Ey, Ez. cbn [bind].
  apply (safe_bind (fun _ => True)); [apply grid_coord_safe|intros gx _].
  apply (safe_bind (fun _ => True)); [apply grid_coord_safe|intros gy _].
  apply (safe_bind (fun _ => True)); [apply grid_coord_safe|intros gz _].
  repeat first
    [ match goal with
      | |- safe _ (bind (weight_index _ _ _ _ _ ?ox ?oy ?oz) _) =>
          let Ei := fresh "Ei" in
          let Bi := fresh "Bi" in
          destruct (weight_index_bound (dimx g) (dimy g) (dimz g) xi yi zi ox oy oz
                      Bx By Bz ltac:(lia) ltac:(lia) ltac:(lia) size_int)
            as (? & Ei & Bi);
          rewrite Ei; cbn [bind]
      | |- safe _ (bind (add_weight _ _ _ _ _) _) =>
          apply (safe_bind (fun ws' => length ws' = n));
          [apply add_weight_safe; [assumption|lia]|intros ? ?]
      | |- safe _ (bind (real _) _) =>
          apply (safe_bind (fun _ => True)); [apply real_safe|intros ? _]
      end ].
  apply add_weight_safe; [assumption|lia].
Qed.

Lemma load_atoms_safe :
  forall (ps : list rvec) (ws : list Q),
    length ws = n -> Forall placed ps ->
    safe (fun ws' => length ws' = n) (load_atoms fweight g (dimy g * dimz g) ws ps).
Proof.
  induction ps as [|p ps IH]; intros ws Hl Hps; [exact Hl|].
  cbn [load_atoms]. apply Forall_cons in Hps as [Hp Hps'].
  apply (safe_bind (fun ws' => length ws' = n)); [now apply load_atom_safe|].
  intros ws' Hl'. now apply IH.
Qed.

Lemma load_frames_safe (natoms : nat) :
  forall (frames : list (list rvec)) (ws : list Q),
    length ws = n ->
    Forall (fun frame => Forall placed (take natoms frame)) frames ->
    safe (fun ws' => length ws' = n)
         (load_frames fweight g (dimy g * dimz g) natoms ws frames).
Proof.
  induction frames as [|fr frames IH]; intros ws Hl Hfr; [exact Hl|].
  cbn [load_frames]. apply Forall_cons in Hfr as [Hp Hfr'].
  apply (safe_bind (fun ws' => length ws' = n)); [now apply load_atoms_safe|].
  intros ws' Hl'. now apply IH.
Qed.

End LoadAtom.

Section LoadGrid.

Variable sqrt : Q -> Q.

(** [load_grid] on the grid of [construct_grid]: the cells and the indices
    of the positions, and the run as a whole. *)
Lemma load_grid_safe (fweight : statics -> rvec -> rvec -> option Q)
  (x : list (list rvec)) (nframes natoms : nat) (w : Q)
  (g0 g : tessellated_grid) :
  0 < w -> construct_grid x nframes natoms w g0 = Done g ->
  (forall p, In p (positions x nframes natoms) ->
     exists xi yi zi,
       cell_of (vx p) (minx g) w = Done xi
       /\ cell_of (vy p) (miny g) w = Done yi
       /\ cell_of (vz p) (minz g) w = Done zi
       /\ (0 <= xi <= dimx g - 2)%Z /\ (0 <= yi <= dimy g - 2)%Z
       /\ (0 <= zi <= dimz g - 2)%Z
       /\ forall ox oy oz,
            (0 <= ox <= 1)%Z -> (0 <= oy <= 1)%Z -> (0 <= oz <= 1)%Z ->
            exists i,
              weight_index (dimy g * dimz g) (dimz g) xi yi zi ox oy oz = Done i
              /\ (0 <= i < Z.of_nat (length (weights g)))%Z)
  /\ safe (fun r => length (weights (fst r)) = length (weights g))
          (load_grid sqrt fweight x nframes natoms g).
Proof.
  intros Hw Hg.
  destruct (construct_grid_Done _ _ _ _ _ _ Hg)
    as (_ & _ & _ & _ & _ & _ & Ew & Hr & Hn & _ & _ & Ews & _).
  assert (Hlen : Z.of_nat (length (weights g)) = (dimx g * dimy g * dimz g)%Z).
  { rewrite Ews. unfold snew. rewrite repeat_length. lia. }
  split.
  - intros p Hp.
    destruct (construct_grid_cells _ _ _ _ _ _ p Hw Hg Hp)
      as (xi & yi & zi & Ex & Ey & Ez & Bx & By & Bz).
    exists xi, yi, zi. repeat split; try assumption; try lia.
    intros ox oy oz Hox Hoy Hoz. rewrite Hlen.
    apply weight_index_bound; try assumption; lia.
  - unfold load_grid.
    apply (safe_bind (fun r => r = (dimy g * dimz g)%Z)); [apply int_safe|].
    intros dimyz ->.
    apply (safe_bind (fun _ => True)); [apply real_safe|intros t _].
    apply (safe_bind (fun _ => True)); [apply real_safe|intros diag2 _].
    apply (safe_bind (fun _ => True)); [apply real_safe|intros diag _].
    apply (safe_bind (fun ws' => length ws' = length (weights g))).
    + apply (load_frames_safe _ g (length (weights g)) Hlen ltac:(lia));
        [reflexivity|].
      apply Forall_forall. intros fr Hfr. apply Forall_forall. intros p Hp.
      apply list_elem_of_In in Hfr, Hp.
      assert (Hin : In p (positions x nframes natoms)).
      { unfold positions. apply in_concat. exists (take natoms fr).
        split; [|exact Hp]. apply in_map. exact Hfr. }
      destruct (construct_grid_cells _ _ _ _ _ _ p Hw Hg Hin)
        as (xi & yi & zi & Ex & Ey & Ez & Bx & By & Bz).
      rewrite Ew. exists xi, yi, zi. repeat split; assumption || lia.
    + intros ws' Hl. cbn [safe fst with_weights weights]. exact Hl.
Qed.

(** X22.  On the grid that [construct_grid] made of a trajectory with a
    positive cell width, [load_grid] over the same trajectory stays inside
    the weights array, whatever the weight function.  For every position
    the three cell indices are computed without a fault and lie between 0
    and the dimension less 2, and each of the eight indices
    [(xi+ox)*dimyz + (yi+oy)*dimz + zi+oz] is computed without overflow
    and lies inside the array; no run of [load_grid] ends in an access
    outside a block, and one that returns leaves the array its length. *)
Theorem load_grid_stays_in_bounds (fweight : statics -> rvec -> rvec -> option Q)
  (x : list (list rvec)) (nframes natoms : nat) (w : Q)
  (g0 g : tessellated_grid) :
  0 < w -> construct_grid x nframes natoms w g0 = Done g ->
  (forall p, In p (positions x nframes natoms) ->
     exists xi yi zi,
       cell_of (vx p) (minx g) w = Done xi
       /\ cell_of (vy p) (miny g) w = Done yi
       /\ cell_of (vz p) (minz g) w = Done zi
       /\ (0 <= xi <= dimx g - 2)%Z /\ (0 <= yi <= dimy g - 2)%Z
       /\ (0 <= zi <= dimz g - 2)%Z
       /\ forall ox oy oz,
            (0 <= ox <= 1)%Z -> (0 <= oy <= 1)%Z -> (0 <= oz <= 1)%Z ->
            exists i,
              weight_index (dimy g * dimz g) (dimz g) xi yi zi ox oy oz = Done i
              /\ (0 <= i < Z.of_nat (length (weights g)))%Z)
  /\ safe (fun r => length (weights (fst r)) = length (weights g))
          (load_grid sqrt fweight x nframes natoms g).
Proof.
  intros Hw Hg. exact (load_grid_safe fweight x nframes natoms w g0 g Hw Hg).
Qed.

End LoadGrid.

Lemma load_grid_stays_in_bounds_witness :
  0 < 1
  /\ exists g,
       construct_grid single_traj 1 1 1 blank_grid = Done g
       /\ safe (fun r => length (weights (fst r)) = length (weights g))
               (load_grid (fun q => q) (fun _ _ _ => Some 1) single_traj 1 1 g).
Proof.
  assert (H0 : 0 < 1) by reflexivity.
  split; [exact H0|].
  destruct (construct_grid single_traj 1 1 1 blank_grid) as [g|f] eqn:Eg;
    [|vm_compute in Eg; discriminate Eg].
  exists g. split; [reflexivity|].
  exact (proj2 (load_grid_stays_in_bounds (fun q => q) (fun _ _ _ => Some 1)
                  single_traj 1 1 1 blank_grid g H0 Eg)).
Defined.

(** ** [tessellate_grid] on a grid without empty columns *)

Lemma Qsum_app (l1 l2 : list Q) : Qsum (l1 ++ l2) == Qsum l1 + Qsum l2.
Proof.
  induction l1 as [|a l1 IH].
  - change (Qsum l2 == 0 + Qsum l2). lra.
  - change (a + Qsum (l1 ++ l2) == a + Qsum l1 + Qsum l2). lra.
Qed.

Section Full.

Variable norm : rvec -> Q.
Variable g : tessellated_grid.
Hypothesis Hfull : no_empty_column g.

Lemma load_height (x y : Z) :
  (0 <= x < dimx g)%Z -> (0 <= y < dimy g)%Z ->
  load (heightmap g) (x * dimy g + y) = Done (height g x y).
Proof.
  intros Hx Hy. destruct Hfull as (_ & _ & Hhm & _).
  pose proof (column_index_bound (dimx g) (dimy g) x y Hx Hy).
  destruct (load_in_range (heightmap g) (x * dimy g + y)) as (h & Hl & Hh); [lia|].
  rewrite Hl. unfold height. now rewrite Hh.
Qed.

Lemma filled_cell (x y : Z) (st : tstate) :
  (0 <= x < dimx g - 1)%Z -> (0 <= y < dimy g - 1)%Z ->
  filled norm g (x * (dimy g - 1) + y) st ->
  exists st', tessellate_cell norm g x y st = Done st'
              /\ filled norm g (x * (dimy g - 1) + y + 1) st'.
Proof.
  intros Hx Hy Hv. destruct st as [ar tot]. destruct Hv as (Hlen & Hcells & Hsum).
  pose proof Hfull as (Hdx & Hdy & Hhm & Har & Hpos).
  pose proof (column_index_bound (dimx g - 1) (dimy g - 1) x y Hx Hy) as Hk.
  unfold tessellate_cell.
  rewrite (load_height x y) by lia. cbn [bind].
  destruct (Z.ltb_spec (height g x y) 0) as [N|_];
    [specialize (Hpos x y ltac:(lia) ltac:(lia)); lia|].
  replace (x * dimy g + y + 1)%Z with (x * dimy g + (y + 1))%Z by lia.
  rewrite (load_height x (y + 1)) by lia. cbn [bind].
  destruct (Z.ltb_spec (height g x (y + 1)) 0) as [N|_];
    [specialize (Hpos x (y + 1)%Z ltac:(lia) ltac:(lia)); lia|].
  rewrite (load_height (x + 1) y) by lia. cbn [bind].
  destruct (Z.ltb_spec (height g (x + 1) y) 0) as [N|_];
    [specialize (Hpos (x + 1)%Z y ltac:(lia) ltac:(lia)); lia|].
  replace ((x + 1) * dimy g + y + 1)%Z with ((x + 1) * dimy g + (y + 1))%Z by lia.
  rewrite (load_height (x + 1) (y + 1)) by lia. cbn [bind].
  destruct (Z.ltb_spec (height g (x + 1) (y + 1)) 0) as [N|_];
    [specialize (Hpos (x + 1)%Z (y + 1)%Z ltac:(lia) ltac:(lia)); lia|].
  fold (cell_area_at norm g x y).
  rewrite store_in_range by lia. cbn [bind].
  eexists. split; [reflexivity|].
  split; [rewrite length_insert; exact Hlen|]. split.
  - intros x' y' Hx' Hy' Hlt.
    destruct (Z.eq_dec (x' * (dimy g - 1) + y')%Z (x * (dimy g - 1) + y)%Z) as [E|E].
    + destruct (cell_index_inj (dimy g - 1) x y x' y' Hy Hy' E) as [-> ->].
      apply list_lookup_insert_eq. lia.
    + assert (0 <= x' * (dimy g - 1))%Z by nia.
      rewrite list_lookup_insert_ne by lia. apply Hcells; try assumption. lia.
  - replace (Z.to_nat (x * (dimy g - 1) + y + 1))
      with (S (Z.to_nat (x * (dimy g - 1) + y))) by lia.
    rewrite (take_S_r _ _ (cell_area_at norm g x y))
      by (apply list_lookup_insert_eq; lia).
    rewrite take_insert_ge by lia.
    rewrite Qsum_app, Hsum.
    change (Qsum [cell_area_at norm g x y]) with (cell_area_at norm g x y + 0). lra.
Qed.

Lemma filled_row (x : Z) :
  forall (n : nat) (y : Z) (st : tstate),
    (0 <= x < dimx g - 1)%Z -> (0 <= y)%Z -> (y + Z.of_nat n <= dimy g - 1)%Z ->
    filled norm g (x * (dimy g - 1) + y) st ->
    exists st', tessellate_row norm g x n y st = Done st'
                /\ filled norm g (x * (dimy g - 1) + y + Z.of_nat n) st'.
Proof.
  induction n as [|n IH]; intros y st Hx Hy Hn Hv.
  - exists st. split; [reflexivity|].
    replace (x * (dimy g - 1) + y + Z.of_nat 0)%Z with (x * (dimy g - 1) + y)%Z by lia.
    exact Hv.
  - cbn [tessellate_row].
    destruct (filled_cell x y st Hx ltac:(lia) Hv) as (st1 & Hc & Hv1).
    rewrite Hc. cbn [bind].
    destruct (IH (y + 1)%Z st1 Hx ltac:(lia) ltac:(lia)) as (st' & Hr & Hv').
    { replace (x * (dimy g - 1) + (y + 1))%Z
        with (x * (dimy g - 1) + y + 1)%Z by lia.
      exact Hv1. }
    exists st'. split; [exact Hr|].
    replace (x * (dimy g - 1) + y + Z.of_nat (S n))%Z
      with (x * (dimy g - 1) + (y + 1) + Z.of_nat n)%Z by lia.
    exact Hv'.
Qed.

Lemma filled_rows :
  forall (n : nat) (x : Z) (st : tstate),
    (0 <= x)%Z -> (x + Z.of_nat n <= dimx g - 1)%Z ->
    filled norm g (x * (dimy g - 1)) st ->
    exists st', tessellate_rows norm g n x st = Done st'
                /\ filled norm g ((x + Z.of_nat n) * (dimy g - 1)) st'.
Proof.
  pose proof Hfull as (Hdx & Hdy & _).
  induction n as [|n IH]; intros x st Hx Hn Hv.
  - exists st. split; [reflexivity|].
    replace (x + Z.of_nat 0)%Z with x by lia. exact Hv.
  - cbn [tessellate_rows].
    destruct (filled_row x (Z.to_nat (dimy g - 1)) 0%Z st) as (st1 & Hr & Hv1);
      try lia.
    { replace (x * (dimy g - 1) + 0)%Z with (x * (dimy g - 1))%Z by lia. exact Hv. }
    rewrite Hr. cbn [bind].
    destruct (IH (x + 1)%Z st1 ltac:(lia) ltac:(lia)) as (st' & Hrs & Hv').
    { replace ((x + 1) * (dimy g - 1))%Z
        with (x * (dimy g - 1) + 0 + Z.of_nat (Z.to_nat (dimy g - 1)))%Z by lia.
      exact Hv1. }
    exists st'. split; [exact Hrs|].
    replace ((x + Z.of_nat (S n)) * (dimy g - 1))%Z
      with ((x + 1 + Z.of_nat n) * (dimy g - 1))%Z by lia.
    exact Hv'.
Qed.

End Full.

Lemma tessellate_grid_filled (norm : rvec -> Q) (g : tessellated_grid) :
  no_empty_column g ->
  exists ar tot,
    tessellate_rows norm g (Z.to_nat (dimx g - 1)) 0 (areas g, 0) = Done (ar, tot)
    /\ filled norm g ((dimx g - 1) * (dimy g - 1)) (ar, tot).
Proof.
  intros Hfull. pose proof Hfull as (Hdx & Hdy & Hhm & Har & Hpos).
  destruct (filled_rows norm g Hfull (Z.to_nat (dimx g - 1)) 0%Z (areas g, 0))
    as ([ar tot] & Hrun & Hv); try lia.
  { split; [reflexivity|]. split; [intros x y Hx Hy Hlt; nia|]. reflexivity. }
  rewrite Z.add_0_l, Z2Nat.id in Hv by lia.
  exists ar, tot. split; assumption.
Qed.



(** ** The stages in a row *)

Lemma filter_none {A} (f : A -> bool) :
  forall l : list A, length (List.filter f l) = 0%nat ->
    forall a, In a l -> f a = false.
Proof.
  induction l as [|b l IH]; intros H a Ha; [destruct Ha|].
  cbn [List.filter] in H. destruct (f b) eqn:Hb; [discriminate|].
  destruct Ha as [<-|Ha]; [exact Hb|now apply IH].
Qed.

Section Stages.

Variable sqrt : Q -> Q.
Variable norm : rvec -> Q.


End Stages.


(** The law of the dimensions at a frame of two atoms with negative
    coordinates. *)
Lemma construct_grid_dims_witness :
  exists g,
    construct_grid negative_traj 1 2 1 blank_grid = Done g
    /\ lowest (FLT_MAX :: map vx (positions negative_traj 1 2)) (minx g)
    /\ exists M, highest (FLT_MIN :: map vx (positions negative_traj 1 2)) M
                 /\ dim_of M (minx g) 1 = Done (dimx g).
Proof.
  destruct (construct_grid negative_traj 1 2 1 blank_grid) as [g|f] eqn:Eg;
    [|vm_compute in Eg; discriminate Eg].
  exists g. split; [reflexivity|].
  exact (proj1 (construct_grid_dims negative_traj 1 2 1 blank_grid g Eg)).
Defined.

Lemma norm2_nonneg (a : rvec) : 0 <= norm2 a.
Proof.
  unfold norm2. nra.
Qed.


End GridLaws.
